(** * CalcZ: admittance and impedance from a charge autocorrelation function

    A shallow embedding of [CalcZ.py].  float64 values are read as exact
    real numbers ([R]) and complex128 values as pairs of reals wherever the
    script evaluates a formula, so the statements about values are about
    the arithmetic the script writes down, not about its rounding.

    One part of the script branches on the outcome of float64 arithmetic:
    [LagrangeInterpol] stores [lagrange(x, y).coef], and numpy's [poly1d]
    strips the leading coefficients that are exactly zero, so the number of
    coefficients, and with it whether the store fills a row, broadcasts or
    raises, depends on how the arithmetic rounds.  That part is written
    over an interface of float64 arithmetic ([Float64]) with two
    instances: [binary64], the IEEE arithmetic of Rocq's primitive floats,
    and [exact], the same operations without rounding.  What is proved for
    every instance holds for the script as it runs; what is proved for
    [exact] describes the values in exact arithmetic.

    The places where float64 leaves the reals (a division by zero giving
    inf or NaN) are kept visible: see [outcome] and [f64]. *)

From Stdlib Require Import Floats ZArith.
From Stdlib Require Import Reals Lra Lia List Arith PeanoNat.
Import ListNotations.

Local Open Scope R_scope.

(** ** Complex numbers (Python [complex], numpy [complex128]) *)

Module Cplx.

Record C : Type := mkC { Re : R; Im : R }.

Definition RtoC (x : R) : C := mkC x 0.
Definition Ci : C := mkC 0 1.
Definition C0 : C := mkC 0 0.
Definition Cadd (z w : C) : C := mkC (Re z + Re w) (Im z + Im w).
Definition Copp (z : C) : C := mkC (- Re z) (- Im z).
Definition Csub (z w : C) : C := mkC (Re z - Re w) (Im z - Im w).
Definition Cmul (z w : C) : C :=
  mkC (Re z * Re w - Im z * Im w) (Re z * Im w + Im z * Re w).
Definition Cinv (z : C) : C :=
  mkC (Re z / (Re z * Re z + Im z * Im z))
      (- Im z / (Re z * Re z + Im z * Im z)).
(** [np.exp] on a complex argument. *)
Definition Cexp (z : C) : C :=
  mkC (exp (Re z) * cos (Im z)) (exp (Re z) * sin (Im z)).

End Cplx.
Import Cplx.

Declare Scope C_scope.
Delimit Scope C_scope with C.
Bind Scope C_scope with C.
Infix "+" := Cadd : C_scope.
Infix "-" := Csub : C_scope.
Infix "*" := Cmul : C_scope.
Notation "- z" := (Copp z) : C_scope.
Notation "'j1'" := Ci : C_scope.
Coercion RtoC : R >-> C.

(** ** Outcomes of the Python code *)

(** The exceptions the script can raise. *)
Inductive exn : Type := ValueError | IndexError | ZeroDivisionError.

(** [Ok a]: the call returns [a].  [Raise e]: it raises [e].  [NonFinite]:
    the run has left the real numbers: numpy divided a float64 by zero
    (inf or NaN, a RuntimeWarning and no exception), or a float64 that is
    inf or NaN is about to enter a formula the model evaluates over the
    reals.  The values from there on are no real numbers, and the model
    does not follow the run further. *)
Inductive outcome (A : Type) : Type :=
| Ok (a : A)
| Raise (e : exn)
| NonFinite.
Arguments Ok {A} a.
Arguments Raise {A} e.
Arguments NonFinite {A}.

Definition bind {A B} (m : outcome A) (f : A -> outcome B) : outcome B :=
  match m with
  | Ok a => f a
  | Raise e => Raise e
  | NonFinite => NonFinite
  end.

Notation "x <- m ;; k" := (bind m (fun x => k))
  (at level 61, m at next level, right associativity).

(** Indexing [l[i]] with a non-negative index. *)
Definition getitem {A} (l : list A) (i : nat) : outcome A :=
  match nth_error l i with
  | Some a => Ok a
  | None => Raise IndexError
  end.

(** Item assignment [l[i] = v]. *)
Fixpoint upd {A} (l : list A) (i : nat) (v : A) : list A :=
  match l, i with
  | [], _ => []
  | _ :: t, O => v :: t
  | h :: t, S i' => h :: upd t i' v
  end.

Definition setitem {A} (l : list A) (i : nat) (v : A) : outcome (list A) :=
  if Nat.ltb i (length l) then Ok (upd l i v) else Raise IndexError.

(** [range(start, stop, 2)] for start <= stop; empty otherwise. *)
Definition range2 (start stop : nat) : list nat :=
  map (fun q => (start + 2 * q)%nat) (seq 0 ((stop - start + 1) / 2)).

(** A coefficient row [coeffs[ip, :]]. *)
Definition row : Type := (R * R * R)%type.

(** ** FilonLagrange *)

(** The summand of line 52-55, with the source's grouping. *)
Definition filon_term (ff t1 t2 a b c : R) : C :=
  (RtoC (1 / ff ^ 3) *
   (Cexp (- j1 * ff * t2) *
      (a * (ff * t2 * (RtoC 2 + j1 * ff * t2) - RtoC 2 * j1)
       + ff * (j1 * b * ff * t2 + b + j1 * c * ff))
    - j1 * Cexp (- j1 * ff * t1) *
      (a * (RtoC (-2) + ff * t1 * (ff * t1 - RtoC 2 * j1))
       + ff * (c * ff + b * (ff * t1 - j1)))))%C.

(** One pass of the inner loop body, [DFT[ifreq] += ...], for index [it]
    and row counter [ip].  numba does not check indices; an index outside
    an array is modelled as [IndexError].  numba's default error model
    raises ZeroDivisionError on [1/ff**3]. *)
Definition filon_body (ff : R) (ifreq : nat) (Time : list R)
    (coeffs : list row) (DFT : list C) (it ip : nat) : outcome (list C) :=
  t1 <- getitem Time it ;;
  t2 <- getitem Time (it + 2) ;;
  r <- getitem coeffs ip ;;
  let '(a, b, c) := r in
  d <- getitem DFT ifreq ;;
  if Req_dec_T (ff ^ 3) 0 then Raise ZeroDivisionError
  else setitem DFT ifreq (d + filon_term ff t1 t2 a b c)%C.

(** [for it in range(0, len(Time)-2, 2)], with [ip] counted along. *)
Fixpoint filon_inner (ff : R) (ifreq : nat) (Time : list R)
    (coeffs : list row) (its : list nat) (ip : nat) (DFT : list C)
    : outcome (list C) :=
  match its with
  | [] => Ok DFT
  | it :: its' =>
      DFT' <- filon_body ff ifreq Time coeffs DFT it ip ;;
      filon_inner ff ifreq Time coeffs its' (S ip) DFT'
  end.

(** [for ifreq in prange(len(freq))]: the passes write disjoint slots, so
    running them in index order loses nothing. *)
Fixpoint filon_outer (freq : list R) (ifreq : nat) (Time : list R)
    (coeffs : list row) (DFT : list C) : outcome (list C) :=
  match freq with
  | [] => Ok DFT
  | ff :: freq' =>
      DFT' <- filon_inner ff ifreq Time coeffs
                (range2 0 (length Time - 2)) 0 DFT ;;
      filon_outer freq' (S ifreq) Time coeffs DFT'
  end.

Definition FilonLagrange (DFT : list C) (freq Time : list R)
    (coeffs : list row) : outcome (list C) :=
  filon_outer freq 0 Time coeffs DFT.


(** ** float64 arithmetic *)

(** A float64 or complex128 value read as a number: a number, or inf/NaN. *)
Inductive f64 (A : Type) : Type :=
| Finite (a : A)
| InfNaN.
Arguments Finite {A} a.
Arguments InfNaN {A}.

(** The float64 operations [lagrange] and [poly1d] use: the constants 0.0
    and 1.0, [-x], [x + y], [x - y], [x * y], [x / y], the test [x == 0],
    and the real number a float64 stands for. *)
Class Float64 (F : Type) : Type := {
  f_zero : F;
  f_one : F;
  f_opp : F -> F;
  f_add : F -> F -> F;
  f_sub : F -> F -> F;
  f_mul : F -> F -> F;
  f_div : F -> F -> F;
  f_is_zero : F -> bool;
  f_value : F -> f64 R
}.

(** The real number of an IEEE binary64 datum. *)
Definition SF_value (s : spec_float) : f64 R :=
  match s with
  | S754_zero _ => Finite 0
  | S754_finite sg m e =>
      Finite (IZR (if sg then Zneg m else Zpos m) * powerRZ 2 e)
  | S754_infinity _ => InfNaN
  | S754_nan => InfNaN
  end.

(** IEEE binary64 with round to nearest even, as numpy computes. *)
#[export] Instance binary64 : Float64 float := {|
  f_zero := 0%float;
  f_one := 1%float;
  f_opp := PrimFloat.opp;
  f_add := PrimFloat.add;
  f_sub := PrimFloat.sub;
  f_mul := PrimFloat.mul;
  f_div := PrimFloat.div;
  f_is_zero := fun x => PrimFloat.eqb x 0%float;
  f_value := fun x => SF_value (Prim2SF x)
|}.

(** The same operations without rounding.  inf and NaN are the one value
    [InfNaN]: a division by zero gives it and every operation keeps it, as
    IEEE arithmetic does for the operands that occur (the divisors of
    [lagrange] are differences of finite times). *)
Module Exact.

Definition opp (x : f64 R) : f64 R :=
  match x with
  | Finite a => Finite (- a)
  | InfNaN => InfNaN
  end.

Definition add (x y : f64 R) : f64 R :=
  match x, y with
  | Finite a, Finite b => Finite (a + b)
  | _, _ => InfNaN
  end.

Definition sub (x y : f64 R) : f64 R :=
  match x, y with
  | Finite a, Finite b => Finite (a - b)
  | _, _ => InfNaN
  end.

Definition mul (x y : f64 R) : f64 R :=
  match x, y with
  | Finite a, Finite b => Finite (a * b)
  | _, _ => InfNaN
  end.

Definition div (x y : f64 R) : f64 R :=
  match x, y with
  | Finite a, Finite b => if Req_dec_T b 0 then InfNaN else Finite (a / b)
  | _, _ => InfNaN
  end.

Definition is_zero (x : f64 R) : bool :=
  match x with
  | Finite a => if Req_dec_T a 0 then true else false
  | InfNaN => false
  end.

End Exact.

#[export] Instance exact : Float64 (f64 R) := {|
  f_zero := Finite 0;
  f_one := Finite 1;
  f_opp := Exact.opp;
  f_add := Exact.add;
  f_sub := Exact.sub;
  f_mul := Exact.mul;
  f_div := Exact.div;
  f_is_zero := Exact.is_zero;
  f_value := fun x => x
|}.

(** ** numpy.poly1d and scipy.interpolate.lagrange

    [LagrangeInterpol] takes its coefficients from [lagrange(x, y).coef].
    A [poly1d] holds its coefficients highest power first and strips
    the leading coefficients that compare equal to zero when it is built,
    so the length of [.coef] depends on the data and on the rounding. *)

Module Poly1d.
Section Arith.
Context {F : Type} {A : Float64 F}.

(** [np.trim_zeros(c, 'f')]: inf and NaN are not zero and stay. *)
Fixpoint trim_zeros_f (c : list F) : list F :=
  match c with
  | [] => []
  | c0 :: c' => if f_is_zero c0 then trim_zeros_f c' else c
  end.

(** The constructor [poly1d(c)]: trimmed, and [[0.]] when nothing is
    left. *)
Definition poly1d (c : list F) : list F :=
  match trim_zeros_f c with
  | [] => [f_zero]
  | l => l
  end.

(** Elementwise [a + b] of arrays of one length. *)
Definition zipadd (a b : list F) : list F :=
  map (fun p => f_add (fst p) (snd p)) (combine a b).

(** [np.polyadd] before the final [poly1d]: the shorter array is padded
    with zeros at the front. *)
Definition polyadd_raw (a1 a2 : list F) : list F :=
  let n1 := length a1 in
  let n2 := length a2 in
  if Nat.eqb n1 n2 then zipadd a1 a2
  else if Nat.ltb n1 n2 then zipadd (repeat f_zero (n2 - n1) ++ a1) a2
  else zipadd a1 (repeat f_zero (n1 - n2) ++ a2).

(** [poly1d.__add__]. *)
Definition polyadd (p q : list F) : list F := poly1d (polyadd_raw p q).

(** [np.convolve(a, v)] (full mode) of non-empty arrays:
    [out[n] = sum_m a[m] * v[n-m]], by recursion on [a]; the sum starts
    from 0.0 as numpy's dot product does (this fixes the result up to the
    sign of a zero). *)
Fixpoint convolve (a v : list F) : list F :=
  match a with
  | [] => []
  | a0 :: a' =>
      match a' with
      | [] => map (f_mul a0) v
      | _ => zipadd (map (f_mul a0) v ++ repeat f_zero (length a'))
                    (f_zero :: convolve a' v)
      end
  end.

(** [poly1d.__mul__] on two polynomials, through [np.polymul]. *)
Definition polymul (p q : list F) : list F :=
  poly1d (convolve (poly1d p) (poly1d q)).

(** [poly1d.__truediv__] by a scalar: elementwise, a zero scalar gives
    inf or NaN entries. *)
Definition polydiv_scalar (p : list F) (fac : F) : list F :=
  poly1d (map (fun c => f_div c fac) p).

End Arith.
End Poly1d.
Import Poly1d.

Section Lagrange.
Context {F : Type} {A : Float64 F}.

(** The loop over [k] inside [lagrange]: [pt *= poly1d([1.0, -x[k]])/fac]
    for every [k <> j].  A zero [fac] is a float64 division by zero: the
    quotient has inf/NaN entries and the loop goes on. *)
Fixpoint lagrange_inner (x : list F) (xj : F) (j : nat) (ks : list nat)
    (pt : list F) : outcome (list F) :=
  match ks with
  | [] => Ok pt
  | k :: ks' =>
      if Nat.eqb k j then lagrange_inner x xj j ks' pt
      else
        xk <- getitem x k ;;
        let fac := f_sub xj xk in
        lagrange_inner x xj j ks'
          (polymul pt (polydiv_scalar (poly1d [f_one; f_opp xk]) fac))
  end.

(** The loop over [j]: [pt = poly1d(w[j]); ...; p += pt]. *)
Fixpoint lagrange_outer (x w : list F) (js : list nat) (p : list F)
    : outcome (list F) :=
  match js with
  | [] => Ok p
  | j :: js' =>
      wj <- getitem w j ;;
      xj <- getitem x j ;;
      pt <- lagrange_inner x xj j (seq 0 (length x)) (poly1d [wj]) ;;
      lagrange_outer x w js' (polyadd p pt)
  end.

(** [scipy.interpolate.lagrange(x, w)]; the result is [p.coef]. *)
Definition lagrange (x w : list F) : outcome (list F) :=
  lagrange_outer x w (seq 0 (length x)) (poly1d [f_zero]).

(** ** LagrangeInterpol *)

(** A row [coeffs[ip, :]] of float64 values. *)
Definition frow : Type := (F * F * F)%type.

(** The slice [l[lo:hi]]. *)
Definition slice {B} (l : list B) (lo hi : nat) : list B :=
  firstn (hi - lo) (skipn lo l).

(** [coeffs[ipp, :] = coef]: a one-element array is broadcast over the
    row, a three-element array fills it, any other length raises
    ValueError (the shapes cannot be broadcast). *)
Definition assign_row (coeffs : list frow) (ipp : nat) (coef : list F)
    : outcome (list frow) :=
  if Nat.ltb ipp (length coeffs) then
    match coef with
    | [v] => Ok (upd coeffs ipp (v, v, v))
    | [a; b; c] => Ok (upd coeffs ipp (a, b, c))
    | _ => Raise ValueError
    end
  else Raise IndexError.

Fixpoint interpol_loop (Time Signal : list F) (ips : list nat) (ipp : nat)
    (coeffs : list frow) : outcome (list frow) :=
  match ips with
  | [] => Ok coeffs
  | ip :: ips' =>
      let x := slice Time (ip - 1) (ip + 2) in
      let y := slice Signal (ip - 1) (ip + 2) in
      coef <- lagrange x y ;;
      coeffs' <- assign_row coeffs ipp coef ;;
      interpol_loop Time Signal ips' (S ipp) coeffs'
  end.

Definition LagrangeInterpol (coeffs : list frow) (Time Signal : list F)
    : outcome (list frow) :=
  interpol_loop Time Signal (range2 1 (length Time - 1)) 0 coeffs.

(** [np.zeros((n, 3))]. *)
Definition zeros_rows (n : nat) : list frow :=
  repeat (f_zero, f_zero, f_zero) n.

(** A coefficient row read as real numbers, for [FilonLagrange]. *)
Definition row_value (r : frow) : outcome row :=
  let '(a, b, c) := r in
  match f_value a, f_value b, f_value c with
  | Finite a', Finite b', Finite c' => Ok (a', b', c')
  | _, _, _ => NonFinite
  end.

Fixpoint rows_values (l : list frow) : outcome (list row) :=
  match l with
  | [] => Ok []
  | r :: l' =>
      r' <- row_value r ;;
      rs <- rows_values l' ;;
      Ok (r' :: rs)
  end.

End Lagrange.
Arguments frow F : clear implicits.

(** ** AdmFromQ *)

(** [np.zeros(n, dtype=complex)]. *)
Definition zeros_c (n : nat) : list C := repeat C0 n.

(** Lines 112-114: the raw transform of the signal.  [store] gives the
    float64 a value of [Time] or [QACF] is held as when [LagrangeInterpol]
    computes with it; the coefficient rows enter [FilonLagrange] as the
    real numbers they stand for. *)
Definition raw_transform {F : Type} {A : Float64 F} (store : R -> F)
    (Time QACF freq : list R) : outcome (list C) :=
  Coeffs <- LagrangeInterpol (zeros_rows (length Time / 2))
              (map store Time) (map store QACF) ;;
  rows <- rows_values Coeffs ;;
  FilonLagrange (zeros_c (length freq)) freq Time rows.

(** [AdmFromQ] reads the module-level [beta]; the global is an argument
    here and the script's value is [beta] below. *)
Section Mapper.
Variable beta : R.

(** Line 117, the right-hand side. *)
Definition adm_value (ff : R) (F : C) (q0 : R) : C :=
  (beta * (RtoC (ff ^ 2) * F + j1 * ff * q0))%C.

(** Lines 116-117: [for i in range(len(freq)): Adm[i] = ...]. *)
Fixpoint adm_loop (freq : list R) (i : nat) (DFT : list C) (QACF : list R)
    (Adm : list C) : outcome (list C) :=
  match freq with
  | [] => Ok Adm
  | ff :: freq' =>
      F <- getitem DFT i ;;
      q0 <- getitem QACF 0 ;;
      Adm' <- setitem Adm i (adm_value ff F q0) ;;
      adm_loop freq' (S i) DFT QACF Adm'
  end.

(** Lines 115-118 on a given transform. *)
Definition adm_of_DFT (DFT : list C) (freq QACF : list R)
    : outcome (list C) :=
  adm_loop freq 0 DFT QACF (zeros_c (length DFT)).

Definition AdmFromQ {F : Type} {A : Float64 F} (store : R -> F)
    (Time QACF freq : list R) : outcome (list C) :=
  DFT <- raw_transform store Time QACF freq ;;
  adm_of_DFT DFT freq QACF.

End Mapper.

(** ** Imp = 1/Adm *)

(** numpy's [1/y] on a complex element: no exception, inf/NaN at zero. *)
Definition recip (y : C) : f64 C :=
  if Req_dec_T (Re y) 0 then
    if Req_dec_T (Im y) 0 then InfNaN else Finite (RtoC 1 * Cinv y)%C
  else Finite (RtoC 1 * Cinv y)%C.

Definition Imp (Adm : list C) : list (f64 C) := map recip Adm.

(** ** Window *)

(** [Window] reads the module-level [ep] and [tau]; they are arguments
    here and the script's values are [ep] and [tau] below. *)
Section WindowFunction.
Variables ep tau : R.

(** Line 159. *)
Definition W (t : R) : R :=
  (exp (-1 * ep * tau) + 1) / (exp (ep * (t - tau)) + 1).

Fixpoint window_loop (ACF time : list R) (i : nat) (ACF_window : list R)
    : outcome (list R) :=
  match time with
  | [] => Ok ACF_window
  | t :: time' =>
      a <- getitem ACF i ;;
      window_loop ACF time' (S i) (ACF_window ++ [a * W t])
  end.

Definition Window (ACF time : list R) : outcome (list R) :=
  window_loop ACF time 0 [].

End WindowFunction.

(** ** The frequency grid (lines 201-203) *)

Definition nfreq : nat := 100.

(** Division of float64 scalars by a numpy float64: inf/NaN at zero. *)
Definition np_div (a b : R) : outcome R :=
  if Req_dec_T b 0 then NonFinite else Ok (a / b).

(** [np.log10]: -inf at zero and NaN below it, without an exception. *)
Definition np_log10 (x : R) : outcome R :=
  if Rlt_dec 0 x then Ok (ln x / ln 10) else NonFinite.

(** [np.linspace(start, stop, num)] with the end point. *)
Definition linspace (start stop : R) (num : nat) : list R :=
  let step := (stop - start) / INR (num - 1) in
  let y := map (fun i => INR i * step + start) (seq 0 num) in
  if Nat.ltb 1 num then upd y (num - 1) stop else y.

(** [np.logspace(start, stop, num)], base 10. *)
Definition logspace (start stop : R) (num : nat) : list R :=
  map (Rpower 10) (linspace start stop num).

(** [l[-1]]. *)
Definition last_item (l : list R) : outcome R :=
  match l with
  | [] => Raise IndexError
  | _ => Ok (last l 0)
  end.

Definition hif (redTime : list R) : outcome R :=
  t1 <- getitem redTime 1 ;; np_div (2 * PI) (t1 * 3).

Definition lof (redTime : list R) : outcome R :=
  tl <- last_item redTime ;; np_div (2 * PI) tl.

Definition freq (redTime : list R) : outcome (list R) :=
  h <- hif redTime ;;
  l <- lof redTime ;;
  ll <- np_log10 l ;;
  lh <- np_log10 h ;;
  Ok (logspace ll lh nfreq).

(** ** The script (lines 166-207)

    Reading the file is not modelled.  [main] follows the script from
    [QACF] and [redTime] on; [WKACF] and the lines before it come after. *)

Definition temperature : R := 298.
Definition timeperstep : R := 1e-15.
Definition k : R := 1.3806485279e-23.
Definition beta : R := 1 / (k * temperature).
Definition ep : R := 18.9e9.
Definition tau : R := 0.5e-9.


Section Script.
Context {F : Type} {A : Float64 F}.
Variable store : R -> F.

(** Lines 194-207: windowed ACF, grid, admittance and impedance. *)
Definition main (QACF redTime : list R)
    : outcome (list R * list R * list C * list (f64 C)) :=
  QACF_window <- Window ep tau QACF redTime ;;
  fs <- freq redTime ;;
  Adm <- AdmFromQ beta store redTime QACF_window fs ;;
  Ok (QACF_window, fs, Adm, Imp Adm).

End Script.

(** ** WKACF (lines 133-138) *)

(** [np.conjugate]. *)
Definition Cconj (z : C) : C := mkC (Re z) (- Im z).

(** [np.sum] of a complex array. *)
Definition Csum (l : list C) : C := fold_right Cadd C0 l.

(** [np.mean] of a non-empty float array. *)
Definition np_mean (x : list R) : R :=
  fold_right Rplus 0 x / INR (length x).

(** The factor [exp(sgn * 2 pi i k n / N)] of a discrete Fourier
    transform of length [N]. *)
Definition twiddle (sgn : R) (N k n : nat) : C :=
  Cexp (mkC 0 (sgn * (2 * PI * INR k * INR n / INR N))).

(** The sums numpy's FFT routines are defined by:
    [out[k] = sum_n a[n] exp(sgn * 2 pi i k n / N)]. *)
Definition dft (sgn : R) (a : list C) : list C :=
  map (fun k =>
         Csum (map (fun n => (nth n a C0 * twiddle sgn (length a) k n)%C)
                   (seq 0 (length a))))
      (seq 0 (length a)).

(** [np.fft.fftn] and [np.fft.ifftn] on a one-dimensional array. *)
Definition fftn (a : list C) : list C := dft (-1) a.
Definition ifftn (a : list C) : list C :=
  map (Cmul (RtoC (1 / INR (length a)))) (dft 1 a).

(** [WKACF(x, time)].  numpy refuses a transform of zero points with
    ValueError. *)
Definition WKACF (x time : list R) : outcome (list R * list R) :=
  match x with
  | [] => Raise ValueError
  | _ =>
      let Ctt := fftn (map (fun v => RtoC (v - np_mean x)) x) in
      let CC := map (fun z => (z * Cconj z)%C) Ctt in
      let CC' := ifftn CC in
      let ACF :=
        map (fun z => Re z / INR (length CC'))
            (firstn (length CC' / 2) CC') in
      Ok (ACF, firstn (length time / 2) time)
  end.

(** ** The script from the charge column on (lines 186-207) *)

Definition e : R := 1.602176620898e-19.

(** [Charges], [Time], then [WKACF] and the rest of the script; the
    argument is the column [Data[:,1]]. *)
Definition script {F : Type} {A : Float64 F} (store : R -> F)
    (charges : list R)
    : outcome (list R * list R * list C * list (f64 C)) :=
  let Charges := map (fun q => q * e) charges in
  let Time :=
    map (fun i => INR i * timeperstep) (seq 0 (length charges)) in
  p <- WKACF Charges Time ;;
  main store (fst p) (snd p).

(** * Vocabulary of the statements

    Nothing below is code of the script.  These definitions name what the
    statements speak about: the sum [FilonLagrange] accumulates, the
    integrand and its primitive, the interpolating parabola, and a view of
    the loop of [LagrangeInterpol] segment by segment ([seg_coef],
    [seg_row], [rows_loop]) that is proved equal to the loop itself in
    [interpol_step] and [LagrangeInterpol_rows]. *)

(** A sequence whose values grow with the index. *)
Definition strictly_increasing (l : list R) : Prop :=
  forall i j, (i < j < length l)%nat -> nth i l 0 < nth j l 0.

(** Number of passes of [range(0, len(Time)-2, 2)]. *)
Definition nseg {B : Type} (Time : list B) : nat :=
  ((length Time - 1) / 2)%nat.

(** The summand for segment bounds [Time[it]], [Time[it+2]] and row [ip]. *)
Definition seg_term (ff : R) (Time : list R) (coeffs : list row)
    (it ip : nat) : C :=
  let '(a, b, c) := nth ip coeffs (0, 0, 0) in
  filon_term ff (nth it Time 0) (nth (it + 2) Time 0) a b c.

(** The sum the code builds, in its order: [((d + s0) + s1) + ...]. *)
Definition Csum_from (d : C) (l : list C) : C := fold_left Cadd l d.

(** [F(w) = sum_i term_i], with (t1_i, t2_i) = (Time[2i], Time[2i+2]). *)
Definition filon_sum (ff : R) (Time : list R) (coeffs : list row) : C :=
  Csum_from C0
    (map (fun i => seg_term ff Time coeffs (2 * i) i) (seq 0 (nseg Time))).

(** The integrand [p(t) * exp(-i w t)], [p(t) = a t^2 + b t + c]. *)
Definition integrand (w a b c t : R) : C :=
  (RtoC (a * t ^ 2 + b * t + c) * Cexp (- j1 * w * t))%C.

(** The first bracket of the summand at a running bound [t]. *)
Definition FL_primitive (w a b c t : R) : C :=
  (RtoC (1 / w ^ 3) *
   (Cexp (- j1 * w * t) *
      (a * (w * t * (RtoC 2 + j1 * w * t) - RtoC 2 * j1)
       + w * (j1 * b * w * t + b + j1 * c * w))))%C.

(** Real and imaginary part of the integrand and of the primitive. *)
Definition integrand_re (w a b c t : R) : R := Re (integrand w a b c t).
Definition integrand_im (w a b c t : R) : R := Im (integrand w a b c t).
Definition primitive_re (w a b c t : R) : R := Re (FL_primitive w a b c t).
Definition primitive_im (w a b c t : R) : R := Im (FL_primitive w a b c t).

(** The coefficients of the interpolating parabola, highest power first. *)
Definition La (x0 x1 x2 y0 y1 y2 : R) : R :=
  y0 / ((x0 - x1) * (x0 - x2)) + y1 / ((x1 - x0) * (x1 - x2))
  + y2 / ((x2 - x0) * (x2 - x1)).
Definition Lb (x0 x1 x2 y0 y1 y2 : R) : R :=
  - (y0 * (x1 + x2) / ((x0 - x1) * (x0 - x2))
     + y1 * (x0 + x2) / ((x1 - x0) * (x1 - x2))
     + y2 * (x0 + x1) / ((x2 - x0) * (x2 - x1))).
Definition Lc (x0 x1 x2 y0 y1 y2 : R) : R :=
  y0 * x1 * x2 / ((x0 - x1) * (x0 - x2))
  + y1 * x0 * x2 / ((x1 - x0) * (x1 - x2))
  + y2 * x0 * x1 / ((x2 - x0) * (x2 - x1)).

Section SegmentView.
Context {F : Type} {A : Float64 F}.

(** [p.coef] for segment [q]: [lagrange] on the nodes [Time[2q]],
    [Time[2q+1]], [Time[2q+2]] and the samples at them. *)
Definition seg_coef (Time Signal : list F) (q : nat) : outcome (list F) :=
  lagrange
    [nth (2 * q) Time f_zero; nth (2 * q + 1) Time f_zero;
     nth (2 * q + 2) Time f_zero]
    [nth (2 * q) Signal f_zero; nth (2 * q + 1) Signal f_zero;
     nth (2 * q + 2) Signal f_zero].

(** What the store [coeffs[ipp, :] = p.coef] puts in the row. *)
Definition row_of_coef (coef : list F) : outcome (frow F) :=
  match coef with
  | [v] => Ok (v, v, v)
  | [a; b; c] => Ok (a, b, c)
  | _ => Raise ValueError
  end.

(** The row of segment [q]. *)
Definition seg_row (Time Signal : list F) (q : nat) : outcome (frow F) :=
  coef <- seg_coef Time Signal q ;; row_of_coef coef.

(** The loop of [LagrangeInterpol] over segment numbers. *)
Fixpoint rows_loop (Time Signal : list F) (qs : list nat) (ipp : nat)
    (coeffs : list (frow F)) : outcome (list (frow F)) :=
  match qs with
  | [] => Ok coeffs
  | q :: qs' =>
      r <- seg_row Time Signal q ;;
      rows_loop Time Signal qs' (S ipp) (upd coeffs ipp r)
  end.

(** The value is inf or NaN. *)
Definition nonfinite (v : F) : Prop := f_value v = InfNaN.

End SegmentView.

(** What IEEE arithmetic guarantees and the statements use: 0.0 stands for
    zero and 1.0 is not zero; inf and NaN are not zero and stay inf or NaN
    under [+] and [*]; a division by [x - x] gives inf or NaN. *)
Class Float64Laws (F : Type) {A : Float64 F} : Prop := {
  f_value_zero : f_value f_zero = Finite 0;
  f_one_not_zero : f_is_zero f_one = false;
  nonfinite_not_zero :
    forall x, f_value x = InfNaN -> f_is_zero x = false;
  nonfinite_add_l :
    forall x y, f_value x = InfNaN -> f_value (f_add x y) = InfNaN;
  nonfinite_add_r :
    forall x y, f_value y = InfNaN -> f_value (f_add x y) = InfNaN;
  nonfinite_mul_l :
    forall x y, f_value x = InfNaN -> f_value (f_mul x y) = InfNaN;
  nonfinite_mul_r :
    forall x y, f_value y = InfNaN -> f_value (f_mul x y) = InfNaN;
  nonfinite_div_self :
    forall v x, f_value (f_div v (f_sub x x)) = InfNaN
}.

(** The last two coefficients are inf or NaN, in an array of two or three
    coefficients. *)
Definition ends_nonfinite {F : Type} {A : Float64 F} (l : list F) : Prop :=
  (exists u v, l = [u; v] /\ nonfinite u /\ nonfinite v) \/
  (exists t u v, l = [t; u; v] /\ nonfinite u /\ nonfinite v).

(** Two of the three nodes of segment [q] coincide. *)
Definition degenerate_segment {F : Type} (Time : list F) (d : F) (q : nat)
    : Prop :=
  nth (2 * q) Time d = nth (2 * q + 1) Time d \/
  nth (2 * q) Time d = nth (2 * q + 2) Time d \/
  nth (2 * q + 1) Time d = nth (2 * q + 2) Time d.

(** The value is a real number. *)
Definition is_finite {B : Type} (v : f64 B) : Prop := exists b, v = Finite b.

(** A row of real numbers as a row of the exact arithmetic. *)
Definition exact_row (r : row) : frow (f64 R) :=
  let '(a, b, c) := r in (Finite a, Finite b, Finite c).

(** [p(x) = y] for the quadratic with coefficient row [r]. *)
Definition passes_through (r : row) (x y : R) : Prop :=
  let '(a, b, c) := r in a * x ^ 2 + b * x + c = y.


(** Sums over the indices [0 .. N-1]. *)
Definition Csum_n (N : nat) (f : nat -> C) : C := Csum (map f (seq 0 N)).
Definition Rsum_n (N : nat) (f : nat -> R) : R :=
  fold_right Rplus 0 (map f (seq 0 N)).

(** [x[n] - mean(x)]. *)
Definition deviation (x : list R) (n : nat) : R := nth n x 0 - np_mean x.

(** The circular autocovariance of [x] at lag [m]:
    [(1/N) sum_n (x[n] - mean) (x[(n+m) mod N] - mean)]. *)
Definition circular_autocovariance (x : list R) (m : nat) : R :=
  Rsum_n (length x)
    (fun n => deviation x n * deviation x ((n + m) mod length x))
  / INR (length x).

(** The script's time axis [np.arange(0, N, 1) * timeperstep]. *)
Definition time_axis (N : nat) : list R :=
  map (fun i => INR i * timeperstep) (seq 0 N).

(** * Tactics *)

(** Derivative rules applied along the shape of the function. *)
Ltac dlim :=
  lazymatch goal with
  | |- derivable_pt_lim (fun _ => ?c) _ _ =>
      apply (derivable_pt_lim_const c)
  | |- derivable_pt_lim (fun t => t) _ _ => apply derivable_pt_lim_id
  | |- derivable_pt_lim (fun t => @?f t + @?g t) _ _ =>
      apply (derivable_pt_lim_plus f g); dlim
  | |- derivable_pt_lim (fun t => @?f t - @?g t) _ _ =>
      apply (derivable_pt_lim_minus f g); dlim
  | |- derivable_pt_lim (fun t => @?f t * @?g t) _ _ =>
      apply (derivable_pt_lim_mult f g); dlim
  | |- derivable_pt_lim (fun t => - @?f t) _ _ =>
      apply (derivable_pt_lim_opp f); dlim
  | |- derivable_pt_lim (fun t => t ^ ?n) _ _ =>
      apply (derivable_pt_lim_pow _ n)
  | |- derivable_pt_lim (fun t => cos (@?f t)) ?x _ =>
      apply (derivable_pt_lim_comp f cos);
      [dlim | apply derivable_pt_lim_cos]
  | |- derivable_pt_lim (fun t => sin (@?f t)) ?x _ =>
      apply (derivable_pt_lim_comp f sin);
      [dlim | apply derivable_pt_lim_sin]
  end.

(** * Properties *)

(** ** Lists and outcomes *)

Lemma C_eq (z w : C) : Re z = Re w -> Im z = Im w -> z = w.
Proof. destruct z, w; simpl; intros -> ->; reflexivity. Qed.

Lemma bind_assoc {A B D} (m : outcome A) (f : A -> outcome B)
    (g : B -> outcome D) :
  bind (bind m f) g = bind m (fun x => bind (f x) g).
Proof. destruct m; reflexivity. Qed.

Section ListFacts.
Context {A : Type}.

Lemma length_upd (l : list A) i v : length (upd l i v) = length l.
Proof.
  revert i; induction l as [|h t IH]; intros [|i]; simpl; auto.
Qed.

Lemma nth_error_upd_eq (l : list A) i v :
  (i < length l)%nat -> nth_error (upd l i v) i = Some v.
Proof.
  revert i; induction l as [|h t IH]; intros [|i] H; simpl in *;
    try lia; auto.
  apply IH; lia.
Qed.

Lemma nth_error_upd_neq (l : list A) i k v :
  i <> k -> nth_error (upd l i v) k = nth_error l k.
Proof.
  revert i k; induction l as [|h t IH]; intros [|i] [|k] H; simpl;
    auto; try congruence.
Qed.

Lemma upd_upd (l : list A) i v v' : upd (upd l i v) i v' = upd l i v'.
Proof.
  revert i; induction l as [|h t IH]; intros [|i]; simpl; auto.
  now rewrite IH.
Qed.

Lemma getitem_Ok (l : list A) i a :
  nth_error l i = Some a -> getitem l i = Ok a.
Proof. unfold getitem; now intros ->. Qed.

Lemma getitem_nth (l : list A) i d :
  (i < length l)%nat -> getitem l i = Ok (nth i l d).
Proof.
  intros H; apply getitem_Ok, nth_error_nth'; exact H.
Qed.

Lemma getitem_out (l : list A) i :
  (length l <= i)%nat -> getitem l i = Raise IndexError.
Proof.
  intros H; unfold getitem.
  now rewrite (proj2 (nth_error_None l i) H).
Qed.

Lemma setitem_Ok (l : list A) i v :
  (i < length l)%nat -> setitem l i v = Ok (upd l i v).
Proof.
  intros H; unfold setitem.
  now rewrite (proj2 (Nat.ltb_lt _ _) H).
Qed.

End ListFacts.

Lemma range2_length start stop :
  length (range2 start stop) = ((stop - start + 1) / 2)%nat.
Proof. unfold range2; now rewrite length_map, length_seq. Qed.

Lemma range2_bound start stop it :
  In it (range2 start stop) -> (start <= it /\ it < stop)%nat.
Proof.
  unfold range2; rewrite in_map_iff.
  intros (q & <- & Hq); apply in_seq in Hq.
  assert (H : (2 * ((stop - start + 1) / 2) <= stop - start + 1)%nat)
    by (apply Nat.Div0.mul_div_le).
  lia.
Qed.

(** ** FilonLagrange: what is accumulated *)

Lemma nseg_range {B} (Time : list B) :
  ((length Time - 2 - 0 + 1) / 2 = nseg Time)%nat.
Proof.
  unfold nseg.
  destruct (length Time) as [|[|n]]; try reflexivity.
  replace (S (S n) - 2 - 0 + 1)%nat with (S (S n) - 1)%nat by lia.
  reflexivity.
Qed.

Lemma range2_0 stop :
  range2 0 stop = map (fun i => (2 * i)%nat) (seq 0 ((stop - 0 + 1) / 2)).
Proof. reflexivity. Qed.

Lemma filon_inner_Ok ff ifreq Time coeffs :
  ff ^ 3 <> 0 ->
  forall qs ip DFT d,
    nth_error DFT ifreq = Some d ->
    (forall q, In q qs -> (2 * q + 2 < length Time)%nat) ->
    (ip + length qs <= length coeffs)%nat ->
    filon_inner ff ifreq Time coeffs (map (fun i => (2 * i)%nat) qs) ip DFT
    = Ok (upd DFT ifreq
            (Csum_from d
               (map (fun p => seg_term ff Time coeffs (2 * fst p) (snd p))
                    (combine qs (seq ip (length qs)))))).
Proof.
  intros Hff qs; induction qs as [|q qs IH]; intros ip DFT d Hd Hin Hlen.
  - simpl. f_equal. clear -Hd. revert ifreq Hd.
    induction DFT as [|h t IH]; intros [|i] H; simpl in *; try discriminate.
    + now inversion H.
    + f_equal; now apply IH.
  - cbn [length] in Hlen. cbn [map filon_inner]. unfold filon_body.
    assert (Hq : (2 * q + 2 < length Time)%nat) by (apply Hin; now left).
    rewrite (getitem_nth Time (2 * q) 0) by lia.
    rewrite (getitem_nth Time (2 * q + 2) 0) by lia.
    rewrite (getitem_nth coeffs ip (0, 0, 0)) by lia.
    cbn [bind].
    destruct (nth ip coeffs (0, 0, 0)) as [[a b] c] eqn:Er.
    rewrite (getitem_Ok _ _ _ Hd). cbn [bind].
    destruct (Req_dec_T (ff ^ 3) 0) as [E|_]; [contradiction|].
    assert (Hi : (ifreq < length DFT)%nat).
    { apply nth_error_Some; congruence. }
    rewrite setitem_Ok by exact Hi. cbn [bind].
    rewrite (IH (S ip) _ (d + filon_term ff (nth (2 * q) Time 0)
                               (nth (2 * q + 2) Time 0) a b c)%C).
    + rewrite upd_upd. do 2 f_equal.
      cbn [length seq combine map fst snd].
      unfold Csum_from; cbn [fold_left].
      unfold seg_term at 3. rewrite Er. reflexivity.
    + now apply nth_error_upd_eq.
    + intros q' Hq'; apply Hin; now right.
    + lia.
Qed.

Lemma map_combine_seq {B} (g : nat * nat -> B) a n :
  map g (combine (seq a n) (seq a n)) = map (fun i => g (i, i)) (seq a n).
Proof.
  revert a; induction n as [|n IH]; intros a; simpl; [reflexivity|].
  now rewrite IH.
Qed.

Lemma nseg_bound {B} (Time : list B) q :
  (q < nseg Time)%nat -> (2 * q + 2 < length Time)%nat.
Proof.
  unfold nseg; intros H.
  assert (H2 : (2 * ((length Time - 1) / 2) <= length Time - 1)%nat)
    by apply Nat.Div0.mul_div_le.
  lia.
Qed.

(** One frequency: the whole inner loop adds [filon_sum] to the slot. *)
Lemma filon_inner_all ff ifreq Time coeffs DFT d :
  ff ^ 3 <> 0 ->
  nth_error DFT ifreq = Some d ->
  (nseg Time <= length coeffs)%nat ->
  filon_inner ff ifreq Time coeffs (range2 0 (length Time - 2)) 0 DFT
  = Ok (upd DFT ifreq
          (Csum_from d
             (map (fun i => seg_term ff Time coeffs (2 * i) i)
                  (seq 0 (nseg Time))))).
Proof.
  intros Hff Hd Hrows.
  rewrite range2_0, nseg_range.
  rewrite (filon_inner_Ok ff ifreq Time coeffs Hff _ 0%nat DFT d Hd).
  - rewrite length_seq, map_combine_seq. reflexivity.
  - intros q Hq; apply in_seq in Hq; apply nseg_bound; lia.
  - rewrite length_seq; lia.
Qed.

Lemma filon_outer_Ok Time coeffs :
  (nseg Time <= length coeffs)%nat ->
  forall freq ifreq DFT,
    (forall w, In w freq -> w ^ 3 <> 0) ->
    (ifreq + length freq <= length DFT)%nat ->
    exists F,
      filon_outer freq ifreq Time coeffs DFT = Ok F /\
      length F = length DFT /\
      (forall k, (k < ifreq)%nat -> nth_error F k = nth_error DFT k) /\
      (forall k w, nth_error freq k = Some w ->
         nth_error F (ifreq + k)
         = Some (Csum_from (nth (ifreq + k) DFT C0)
                   (map (fun i => seg_term w Time coeffs (2 * i) i)
                        (seq 0 (nseg Time))))).
Proof.
  intros Hrows freq; induction freq as [|ff freq IH];
    intros ifreq DFT Hnz Hlen.
  - exists DFT; repeat split; auto.
    intros [|k] w H; discriminate.
  - cbn [length] in Hlen. cbn [filon_outer].
    assert (Hd : nth_error DFT ifreq = Some (nth ifreq DFT C0))
      by (apply nth_error_nth'; lia).
    rewrite (filon_inner_all ff ifreq Time coeffs DFT _
               (Hnz ff (or_introl eq_refl)) Hd Hrows).
    cbn [bind].
    set (DFT' := upd DFT ifreq _).
    destruct (IH (S ifreq) DFT') as (F & HF & HlenF & Hlow & Hval).
    + intros w Hw; apply Hnz; now right.
    + unfold DFT'; rewrite length_upd; lia.
    + exists F; split; [exact HF|]. split.
      { rewrite HlenF; apply length_upd. }
      split.
      * intros k Hk. rewrite Hlow by lia.
        apply nth_error_upd_neq; lia.
      * intros [|k] w Hw.
        -- cbn in Hw; inversion Hw; subst w.
           rewrite Nat.add_0_r, Hlow by lia.
           unfold DFT'; rewrite nth_error_upd_eq by lia. reflexivity.
        -- cbn in Hw.
           replace (ifreq + S k)%nat with (S ifreq + k)%nat by lia.
           rewrite (Hval k w Hw). do 2 f_equal.
           unfold DFT'.
           apply nth_error_nth.
           rewrite nth_error_upd_neq by lia.
           apply nth_error_nth'.
           apply nth_error_Some. apply nth_error_Some.
           assert (Hk : (k < length freq)%nat).
           { apply nth_error_Some; congruence. }
           lia.
Qed.

Lemma nth_zeros_c n k : nth k (zeros_c n) C0 = C0.
Proof.
  unfold zeros_c; revert k; induction n as [|n IH]; intros [|k]; simpl; auto.
Qed.

Lemma length_zeros_c n : length (zeros_c n) = n.
Proof. apply repeat_length. Qed.

Lemma pow3_nonzero w : w <> 0 -> w ^ 3 <> 0.
Proof. intros H; apply pow_nonzero; exact H. Qed.

(** [FilonLagrange] on a zeroed buffer: slot [k] holds [filon_sum]. *)
Lemma FilonLagrange_sum freq Time coeffs :
  (forall w, In w freq -> w <> 0) ->
  (nseg Time <= length coeffs)%nat ->
  exists F,
    FilonLagrange (zeros_c (length freq)) freq Time coeffs = Ok F /\
    length F = length freq /\
    forall k w, nth_error freq k = Some w ->
      nth_error F k = Some (filon_sum w Time coeffs).
Proof.
  intros Hnz Hrows. unfold FilonLagrange.
  destruct (filon_outer_Ok Time coeffs Hrows freq 0%nat
              (zeros_c (length freq)))
    as (F & HF & HlenF & _ & Hval).
  - intros w Hw; apply pow3_nonzero, Hnz, Hw.
  - rewrite length_zeros_c; lia.
  - exists F; split; [exact HF|]. split.
    + now rewrite HlenF, length_zeros_c.
    + intros k w Hw. specialize (Hval k w Hw). cbn in Hval.
      rewrite Hval, nth_zeros_c. reflexivity.
Qed.

(** ** The summand as an integral *)

Lemma Cexp_mj (w t : R) :
  Cexp (- j1 * w * t)%C = mkC (cos (w * t)) (- sin (w * t)).
Proof.
  unfold Cexp; simpl.
  replace ((- 0 * w - - (1) * 0) * t - (- 0 * 0 + - (1) * w) * 0)
    with 0 by ring.
  replace ((- 0 * w - - (1) * 0) * 0 + (- 0 * 0 + - (1) * w) * t)
    with (- (w * t)) by ring.
  rewrite exp_0, cos_neg, sin_neg.
  f_equal; ring.
Qed.

Lemma filon_term_primitive w t1 t2 a b c :
  filon_term w t1 t2 a b c
  = (FL_primitive w a b c t2 - FL_primitive w a b c t1)%C.
Proof.
  unfold filon_term, FL_primitive.
  rewrite !Cexp_mj. apply C_eq; simpl; ring.
Qed.

Lemma derivable_pt_lim_eq f x l l' :
  derivable_pt_lim f x l -> l = l' -> derivable_pt_lim f x l'.
Proof. now intros H <-. Qed.

Section Integral.
Variables w a b c : R.
Hypothesis w_nonzero : w <> 0.

Lemma primitive_re_eq t :
  (cos (w * t) * (w * (2 * a * t + b))
   + sin (w * t) * (w ^ 2 * (a * t ^ 2 + b * t + c) - 2 * a)) * / w ^ 3
  = primitive_re w a b c t.
Proof.
  unfold primitive_re, FL_primitive. rewrite Cexp_mj. simpl.
  field. exact w_nonzero.
Qed.

Lemma primitive_im_eq t :
  (cos (w * t) * (w ^ 2 * (a * t ^ 2 + b * t + c) - 2 * a)
   - sin (w * t) * (w * (2 * a * t + b))) * / w ^ 3
  = primitive_im w a b c t.
Proof.
  unfold primitive_im, FL_primitive. rewrite Cexp_mj. simpl.
  field. exact w_nonzero.
Qed.

Lemma integrand_re_eq t :
  integrand_re w a b c t = (a * t ^ 2 + b * t + c) * cos (w * t).
Proof. unfold integrand_re, integrand. rewrite Cexp_mj. simpl. ring. Qed.

Lemma integrand_im_eq t :
  integrand_im w a b c t = - ((a * t ^ 2 + b * t + c) * sin (w * t)).
Proof. unfold integrand_im, integrand. rewrite Cexp_mj. simpl. ring. Qed.

(** The primitive differentiates to the integrand, at every [t]. *)
Lemma primitive_re_derive t :
  derivable_pt_lim (primitive_re w a b c) t (integrand_re w a b c t).
Proof.
  eapply derivable_pt_lim_ext; [apply primitive_re_eq|].
  eapply derivable_pt_lim_eq; [dlim|].
  rewrite integrand_re_eq. simpl. field. exact w_nonzero.
Qed.

Lemma primitive_im_derive t :
  derivable_pt_lim (primitive_im w a b c) t (integrand_im w a b c t).
Proof.
  eapply derivable_pt_lim_ext; [apply primitive_im_eq|].
  eapply derivable_pt_lim_eq; [dlim|].
  rewrite integrand_im_eq. simpl. field. exact w_nonzero.
Qed.

Lemma integrand_re_continuity : continuity (integrand_re w a b c).
Proof.
  intros x. apply derivable_continuous_pt.
  eexists.
  apply (derivable_pt_lim_ext
           (fun t => (a * t ^ 2 + b * t + c) * cos (w * t))).
  - intros t; symmetry; apply integrand_re_eq.
  - dlim.
Qed.

Lemma integrand_im_continuity : continuity (integrand_im w a b c).
Proof.
  intros x. apply derivable_continuous_pt.
  eexists.
  apply (derivable_pt_lim_ext
           (fun t => - ((a * t ^ 2 + b * t + c) * sin (w * t)))).
  - intros t; symmetry; apply integrand_im_eq.
  - dlim.
Qed.

Lemma primitive_re_derivable : derivable (primitive_re w a b c).
Proof.
  intros t. exists (integrand_re w a b c t). apply primitive_re_derive.
Defined.

Lemma primitive_im_derivable : derivable (primitive_im w a b c).
Proof.
  intros t. exists (integrand_im w a b c t). apply primitive_im_derive.
Defined.

Lemma primitive_re_C1 :
  continuity (derive (primitive_re w a b c) primitive_re_derivable).
Proof.
  intros x.
  apply (continuity_pt_locally_ext (integrand_re w a b c) _ 1 x);
    [lra | | apply integrand_re_continuity].
  intros y _. reflexivity.
Qed.

Lemma primitive_im_C1 :
  continuity (derive (primitive_im w a b c) primitive_im_derivable).
Proof.
  intros x.
  apply (continuity_pt_locally_ext (integrand_im w a b c) _ 1 x);
    [lra | | apply integrand_im_continuity].
  intros y _. reflexivity.
Qed.

(** The integrand is Riemann integrable over any pair of bounds. *)
Lemma integrand_re_integrable (t1 t2 : R) :
  Riemann_integrable (integrand_re w a b c) t1 t2.
Proof.
  exact (RiemannInt_P32
           (@mkC1 (primitive_re w a b c) primitive_re_derivable
              primitive_re_C1) t1 t2).
Defined.

Lemma integrand_im_integrable (t1 t2 : R) :
  Riemann_integrable (integrand_im w a b c) t1 t2.
Proof.
  exact (RiemannInt_P32
           (@mkC1 (primitive_im w a b c) primitive_im_derivable
              primitive_im_C1) t1 t2).
Defined.

Lemma RiemannInt_integrand_re t1 t2
    (pr : Riemann_integrable (integrand_re w a b c) t1 t2) :
  RiemannInt pr = primitive_re w a b c t2 - primitive_re w a b c t1.
Proof.
  rewrite (RiemannInt_P5 pr (integrand_re_integrable t1 t2)).
  apply (FTC_Riemann
           (@mkC1 (primitive_re w a b c) primitive_re_derivable
              primitive_re_C1)).
Qed.

Lemma RiemannInt_integrand_im t1 t2
    (pr : Riemann_integrable (integrand_im w a b c) t1 t2) :
  RiemannInt pr = primitive_im w a b c t2 - primitive_im w a b c t1.
Proof.
  rewrite (RiemannInt_P5 pr (integrand_im_integrable t1 t2)).
  apply (FTC_Riemann
           (@mkC1 (primitive_im w a b c) primitive_im_derivable
              primitive_im_C1)).
Qed.

(** The summand is the integral of [p(t) exp(-i w t)] over [t1, t2]. *)
Lemma filon_term_integral t1 t2
    (pr_re : Riemann_integrable (integrand_re w a b c) t1 t2)
    (pr_im : Riemann_integrable (integrand_im w a b c) t1 t2) :
  filon_term w t1 t2 a b c = mkC (RiemannInt pr_re) (RiemannInt pr_im).
Proof.
  rewrite filon_term_primitive, RiemannInt_integrand_re,
    RiemannInt_integrand_im.
  reflexivity.
Qed.

End Integral.

(** ** The admittance loop and the impedance *)

Lemma adm_loop_Ok beta DFT QACF q0 :
  nth_error QACF 0 = Some q0 ->
  forall freq i Adm,
    (i + length freq <= length DFT)%nat ->
    (i + length freq <= length Adm)%nat ->
    exists Adm',
      adm_loop beta freq i DFT QACF Adm = Ok Adm' /\
      length Adm' = length Adm /\
      (forall k, (k < i)%nat -> nth_error Adm' k = nth_error Adm k) /\
      (forall k w, nth_error freq k = Some w ->
         nth_error Adm' (i + k)
         = Some (adm_value beta w (nth (i + k) DFT C0) q0)).
Proof.
  intros Hq freq; induction freq as [|ff freq IH]; intros i Adm HD HA.
  - exists Adm; repeat split; auto. intros [|k] w H; discriminate.
  - cbn [length] in HD, HA. cbn [adm_loop].
    rewrite (getitem_nth DFT i C0) by lia.
    rewrite (getitem_Ok _ _ _ Hq). cbn [bind].
    rewrite setitem_Ok by lia. cbn [bind].
    set (Adm1 := upd Adm i _).
    destruct (IH (S i) Adm1) as (Adm' & HA' & Hlen & Hlow & Hval).
    + lia.
    + unfold Adm1; rewrite length_upd; lia.
    + exists Adm'; split; [exact HA'|]. split.
      { rewrite Hlen; apply length_upd. }
      split.
      * intros k Hk. rewrite Hlow by lia. apply nth_error_upd_neq; lia.
      * intros [|k] w Hw.
        -- cbn in Hw; inversion Hw; subst w.
           rewrite Nat.add_0_r, Hlow by lia.
           unfold Adm1; now rewrite nth_error_upd_eq by lia.
        -- cbn in Hw.
           replace (i + S k)%nat with (S i + k)%nat by lia.
           apply (Hval k w Hw).
Qed.

Lemma Cinv_r (y : C) : y <> C0 -> (y * Cinv y)%C = RtoC 1.
Proof.
  intros Hy. destruct y as [u v].
  assert (Hn : u * u + v * v <> 0).
  { intros H. apply Hy.
    assert (u = 0) by nra. assert (v = 0) by nra. subst; reflexivity. }
  apply C_eq; simpl; field; exact Hn.
Qed.

Lemma recip_nonzero (y : C) :
  y <> C0 -> recip y = Finite (RtoC 1 * Cinv y)%C.
Proof.
  intros Hy; unfold recip.
  destruct (Req_dec_T (Re y) 0) as [E1|_]; [|reflexivity].
  destruct (Req_dec_T (Im y) 0) as [E2|_]; [|reflexivity].
  elim Hy. apply C_eq; assumption.
Qed.

Lemma recip_zero : recip C0 = InfNaN.
Proof.
  unfold recip; simpl.
  destruct (Req_dec_T 0 0) as [_|N]; [reflexivity|now elim N].
Qed.

(** * The claims *)

(** C1.  On a grid of strictly positive frequencies and a coefficient
    array with a row for every segment, [FilonLagrange], started on a
    zeroed buffer as [AdmFromQ] does, returns at index [k] the sum over
    the segments [i] of the closed-form summand with bounds
    (Time[2i], Time[2i+2]) and row (a_i, b_i, c_i); and each summand is the
    Riemann integral of p_i(t) exp(-i w t) over its segment, real and
    imaginary part. *)
Theorem FilonLagrange_closed_form (freq Time : list R) (coeffs : list row) :
  (forall w, In w freq -> 0 < w) ->
  (nseg Time <= length coeffs)%nat ->
  exists F,
    FilonLagrange (zeros_c (length freq)) freq Time coeffs = Ok F /\
    length F = length freq /\
    forall k w, nth_error freq k = Some w ->
      nth_error F k
      = Some (Csum_from C0
                (map (fun i =>
                        let '(a, b, c) := nth i coeffs (0, 0, 0) in
                        filon_term w (nth (2 * i) Time 0)
                          (nth (2 * i + 2) Time 0) a b c)
                     (seq 0 (nseg Time)))) /\
      forall t1 t2 a b c
        (pr_re : Riemann_integrable (integrand_re w a b c) t1 t2)
        (pr_im : Riemann_integrable (integrand_im w a b c) t1 t2),
        filon_term w t1 t2 a b c
        = mkC (RiemannInt pr_re) (RiemannInt pr_im).
Proof.
  intros Hpos Hrows.
  destruct (FilonLagrange_sum freq Time coeffs) as (F & HF & Hlen & Hval).
  - intros w Hw; specialize (Hpos w Hw); lra.
  - exact Hrows.
  - exists F; split; [exact HF|]; split; [exact Hlen|].
    intros k w Hk; split.
    + rewrite (Hval k w Hk). reflexivity.
    + intros. apply filon_term_integral.
      apply nth_error_In in Hk. specialize (Hpos w Hk). lra.
Qed.

Lemma FilonLagrange_closed_form_witness :
  exists F,
    FilonLagrange (zeros_c 1) [1] [0; 1; 2] [(1, 0, 0)] = Ok F /\
    length F = 1%nat.
Proof.
  destruct (FilonLagrange_closed_form [1] [0; 1; 2] [(1, 0, 0)])
    as (F & HF & Hlen & _).
  - intros w [<-|[]]; lra.
  - vm_compute; lia.
  - exists F; split; assumption.
Defined.

(** C2.  For every transform [F] aligned with the grid and every zero-lag
    value QACF[0], the mapper returns
    Y(w_k) = beta (w_k^2 F(w_k) + i w_k QACF[0]) at every index [k]; this
    is what [AdmFromQ] returns when [F] is its raw transform; and the
    impedance at [k] is 1/Y(w_k), the inverse of Y(w_k) where it is not
    zero. *)
Theorem AdmFromQ_admittance (beta : R) (F : list C) (freq QACF : list R)
    (q0 : R) :
  length F = length freq ->
  nth_error QACF 0 = Some q0 ->
  exists Adm,
    adm_of_DFT beta F freq QACF = Ok Adm /\
    (forall (Fl : Type) (A : Float64 Fl) (store : R -> Fl) Time,
       raw_transform store Time QACF freq = Ok F ->
       AdmFromQ beta store Time QACF freq = Ok Adm) /\
    length Adm = length freq /\
    forall k w Fk, nth_error freq k = Some w -> nth_error F k = Some Fk ->
      let Y := (beta * (RtoC (w ^ 2) * Fk + j1 * w * q0))%C in
      nth_error Adm k = Some Y /\
      nth_error (Imp Adm) k = Some (recip Y) /\
      (Y <> C0 ->
       recip Y = Finite (RtoC 1 * Cinv Y)%C /\ (Y * Cinv Y)%C = RtoC 1).
Proof.
  intros Hlen Hq. unfold adm_of_DFT.
  destruct (adm_loop_Ok beta F QACF q0 Hq freq 0%nat (zeros_c (length F)))
    as (Adm & HA & HlenA & _ & Hval).
  - lia.
  - rewrite length_zeros_c; lia.
  - exists Adm; split; [exact HA|]. split.
    { intros Fl A store Time HT. unfold AdmFromQ. rewrite HT. exact HA. }
    split.
    { now rewrite HlenA, length_zeros_c. }
    intros k w Fk Hk HFk. cbv zeta.
    set (Y := (RtoC beta * _)%C).
    assert (HY : nth_error Adm k = Some Y).
    { specialize (Hval k w Hk). cbn in Hval. rewrite Hval.
      rewrite (nth_error_nth _ _ _ HFk). reflexivity. }
    split; [exact HY|]. split.
    + unfold Imp. rewrite nth_error_map, HY. reflexivity.
    + intros HY0; split; [now apply recip_nonzero | now apply Cinv_r].
Qed.

Lemma AdmFromQ_admittance_witness :
  exists Adm,
    adm_of_DFT beta [RtoC 1] [2] [3] = Ok Adm /\ length Adm = 1%nat.
Proof.
  destruct (AdmFromQ_admittance beta [RtoC 1] [2] [3] 3 eq_refl eq_refl)
    as (Adm & HA & _ & Hlen & _).
  exists Adm; split; assumption.
Defined.

(** ** Window *)

Lemma window_loop_Ok ep tau ACF :
  forall time i acc,
    (i + length time <= length ACF)%nat ->
    window_loop ep tau ACF time i acc
    = Ok (acc ++ map (fun p => nth (fst p) ACF 0 * W ep tau (snd p))
                     (combine (seq i (length time)) time)).
Proof.
  induction time as [|t time IH]; intros i acc H.
  - cbn. now rewrite app_nil_r.
  - cbn [length] in H. cbn [window_loop].
    rewrite (getitem_nth ACF i 0) by lia. cbn [bind].
    rewrite IH by lia. rewrite <- app_assoc. reflexivity.
Qed.

Lemma W_0 (e t : R) : W e t 0 = 1.
Proof.
  unfold W.
  replace (e * (0 - t)) with (-1 * e * t) by ring.
  field. pose proof (exp_pos (-1 * e * t)). lra.
Qed.

(** ** The frequency grid *)

Lemma linspace_length s e num : length (linspace s e num) = num.
Proof.
  unfold linspace. destruct (Nat.ltb 1 num).
  - now rewrite length_upd, length_map, length_seq.
  - now rewrite length_map, length_seq.
Qed.

Lemma linspace_last s e num :
  (1 < num)%nat -> nth (num - 1) (linspace s e num) 0 = e.
Proof.
  intros H. unfold linspace.
  rewrite (proj2 (Nat.ltb_lt _ _) H).
  apply nth_error_nth, nth_error_upd_eq.
  rewrite length_map, length_seq; lia.
Qed.

Lemma linspace_nth s e num i :
  (i < num - 1)%nat ->
  nth i (linspace s e num) 0 = INR i * ((e - s) / INR (num - 1)) + s.
Proof.
  intros H. unfold linspace.
  assert (H1 : (1 < num)%nat) by lia.
  rewrite (proj2 (Nat.ltb_lt _ _) H1).
  apply nth_error_nth.
  rewrite nth_error_upd_neq by lia.
  rewrite nth_error_map, nth_error_seq.
  rewrite (proj2 (Nat.ltb_lt _ _)) by lia.
  reflexivity.
Qed.

Lemma linspace_increasing s e num :
  s < e -> strictly_increasing (linspace s e num).
Proof.
  intros Hse i j [Hij Hj]. rewrite linspace_length in Hj.
  assert (Hn : 0 < INR (num - 1)) by (apply lt_0_INR; lia).
  assert (Hstep : 0 < (e - s) / INR (num - 1)).
  { apply Rdiv_lt_0_compat; lra. }
  rewrite (linspace_nth s e num i) by lia.
  destruct (Nat.eq_dec j (num - 1)) as [->|Hne].
  - rewrite linspace_last by lia.
    assert (Hi : INR i < INR (num - 1)) by (apply lt_INR; lia).
    assert (H : INR i * ((e - s) / INR (num - 1))
                < INR (num - 1) * ((e - s) / INR (num - 1))).
    { apply Rmult_lt_compat_r; assumption. }
    replace (INR (num - 1) * ((e - s) / INR (num - 1))) with (e - s) in H
      by (field; lra).
    lra.
  - rewrite (linspace_nth s e num j) by lia.
    assert (Hi : INR i < INR j) by (apply lt_INR; lia).
    assert (H : INR i * ((e - s) / INR (num - 1))
                < INR j * ((e - s) / INR (num - 1))).
    { apply Rmult_lt_compat_r; assumption. }
    lra.
Qed.

Lemma logspace_length s e num : length (logspace s e num) = num.
Proof. unfold logspace; now rewrite length_map, linspace_length. Qed.

Lemma logspace_nth s e num i :
  (i < num)%nat ->
  nth i (logspace s e num) 0 = Rpower 10 (nth i (linspace s e num) 0).
Proof.
  intros H. unfold logspace.
  apply nth_error_nth. rewrite nth_error_map.
  rewrite (nth_error_nth' _ 0) by (rewrite linspace_length; exact H).
  reflexivity.
Qed.

Lemma logspace_increasing s e num :
  s < e -> strictly_increasing (logspace s e num).
Proof.
  intros Hse i j [Hij Hj]. rewrite logspace_length in Hj.
  rewrite !logspace_nth by lia.
  apply Rpower_lt; [lra|].
  apply linspace_increasing; [exact Hse|].
  rewrite linspace_length; lia.
Qed.

Lemma logspace_positive s e num x : In x (logspace s e num) -> 0 < x.
Proof.
  unfold logspace; rewrite in_map_iff. intros (y & <- & _).
  unfold Rpower; apply exp_pos.
Qed.

Lemma ln10_pos : 0 < ln 10.
Proof. rewrite <- ln_1. apply ln_increasing; lra. Qed.

Lemma Rpower10_log10 x : 0 < x -> Rpower 10 (ln x / ln 10) = x.
Proof.
  intros H. unfold Rpower.
  replace (ln x / ln 10 * ln 10) with (ln x)
    by (field; pose proof ln10_pos; lra).
  now apply exp_ln.
Qed.

Lemma log10_increasing x y : 0 < x -> x < y -> ln x / ln 10 < ln y / ln 10.
Proof.
  intros Hx Hxy. apply Rmult_lt_compat_r.
  - apply Rinv_0_lt_compat, ln10_pos.
  - apply ln_increasing; assumption.
Qed.

Lemma np_div_Ok x y : y <> 0 -> np_div x y = Ok (x / y).
Proof.
  intros H; unfold np_div. destruct (Req_dec_T y 0); [contradiction|easy].
Qed.

Lemma np_log10_Ok x : 0 < x -> np_log10 x = Ok (ln x / ln 10).
Proof.
  intros H; unfold np_log10. destruct (Rlt_dec 0 x); [easy|contradiction].
Qed.

Lemma last_item_Ok (l : list R) :
  l <> [] -> last_item l = Ok (last l 0).
Proof. destruct l; [congruence|reflexivity]. Qed.

(** The grid for bounds [2 pi / tmax] and [2 pi / (3 dt)]. *)
Lemma freq_Ok redTime dt tmax :
  nth_error redTime 1 = Some dt ->
  last redTime 0 = tmax ->
  0 < dt -> 0 < tmax ->
  hif redTime = Ok (2 * PI / (3 * dt)) /\
  lof redTime = Ok (2 * PI / tmax) /\
  freq redTime
  = Ok (logspace (ln (2 * PI / tmax) / ln 10)
          (ln (2 * PI / (3 * dt)) / ln 10) nfreq).
Proof.
  intros H1 Hl Hdt Htm.
  assert (Hne : redTime <> []) by (destruct redTime; [discriminate|easy]).
  assert (Hh : hif redTime = Ok (2 * PI / (3 * dt))).
  { unfold hif. rewrite (getitem_Ok _ _ _ H1). cbn [bind].
    rewrite np_div_Ok by lra. f_equal. f_equal. ring. }
  assert (Hlo : lof redTime = Ok (2 * PI / tmax)).
  { unfold lof. rewrite last_item_Ok by exact Hne. cbn [bind].
    rewrite Hl, np_div_Ok by lra. reflexivity. }
  repeat split; try assumption.
  unfold freq. rewrite Hh, Hlo. cbn [bind].
  pose proof PI_RGT_0 as Hpi.
  rewrite !np_log10_Ok; [reflexivity| |];
    apply Rdiv_lt_0_compat; lra.
Qed.

Lemma logspace_first s e num :
  (1 < num)%nat -> nth 0 (logspace s e num) 0 = Rpower 10 s.
Proof.
  intros H. rewrite logspace_nth by lia.
  rewrite linspace_nth by lia. f_equal. simpl. ring.
Qed.

Lemma logspace_last s e num :
  (1 < num)%nat -> nth (num - 1) (logspace s e num) 0 = Rpower 10 e.
Proof.
  intros H. rewrite logspace_nth by lia.
  now rewrite linspace_last.
Qed.

(** C4, as the code has it.  For a reduced time array of length M >= 2
    with redTime[0] = 0, spacing dt = redTime[1] - redTime[0] > 0 and
    t_max = redTime[M-1] > 3 dt, the low bound is 2 pi / t_max, the high
    bound is 2 pi / (3 dt), the grid runs from the one to the other, is
    strictly increasing and strictly positive: zero is not in it. *)
Theorem freq_grid_bounds (redTime : list R) (dt tmax : R) :
  (2 <= length redTime)%nat ->
  nth 0 redTime 0 = 0 ->
  dt = nth 1 redTime 0 - nth 0 redTime 0 ->
  tmax = last redTime 0 ->
  0 < dt ->
  3 * dt < tmax ->
  exists grid,
    freq redTime = Ok grid /\
    lof redTime = Ok (2 * PI / tmax) /\
    hif redTime = Ok (2 * PI / (3 * dt)) /\
    length grid = nfreq /\
    nth 0 grid 0 = 2 * PI / tmax /\
    nth (nfreq - 1) grid 0 = 2 * PI / (3 * dt) /\
    strictly_increasing grid /\
    (forall x, In x grid -> 0 < x) /\
    ~ In 0 grid.
Proof.
  intros HM H0 Hdt Htm Hpos Hlt.
  assert (H1 : nth_error redTime 1 = Some dt).
  { rewrite (nth_error_nth' redTime 0) by lia. f_equal. lra. }
  destruct (freq_Ok redTime dt tmax H1 (eq_sym Htm) Hpos)
    as (Hh & Hl & Hf); [lra|].
  pose proof PI_RGT_0 as Hpi.
  assert (Hlo : 0 < 2 * PI / tmax) by (apply Rdiv_lt_0_compat; lra).
  assert (Hhi : 0 < 2 * PI / (3 * dt)) by (apply Rdiv_lt_0_compat; lra).
  assert (Hlh : 2 * PI / tmax < 2 * PI / (3 * dt)).
  { unfold Rdiv. apply Rmult_lt_compat_l; [lra|].
    apply Rinv_lt_contravar; [|lra].
    apply Rmult_lt_0_compat; lra. }
  eexists; split; [exact Hf|].
  split; [exact Hl|]. split; [exact Hh|].
  split; [apply logspace_length|].
  split.
  { rewrite logspace_first by (unfold nfreq; lia).
    now apply Rpower10_log10. }
  split.
  { rewrite logspace_last by (unfold nfreq; lia).
    now apply Rpower10_log10. }
  split.
  { apply logspace_increasing. now apply log10_increasing. }
  split.
  { intros x Hx. eapply logspace_positive; exact Hx. }
  intros Hin. apply logspace_positive in Hin. lra.
Qed.

Lemma freq_grid_bounds_witness :
  exists grid, freq [0; 1; 2; 3; 4] = Ok grid /\ strictly_increasing grid.
Proof.
  destruct (freq_grid_bounds [0; 1; 2; 3; 4] 1 4)
    as (grid & Hf & _ & _ & _ & _ & _ & Hinc & _).
  - simpl; lia.
  - reflexivity.
  - simpl; lra.
  - reflexivity.
  - lra.
  - lra.
  - exists grid; split; assumption.
Defined.

(** C4 as stated fails for a two-sample time array: with redTime = [0, 1]
    the low bound 2 pi / 1 lies above the high bound 2 pi / 3 and the grid
    falls. *)
Lemma freq_grid_two_samples_falls :
  exists grid,
    freq [0; 1] = Ok grid /\
    nth (nfreq - 1) grid 0 < nth 0 grid 0 /\
    ~ strictly_increasing grid.
Proof.
  destruct (freq_Ok [0; 1] 1 1 eq_refl eq_refl) as (_ & _ & Hf);
    try lra.
  pose proof PI_RGT_0 as Hpi.
  assert (Hlt : nth (nfreq - 1)
                  (logspace (ln (2 * PI / 1) / ln 10)
                     (ln (2 * PI / (3 * 1)) / ln 10) nfreq) 0
                < nth 0
                    (logspace (ln (2 * PI / 1) / ln 10)
                       (ln (2 * PI / (3 * 1)) / ln 10) nfreq) 0).
  { rewrite logspace_first by (unfold nfreq; lia).
    rewrite logspace_last by (unfold nfreq; lia).
    rewrite !Rpower10_log10; lra. }
  eexists; split; [exact Hf|]. split; [exact Hlt|].
  intros Hinc.
  specialize (Hinc 0%nat (nfreq - 1)%nat).
  rewrite logspace_length in Hinc.
  assert (H : (0 < nfreq - 1 < nfreq)%nat) by (unfold nfreq; lia).
  specialize (Hinc H). lra.
Qed.

(** C10.  For an ACF array and a time array of one non-zero length with
    time[0] = 0, [Window] returns an array of that length whose element 0
    is ACF[0]: the multiplier is 1 at t = 0 whatever the two window
    constants are, so the zero-lag value [AdmFromQ] reads is unchanged. *)
Theorem Window_zero_lag (ep tau : R) (ACF time : list R) (a0 : R) :
  length ACF = length time ->
  time <> [] ->
  nth_error time 0 = Some 0 ->
  nth_error ACF 0 = Some a0 ->
  W ep tau 0 = 1 /\
  exists ACF_window,
    Window ep tau ACF time = Ok ACF_window /\
    length ACF_window = length time /\
    nth_error ACF_window 0 = Some a0 /\
    getitem ACF_window 0 = getitem ACF 0.
Proof.
  intros Hlen Hne Ht Ha.
  split; [apply W_0|].
  unfold Window. rewrite window_loop_Ok by lia.
  eexists; split; [reflexivity|].
  destruct time as [|t0 time]; [congruence|].
  destruct ACF as [|x ACF]; [discriminate|].
  cbn in Ht, Ha. inversion Ht; inversion Ha; subst.
  split.
  - cbn [app]. rewrite length_map, length_combine, length_seq.
    apply Nat.min_id.
  - cbn. rewrite W_0.
    unfold getitem; cbn. split; do 2 f_equal; ring.
Qed.

Lemma Window_zero_lag_witness :
  exists ACF_window,
    Window ep tau [5; 7] [0; 1] = Ok ACF_window /\
    nth_error ACF_window 0 = Some 5.
Proof.
  destruct (Window_zero_lag ep tau [5; 7] [0; 1] 5 eq_refl)
    as (_ & l & H & _ & H0 & _).
  - discriminate.
  - reflexivity.
  - reflexivity.
  - exists l; split; assumption.
Defined.

(** ** poly1d arithmetic, for every arithmetic *)

Section PolyFacts.
Context {F : Type} {A : Float64 F}.

Lemma trim_zeros_f_length (l : list F) :
  (length (trim_zeros_f l) <= length l)%nat.
Proof.
  induction l as [|c l IH]; [apply Nat.le_refl|].
  cbn [trim_zeros_f]. destruct (f_is_zero c); cbn [length]; lia.
Qed.

Lemma poly1d_not_nil (l : list F) : poly1d l <> [].
Proof.
  unfold poly1d. destruct (trim_zeros_f l); discriminate.
Qed.

Lemma poly1d_length (l : list F) :
  (1 <= length (poly1d l) <= Nat.max 1 (length l))%nat.
Proof.
  unfold poly1d. pose proof (trim_zeros_f_length l) as H.
  destruct (trim_zeros_f l) as [|c t]; cbn [length] in *; lia.
Qed.

Lemma trim_zeros_f_idem (l : list F) :
  trim_zeros_f (trim_zeros_f l) = trim_zeros_f l.
Proof.
  induction l as [|c l IH]; [reflexivity|].
  cbn [trim_zeros_f]. destruct (f_is_zero c) eqn:E; [exact IH|].
  cbn [trim_zeros_f]. now rewrite E.
Qed.

Lemma poly1d_idem (l : list F) : poly1d (poly1d l) = poly1d l.
Proof.
  unfold poly1d at 2 3. destruct (trim_zeros_f l) as [|c t] eqn:E.
  - unfold poly1d. cbn [trim_zeros_f]. now destruct (f_is_zero f_zero).
  - unfold poly1d. rewrite <- E, trim_zeros_f_idem. now rewrite E.
Qed.

Lemma zipadd_length (a b : list F) :
  length (zipadd a b) = Nat.min (length a) (length b).
Proof. unfold zipadd; now rewrite length_map, length_combine. Qed.

Lemma polyadd_raw_length (p q : list F) :
  length (polyadd_raw p q) = Nat.max (length p) (length q).
Proof.
  unfold polyadd_raw.
  destruct (Nat.eqb_spec (length p) (length q)) as [E|NE].
  - rewrite zipadd_length. lia.
  - destruct (Nat.ltb_spec (length p) (length q));
      rewrite zipadd_length, length_app, repeat_length; lia.
Qed.

Lemma polyadd_length (p q : list F) :
  (1 <= length (polyadd p q)
   <= Nat.max 1 (Nat.max (length p) (length q)))%nat.
Proof.
  unfold polyadd. pose proof (poly1d_length (polyadd_raw p q)) as H.
  rewrite polyadd_raw_length in H. exact H.
Qed.

Lemma convolve_cons2 (a0 a1 : F) a v :
  convolve (a0 :: a1 :: a) v
  = zipadd (map (f_mul a0) v ++ repeat f_zero (S (length a)))
           (f_zero :: convolve (a1 :: a) v).
Proof. reflexivity. Qed.

Lemma convolve_length (p q : list F) :
  p <> [] -> length (convolve p q) = (length p + length q - 1)%nat.
Proof.
  induction p as [|a0 p IH]; [congruence|]; intros _.
  destruct p as [|a1 p].
  - cbn. rewrite length_map. lia.
  - rewrite convolve_cons2, zipadd_length.
    cbn [length]. rewrite length_app, length_map, repeat_length.
    rewrite IH by discriminate. cbn [length]. lia.
Qed.

Lemma polymul_length (p q : list F) :
  (1 <= length (polymul p q)
   <= Nat.max 1 (length p) + Nat.max 1 (length q) - 1)%nat.
Proof.
  unfold polymul.
  pose proof (poly1d_length (convolve (poly1d p) (poly1d q))) as H.
  rewrite convolve_length in H by apply poly1d_not_nil.
  pose proof (poly1d_length p). pose proof (poly1d_length q). lia.
Qed.

Lemma polydiv_scalar_length (p : list F) fac :
  (1 <= length (polydiv_scalar p fac) <= Nat.max 1 (length p))%nat.
Proof.
  unfold polydiv_scalar.
  pose proof (poly1d_length (map (fun c => f_div c fac) p)) as H.
  now rewrite length_map in H.
Qed.

(** ** lagrange returns, and its result is no longer than the nodes *)

Lemma lagrange_inner_Ok (x : list F) xj j :
  forall ks pt,
    (forall k, In k ks -> (k < length x)%nat) ->
    (1 <= length pt)%nat ->
    exists pt',
      lagrange_inner x xj j ks pt = Ok pt' /\
      (1 <= length pt'
       <= length pt + length (filter (fun k => negb (Nat.eqb k j)) ks))%nat.
Proof.
  induction ks as [|k ks IH]; intros pt Hin Hpt.
  - exists pt. split; [reflexivity|]. cbn. lia.
  - cbn [lagrange_inner filter].
    destruct (Nat.eqb k j); cbn [negb].
    + apply IH; [intros k' Hk'; apply Hin; now right|exact Hpt].
    + rewrite (getitem_nth x k f_zero) by (apply Hin; now left).
      cbn [bind].
      set (q := polydiv_scalar _ _).
      assert (Hq : (1 <= length q <= 2)%nat).
      { unfold q.
        pose proof (polydiv_scalar_length
                      (poly1d [f_one; f_opp (nth k x f_zero)])
                      (f_sub xj (nth k x f_zero))) as H1.
        pose proof (poly1d_length [f_one; f_opp (nth k x f_zero)]) as H2.
        cbn [length] in H2. lia. }
      pose proof (polymul_length pt q) as Hm.
      destruct (IH (polymul pt q)) as (pt' & E & Hl).
      * intros k' Hk'; apply Hin; now right.
      * lia.
      * exists pt'. split; [exact E|]. cbn [length]. lia.
Qed.

Lemma filter_neq_seq_length j n :
  (j < n)%nat ->
  (length (filter (fun k => negb (Nat.eqb k j)) (seq 0 n)) <= n - 1)%nat.
Proof.
  induction n as [|n IH]; intros Hj; [lia|].
  rewrite seq_S, filter_app, length_app. cbn [filter Nat.add].
  destruct (Nat.eqb_spec n j) as [->|NE]; cbn [negb length].
  - assert (H : (length (filter (fun k => negb (Nat.eqb k j)) (seq 0 j))
                 <= length (seq 0 j))%nat) by apply filter_length_le.
    rewrite length_seq in H. lia.
  - assert (Hlt : (j < n)%nat) by lia. specialize (IH Hlt). lia.
Qed.

Lemma lagrange_outer_Ok (x w : list F) :
  forall js p,
    (forall j, In j js -> (j < length x)%nat /\ (j < length w)%nat) ->
    (1 <= length p <= Nat.max 1 (length x))%nat ->
    exists coef,
      lagrange_outer x w js p = Ok coef /\
      (1 <= length coef <= Nat.max 1 (length x))%nat.
Proof.
  induction js as [|j js IH]; intros p Hin Hp.
  - now exists p.
  - cbn [lagrange_outer].
    destruct (Hin j (or_introl eq_refl)) as [Hjx Hjw].
    rewrite (getitem_nth w j f_zero), (getitem_nth x j f_zero) by assumption.
    cbn [bind].
    destruct (lagrange_inner_Ok x (nth j x f_zero) j (seq 0 (length x))
                (poly1d [nth j w f_zero])) as (pt & E & Hl).
    + intros k Hk. apply in_seq in Hk. lia.
    + apply poly1d_length.
    + rewrite E. cbn [bind].
      pose proof (poly1d_length [nth j w f_zero]) as H1. cbn [length] in H1.
      pose proof (filter_neq_seq_length j (length x) Hjx) as Hf.
      pose proof (polyadd_length p pt) as Ha.
      apply IH.
      * intros j' Hj'; apply Hin; now right.
      * lia.
Qed.

(** With a value for every node [lagrange] returns between one and
    [len(x)] coefficients. *)
Lemma lagrange_Ok (x w : list F) :
  (length x <= length w)%nat ->
  exists coef,
    lagrange x w = Ok coef /\
    (1 <= length coef <= Nat.max 1 (length x))%nat.
Proof.
  intros H. unfold lagrange. apply lagrange_outer_Ok.
  - intros j Hj. apply in_seq in Hj. lia.
  - pose proof (poly1d_length [f_zero]) as H1. cbn [length] in H1. lia.
Qed.

Lemma lagrange_outer_short (x w : list F) :
  forall js p,
    (forall j, In j js -> (j < length x)%nat) ->
    (exists j, In j js /\ (length w <= j)%nat) ->
    lagrange_outer x w js p = Raise IndexError.
Proof.
  induction js as [|j js IH]; intros p Hin (j0 & Hj0 & Hw); [destruct Hj0|].
  cbn [lagrange_outer].
  destruct (Nat.le_gt_cases (length w) j) as [Hle|Hgt].
  - now rewrite getitem_out.
  - rewrite (getitem_nth w j f_zero) by exact Hgt.
    rewrite (getitem_nth x j f_zero) by (apply Hin; now left).
    cbn [bind].
    destruct (lagrange_inner_Ok x (nth j x f_zero) j (seq 0 (length x))
                (poly1d [nth j w f_zero])) as (pt & E & _).
    + intros k Hk. apply in_seq in Hk. lia.
    + apply poly1d_length.
    + rewrite E. cbn [bind]. apply IH.
      * intros j' Hj'; apply Hin; now right.
      * exists j0. split; [|exact Hw].
        destruct Hj0 as [->|H]; [lia|exact H].
Qed.

(** With fewer values than nodes [w[j]] raises IndexError. *)
Lemma lagrange_short (x w : list F) :
  (length w < length x)%nat -> lagrange x w = Raise IndexError.
Proof.
  intros H. unfold lagrange. apply lagrange_outer_short.
  - intros j Hj. apply in_seq in Hj. lia.
  - exists (length w). split; [apply in_seq; lia|lia].
Qed.

End PolyFacts.

(** ** One segment of LagrangeInterpol *)

Lemma skipn_nth_cons {A} (l : list A) lo d :
  (lo < length l)%nat -> skipn lo l = nth lo l d :: skipn (S lo) l.
Proof.
  revert lo; induction l as [|h t IH]; intros [|lo] H; cbn [length] in H;
    try lia; try reflexivity.
  cbn [skipn nth]. apply IH. lia.
Qed.

Lemma slice3 {A} (l : list A) lo d :
  (lo + 2 < length l)%nat ->
  slice l lo (lo + 3)
  = [nth lo l d; nth (lo + 1) l d; nth (lo + 2) l d].
Proof.
  intros H. unfold slice.
  replace (lo + 3 - lo)%nat with 3%nat by lia.
  rewrite (skipn_nth_cons l lo d) by lia.
  rewrite (skipn_nth_cons l (S lo) d) by lia.
  rewrite (skipn_nth_cons l (S (S lo)) d) by lia.
  cbn [firstn].
  replace (lo + 1)%nat with (S lo) by lia.
  replace (lo + 2)%nat with (S (S lo)) by lia.
  reflexivity.
Qed.


Section LoopFacts.
Context {F : Type} {A : Float64 F}.

Lemma assign_row_store (coeffs : list (frow F)) ipp coef :
  (ipp < length coeffs)%nat ->
  assign_row coeffs ipp coef = (r <- row_of_coef coef ;; Ok (upd coeffs ipp r)).
Proof.
  intros H. unfold assign_row, row_of_coef.
  rewrite (proj2 (Nat.ltb_lt _ _) H).
  destruct coef as [|a [|b [|c [|d l]]]]; reflexivity.
Qed.

(** One pass of the source loop is [seg_row] followed by the store. *)
Lemma interpol_step (Time Signal : list F) q ipp coeffs :
  (2 * q + 2 < length Time)%nat ->
  (2 * q + 2 < length Signal)%nat ->
  (ipp < length coeffs)%nat ->
  bind (lagrange (slice Time (1 + 2 * q - 1) (1 + 2 * q + 2))
          (slice Signal (1 + 2 * q - 1) (1 + 2 * q + 2)))
       (assign_row coeffs ipp)
  = (r <- seg_row Time Signal q ;; Ok (upd coeffs ipp r)).
Proof.
  intros HT HS Hi.
  replace (1 + 2 * q - 1)%nat with (2 * q)%nat by lia.
  replace (1 + 2 * q + 2)%nat with (2 * q + 3)%nat by lia.
  rewrite (slice3 Time (2 * q) f_zero), (slice3 Signal (2 * q) f_zero)
    by lia.
  unfold seg_row, seg_coef.
  destruct (lagrange _ _) as [coef| |]; cbn [bind]; try reflexivity.
  now apply assign_row_store.
Qed.

Lemma interpol_loop_rows (Time Signal : list F) :
  forall qs ipp coeffs,
    (forall q, In q qs ->
       (2 * q + 2 < length Time)%nat /\ (2 * q + 2 < length Signal)%nat) ->
    (ipp + length qs <= length coeffs)%nat ->
    interpol_loop Time Signal (map (fun q => (1 + 2 * q)%nat) qs) ipp coeffs
    = rows_loop Time Signal qs ipp coeffs.
Proof.
  induction qs as [|q qs IH]; intros ipp coeffs Hin Hlen; [reflexivity|].
  cbn [length] in Hlen. cbn [map interpol_loop rows_loop].
  destruct (Hin q (or_introl eq_refl)) as [HT HS].
  assert (Hi : (ipp < length coeffs)%nat) by lia.
  pose proof (interpol_step Time Signal q ipp coeffs HT HS Hi) as Hstep.
  rewrite <- bind_assoc, Hstep.
  destruct (seg_row Time Signal q) as [r| |]; cbn [bind]; try reflexivity.
  apply IH.
  - intros q' Hq'; apply Hin; now right.
  - rewrite length_upd; lia.
Qed.

Lemma range2_1_nseg (Time : list F) :
  range2 1 (length Time - 1)
  = map (fun q => (1 + 2 * q)%nat) (seq 0 (nseg Time)).
Proof.
  unfold range2. f_equal. f_equal. unfold nseg.
  destruct (length Time) as [|[|n]]; try reflexivity.
  replace (S (S n) - 1 - 1 + 1)%nat with (S (S n) - 1)%nat by lia.
  reflexivity.
Qed.

(** [LagrangeInterpol] as a loop over the segments 0 .. nseg-1. *)
Lemma LagrangeInterpol_rows (coeffs : list (frow F)) Time Signal :
  length Signal = length Time ->
  (nseg Time <= length coeffs)%nat ->
  LagrangeInterpol coeffs Time Signal
  = rows_loop Time Signal (seq 0 (nseg Time)) 0 coeffs.
Proof.
  intros HS Hc. unfold LagrangeInterpol. rewrite range2_1_nseg.
  apply interpol_loop_rows.
  - intros q Hq; apply in_seq in Hq. rewrite HS.
    pose proof (nseg_bound Time q). lia.
  - rewrite length_seq; lia.
Qed.

(** ** The loop over segments *)

(** A segment stores a row or raises ValueError, nothing else; it raises
    exactly when [p.coef] has two entries. *)
Lemma seg_row_cases (Time Signal : list F) q :
  (exists r, seg_row Time Signal q = Ok r) \/
  (seg_row Time Signal q = Raise ValueError /\
   exists a b, seg_coef Time Signal q = Ok [a; b]).
Proof.
  unfold seg_row.
  destruct (lagrange_Ok
              [nth (2 * q) Time f_zero; nth (2 * q + 1) Time f_zero;
               nth (2 * q + 2) Time f_zero]
              [nth (2 * q) Signal f_zero; nth (2 * q + 1) Signal f_zero;
               nth (2 * q + 2) Signal f_zero] (Nat.le_refl _))
    as (coef & E & Hl).
  fold (seg_coef Time Signal q) in E. rewrite E. cbn [bind].
  cbn [length Nat.max] in Hl.
  destruct coef as [|a [|b [|c [|d l]]]]; cbn [length] in Hl; try lia.
  - left. now eexists.
  - right. split; [reflexivity|]. now exists a, b.
  - left. now eexists.
Qed.

Lemma seg_row_not_two (Time Signal : list F) q r a b :
  seg_row Time Signal q = Ok r -> seg_coef Time Signal q <> Ok [a; b].
Proof.
  unfold seg_row. intros H E. rewrite E in H. discriminate.
Qed.

(** What a loop that returns has done: every segment stored its row, and
    the other rows are as they were. *)
Lemma rows_loop_inv (Time Signal : list F) :
  forall qs ipp coeffs res,
    rows_loop Time Signal qs ipp coeffs = Ok res ->
    (ipp + length qs <= length coeffs)%nat ->
    length res = length coeffs /\
    (forall idx q, nth_error qs idx = Some q ->
       exists r, seg_row Time Signal q = Ok r /\
                 nth_error res (ipp + idx) = Some r) /\
    (forall k, (k < ipp \/ ipp + length qs <= k)%nat ->
       nth_error res k = nth_error coeffs k).
Proof.
  induction qs as [|q qs IH]; intros ipp coeffs res H Hlen.
  - cbn in H. inversion H; subst res. repeat split; auto.
    intros [|idx] q Hq; discriminate.
  - cbn [length] in Hlen. cbn [rows_loop] in H.
    destruct (seg_row Time Signal q) as [r| |] eqn:Er; try discriminate.
    cbn [bind] in H.
    destruct (IH _ _ _ H) as (Hl & Hval & Hout).
    { rewrite length_upd; lia. }
    split; [now rewrite Hl, length_upd|]. split.
    + intros [|idx] q' Hq'.
      * cbn in Hq'; inversion Hq'; subst q'. exists r. split; [exact Er|].
        rewrite Nat.add_0_r, Hout by lia.
        now rewrite nth_error_upd_eq by lia.
      * cbn in Hq'.
        replace (ipp + S idx)%nat with (S ipp + idx)%nat by lia.
        now apply Hval.
    + intros k Hk. cbn [length] in Hk.
      rewrite Hout by lia. apply nth_error_upd_neq; lia.
Qed.

(** The loop returns or raises ValueError; it raises exactly when some
    segment has a [p.coef] of two entries. *)
Lemma rows_loop_cases (Time Signal : list F) :
  forall qs ipp coeffs,
    ((exists res, rows_loop Time Signal qs ipp coeffs = Ok res) /\
     forall q, In q qs ->
       forall a b, seg_coef Time Signal q <> Ok [a; b]) \/
    (rows_loop Time Signal qs ipp coeffs = Raise ValueError /\
     exists q a b, In q qs /\ seg_coef Time Signal q = Ok [a; b]).
Proof.
  induction qs as [|q qs IH]; intros ipp coeffs.
  - left. split; [now exists coeffs|]. intros q [].
  - cbn [rows_loop].
    destruct (seg_row_cases Time Signal q)
      as [(r & Hr)|(Hr & a & b & Hab)].
    + rewrite Hr. cbn [bind].
      destruct (IH (S ipp) (upd coeffs ipp r))
        as [[Hres Hall]|[Hres (q' & a & b & Hin & Hab)]].
      * left. split; [exact Hres|].
        intros q' [<-|Hin] a b;
          [now apply (seg_row_not_two _ _ _ r)|now apply Hall].
      * right. split; [exact Hres|].
        exists q', a, b. split; [now right|exact Hab].
    + rewrite Hr. right. split; [reflexivity|].
      exists q, a, b. split; [now left|exact Hab].
Qed.


Lemma length_zeros_rows n : length (zeros_rows (F := F) n) = n.
Proof. apply repeat_length. Qed.


End LoopFacts.


Lemma nseg_le_half {B} (Time : list B) : (nseg Time <= length Time / 2)%nat.
Proof.
  unfold nseg. apply Nat.Div0.div_le_mono. lia.
Qed.





(** ** The laws of inf and NaN, in both arithmetics *)

Lemma SFsub_diag (s : spec_float) :
  SF64sub s s = S754_nan \/ exists b, SF64sub s s = S754_zero b.
Proof.
  destruct s as [[|]|[|]| |sg m ex]; cbn; auto; try (right; now eexists).
  right. unfold SF64sub, SFsub. rewrite Z.min_id, Z.sub_diag. cbn.
  now eexists.
Qed.

#[export] Instance binary64_laws : Float64Laws float.
Proof.
  constructor; cbn [f_value f_zero f_one f_is_zero f_add f_mul f_div f_sub
                    binary64].
  - reflexivity.
  - reflexivity.
  - intros x. rewrite eqb_spec.
    replace (Prim2SF 0%float) with (S754_zero false) by reflexivity.
    destruct (Prim2SF x) as [| [|] | |]; cbn; intros H; try discriminate;
      reflexivity.
  - intros x y. rewrite add_spec. unfold SF64add.
    destruct (Prim2SF x) as [| [|] | |], (Prim2SF y) as [| [|] | |]; cbn;
      intros H; try discriminate; reflexivity.
  - intros x y. rewrite add_spec. unfold SF64add.
    destruct (Prim2SF x) as [| [|] | |], (Prim2SF y) as [| [|] | |]; cbn;
      intros H; try discriminate; reflexivity.
  - intros x y. rewrite mul_spec. unfold SF64mul.
    destruct (Prim2SF x), (Prim2SF y); cbn; intros H; try discriminate;
      reflexivity.
  - intros x y. rewrite mul_spec. unfold SF64mul.
    destruct (Prim2SF x), (Prim2SF y); cbn; intros H; try discriminate;
      reflexivity.
  - intros v x. rewrite div_spec, sub_spec.
    destruct (SFsub_diag (Prim2SF x)) as [->|[b ->]];
      unfold SF64div; destruct (Prim2SF v); reflexivity.
Qed.

#[export] Instance exact_laws : Float64Laws (f64 R).
Proof.
  constructor; cbn [f_value f_zero f_one f_is_zero f_add f_mul f_div f_sub
                    exact].
  - reflexivity.
  - cbn. destruct (Req_dec_T 1 0); [lra|reflexivity].
  - intros x ->. reflexivity.
  - intros x y ->. reflexivity.
  - intros x y ->. now destruct x.
  - intros x y ->. reflexivity.
  - intros x y ->. now destruct x.
  - intros v [x|]; [|now destruct v].
    destruct v as [v|]; [|reflexivity]. cbn.
    destruct (Req_dec_T (x - x) 0) as [_|N]; [reflexivity|].
    exfalso. apply N. ring.
Qed.

(** ** A segment with two coinciding nodes *)

Section Degenerate.
Context {F : Type} {A : Float64 F} {L : Float64Laws F}.

Lemma zipadd_cons (x : F) a y b :
  zipadd (x :: a) (y :: b) = f_add x y :: zipadd a b.
Proof. reflexivity. Qed.

Lemma zipadd_nonfinite_r (l1 l2 : list F) :
  Forall nonfinite l2 -> Forall nonfinite (zipadd l1 l2).
Proof.
  intros H. revert l1. induction H as [|y l2 Hy _ IH]; intros [|x l1];
    try constructor.
  - now apply nonfinite_add_r.
  - apply IH.
Qed.

Lemma poly1d_nonfinite (l : list F) :
  l <> [] -> Forall nonfinite l -> poly1d l = l.
Proof.
  intros Hl H. destruct H as [|c l Hc _]; [congruence|].
  unfold poly1d. cbn [trim_zeros_f]. now rewrite nonfinite_not_zero.
Qed.

Lemma convolve_nonfinite_r (p q : list F) :
  p <> [] -> q <> [] -> Forall nonfinite q ->
  Forall nonfinite (convolve p q).
Proof.
  intros Hp Hq Hnf. induction p as [|a0 p IH]; [congruence|].
  destruct p as [|a1 p].
  - cbn [convolve]. apply Forall_map.
    eapply Forall_impl; [|exact Hnf].
    intros v Hv. now apply nonfinite_mul_r.
  - rewrite convolve_cons2.
    destruct q as [|q0 q]; [congruence|].
    cbn [map app]. rewrite zipadd_cons. constructor.
    + apply nonfinite_add_l, nonfinite_mul_r.
      now inversion Hnf.
    + apply zipadd_nonfinite_r, IH. discriminate.
Qed.

Lemma convolve_nonfinite_l (p q : list F) :
  p <> [] -> q <> [] -> Forall nonfinite p ->
  Forall nonfinite (convolve p q).
Proof.
  intros Hp Hq Hnf. induction p as [|a0 p IH]; [congruence|].
  assert (Ha0 : nonfinite a0) by now inversion Hnf.
  destruct p as [|a1 p].
  - cbn [convolve]. apply Forall_map, Forall_forall.
    intros v _. now apply nonfinite_mul_l.
  - rewrite convolve_cons2.
    destruct q as [|q0 q]; [congruence|].
    cbn [map app]. rewrite zipadd_cons. constructor.
    + now apply nonfinite_add_l, nonfinite_mul_l.
    + apply zipadd_nonfinite_r, IH; [discriminate|now inversion Hnf].
Qed.

Lemma polymul_nonfinite_r (pt q : list F) :
  q <> [] -> Forall nonfinite q ->
  Forall nonfinite (polymul pt q) /\
  length (polymul pt q) = (length (poly1d pt) + length q - 1)%nat.
Proof.
  intros Hq Hnf. unfold polymul.
  rewrite (poly1d_nonfinite q Hq Hnf).
  assert (H : Forall nonfinite (convolve (poly1d pt) q))
    by (apply convolve_nonfinite_r; [apply poly1d_not_nil|assumption..]).
  assert (Hl : length (convolve (poly1d pt) q)
               = (length (poly1d pt) + length q - 1)%nat)
    by (apply convolve_length, poly1d_not_nil).
  rewrite poly1d_nonfinite; [now split|  |exact H].
  intros E. rewrite E in Hl. cbn in Hl.
  pose proof (poly1d_length pt). destruct q; [congruence|cbn in Hl; lia].
Qed.

Lemma polymul_nonfinite_l (pt q : list F) :
  pt <> [] -> Forall nonfinite pt ->
  Forall nonfinite (polymul pt q) /\
  (length pt <= length (polymul pt q))%nat.
Proof.
  intros Hp Hnf. unfold polymul.
  rewrite (poly1d_nonfinite pt Hp Hnf).
  assert (H : Forall nonfinite (convolve pt (poly1d q)))
    by (apply convolve_nonfinite_l; [assumption|apply poly1d_not_nil|
        assumption]).
  assert (Hl : length (convolve pt (poly1d q))
               = (length pt + length (poly1d q) - 1)%nat)
    by (now apply convolve_length).
  pose proof (poly1d_length q) as Hq.
  rewrite poly1d_nonfinite; [split; [exact H|lia]|  |exact H].
  intros E. rewrite E in Hl. cbn in Hl. destruct pt; [congruence|].
  cbn in Hl. lia.
Qed.

(** The factor [poly1d([1.0, -x[k]])/fac] for [fac = x - x]. *)
Lemma zero_factor (xk x : F) :
  let q := polydiv_scalar (poly1d [f_one; f_opp xk]) (f_sub x x) in
  Forall nonfinite q /\ length q = 2%nat.
Proof.
  cbv zeta.
  assert (E : poly1d [f_one; f_opp xk] = [f_one; f_opp xk]).
  { unfold poly1d. cbn [trim_zeros_f]. now rewrite f_one_not_zero. }
  rewrite E. unfold polydiv_scalar. cbn [map].
  assert (H : Forall nonfinite
                [f_div f_one (f_sub x x); f_div (f_opp xk) (f_sub x x)]).
  { repeat constructor; apply nonfinite_div_self. }
  rewrite poly1d_nonfinite; [now split|discriminate|exact H].
Qed.

Lemma lagrange_inner_app (x : list F) xj j ks1 ks2 pt :
  lagrange_inner x xj j (ks1 ++ ks2) pt
  = (pt1 <- lagrange_inner x xj j ks1 pt ;; lagrange_inner x xj j ks2 pt1).
Proof.
  revert pt. induction ks1 as [|k ks1 IH]; intros pt; [reflexivity|].
  cbn [app lagrange_inner]. destruct (Nat.eqb k j); [apply IH|].
  destruct (getitem x k); cbn [bind]; [apply IH|reflexivity..].
Qed.

Lemma lagrange_inner_keeps (x : list F) xj j :
  forall ks pt,
    (forall k, In k ks -> (k < length x)%nat) ->
    Forall nonfinite pt -> (2 <= length pt)%nat ->
    exists pt',
      lagrange_inner x xj j ks pt = Ok pt' /\
      Forall nonfinite pt' /\ (2 <= length pt')%nat.
Proof.
  induction ks as [|k ks IH]; intros pt Hin Hnf Hl.
  - now exists pt.
  - cbn [lagrange_inner]. destruct (Nat.eqb k j).
    + apply IH; [intros k' Hk'; apply Hin; now right|assumption..].
    + rewrite (getitem_nth x k f_zero) by (apply Hin; now left).
      cbn [bind].
      destruct (polymul_nonfinite_l pt
                  (polydiv_scalar (poly1d [f_one; f_opp (nth k x f_zero)])
                     (f_sub xj (nth k x f_zero)))) as [H1 H2].
      { destruct pt; [cbn in Hl; lia|discriminate]. }
      { exact Hnf. }
      apply IH; [intros k' Hk'; apply Hin; now right|exact H1|lia].
Qed.

(** A node that coincides with [x[j]] turns [pt] into inf and NaN. *)
Lemma lagrange_inner_hits (x : list F) j k0 pre post pt :
  (forall k, In k (pre ++ k0 :: post) -> (k < length x)%nat) ->
  (1 <= length pt)%nat ->
  k0 <> j -> nth k0 x f_zero = nth j x f_zero ->
  exists pt',
    lagrange_inner x (nth j x f_zero) j (pre ++ k0 :: post) pt = Ok pt' /\
    Forall nonfinite pt' /\ (2 <= length pt')%nat.
Proof.
  intros Hin Hpt Hne Heq. rewrite lagrange_inner_app.
  destruct (lagrange_inner_Ok x (nth j x f_zero) j pre pt)
    as (pt1 & E1 & Hl1).
  { intros k Hk. apply Hin, in_or_app. now left. }
  { exact Hpt. }
  rewrite E1. cbn [bind lagrange_inner].
  rewrite (proj2 (Nat.eqb_neq k0 j) Hne).
  rewrite (getitem_nth x k0 f_zero)
    by (apply Hin, in_or_app; right; now left).
  cbn [bind]. rewrite Heq.
  destruct (zero_factor (nth j x f_zero) (nth j x f_zero)) as [Hq Hlq].
  destruct (polymul_nonfinite_r pt1 _
              ltac:(intros E; rewrite E in Hlq; discriminate) Hq)
    as [H1 H2].
  apply lagrange_inner_keeps.
  - intros k Hk. apply Hin, in_or_app. right; now right.
  - exact H1.
  - rewrite H2, Hlq. pose proof (poly1d_length pt1). lia.
Qed.

Lemma Forall_nonfinite_ends (l : list F) :
  Forall nonfinite l -> (2 <= length l <= 3)%nat -> ends_nonfinite l.
Proof.
  intros H Hl.
  destruct l as [|a [|b [|c [|d l]]]]; cbn [length] in Hl; try lia.
  - left. exists a, b. inversion H as [|? ? Ha H']; inversion H'.
    now repeat split.
  - right. exists a, b, c. inversion H as [|? ? Ha H'];
      inversion H' as [|? ? Hb H'']; inversion H''. now repeat split.
Qed.

Lemma poly1d_ends (t u v : F) :
  nonfinite u -> nonfinite v -> ends_nonfinite (poly1d [t; u; v]).
Proof.
  intros Hu Hv. unfold poly1d. cbn [trim_zeros_f].
  destruct (f_is_zero t).
  - rewrite (nonfinite_not_zero u Hu). left. now exists u, v.
  - right. now exists t, u, v.
Qed.

Lemma poly1d_ends2 (u v : F) :
  nonfinite u -> nonfinite v -> ends_nonfinite (poly1d [u; v]).
Proof.
  intros Hu Hv. unfold poly1d. cbn [trim_zeros_f].
  rewrite (nonfinite_not_zero u Hu). left. now exists u, v.
Qed.

Lemma polyadd_ends_r (p pt : list F) :
  (1 <= length p <= 3)%nat -> ends_nonfinite pt ->
  ends_nonfinite (polyadd p pt).
Proof.
  intros Hp [(u & v & -> & Hu & Hv)|(t & u & v & -> & Hu & Hv)];
    destruct p as [|a [|b [|c [|d l]]]]; cbn [length] in Hp; try lia;
    unfold polyadd, polyadd_raw;
    cbn [length Nat.eqb Nat.ltb Nat.leb Nat.sub repeat app zipadd combine
         map fst snd];
    first [apply poly1d_ends | apply poly1d_ends2];
    first [now apply nonfinite_add_r | now apply nonfinite_add_l].
Qed.

Lemma polyadd_ends_l (p pt : list F) :
  ends_nonfinite p -> (1 <= length pt <= 3)%nat ->
  ends_nonfinite (polyadd p pt).
Proof.
  intros [(u & v & -> & Hu & Hv)|(t & u & v & -> & Hu & Hv)] Hp;
    destruct pt as [|a [|b [|c [|d l]]]]; cbn [length] in Hp; try lia;
    unfold polyadd, polyadd_raw;
    cbn [length Nat.eqb Nat.ltb Nat.leb Nat.sub repeat app zipadd combine
         map fst snd];
    first [apply poly1d_ends | apply poly1d_ends2];
    first [now apply nonfinite_add_l | now apply nonfinite_add_r].
Qed.

Lemma lagrange_outer_ends (x w : list F) :
  length x = 3%nat -> (3 <= length w)%nat ->
  forall js p,
    (forall j, In j js -> (j < 3)%nat) ->
    (1 <= length p <= 3)%nat ->
    ends_nonfinite p \/
    (exists j k, In j js /\ (k < 3)%nat /\ k <> j /\
                 nth k x f_zero = nth j x f_zero) ->
    exists coef,
      lagrange_outer x w js p = Ok coef /\ ends_nonfinite coef.
Proof.
  intros Hx Hw. induction js as [|j js IH]; intros p Hin Hp Hcase.
  - destruct Hcase as [He|(j & k & [] & _)]. now exists p.
  - cbn [lagrange_outer].
    assert (Hj : (j < 3)%nat) by (apply Hin; now left).
    rewrite (getitem_nth w j f_zero), (getitem_nth x j f_zero) by lia.
    cbn [bind]. rewrite Hx.
    destruct (lagrange_inner_Ok x (nth j x f_zero) j (seq 0 3)
                (poly1d [nth j w f_zero])) as (pt & E & Hl).
    { intros k Hk. apply in_seq in Hk. lia. }
    { apply poly1d_length. }
    pose proof (poly1d_length [nth j w f_zero]) as H1. cbn [length] in H1.
    pose proof (filter_neq_seq_length j 3 Hj) as Hf.
    assert (Hpt : (1 <= length pt <= 3)%nat) by lia.
    rewrite E. cbn [bind].
    pose proof (polyadd_length p pt) as Ha.
    destruct Hcase as [He|(j0 & k0 & Hj0 & Hk0 & Hne & Heq)].
    + apply IH; [intros j' Hj'; apply Hin; now right|lia|].
      left. now apply polyadd_ends_l.
    + destruct (Nat.eq_dec j0 j) as [->|Hjj].
      * assert (Hsplit : exists pre post, seq 0 3 = pre ++ k0 :: post).
        { apply in_split, in_seq. lia. }
        destruct Hsplit as (pre & post & Hs).
        destruct (lagrange_inner_hits x j k0 pre post
                    (poly1d [nth j w f_zero])) as (pt' & E' & Hnf & Hl').
        { intros k Hk. rewrite <- Hs in Hk. apply in_seq in Hk. lia. }
        { apply poly1d_length. }
        { exact Hne. }
        { exact Heq. }
        rewrite <- Hs, E in E'. inversion E'; subst pt'.
        apply IH; [intros j' Hj'; apply Hin; now right|lia|].
        left. apply polyadd_ends_r; [exact Hp|].
        apply Forall_nonfinite_ends; [exact Hnf|lia].
      * apply IH; [intros j' Hj'; apply Hin; now right|lia|].
        right. exists j0, k0. repeat split; try assumption.
        destruct Hj0 as [Hj0|Hj0]; [congruence|exact Hj0].
Qed.

(** [p.coef] of three nodes of which two coincide: two or three
    coefficients, the last two inf or NaN. *)
Lemma lagrange_degenerate (x0 x1 x2 y0 y1 y2 : F) :
  x0 = x1 \/ x0 = x2 \/ x1 = x2 ->
  exists coef,
    lagrange [x0; x1; x2] [y0; y1; y2] = Ok coef /\ ends_nonfinite coef.
Proof.
  intros H. unfold lagrange.
  apply (lagrange_outer_ends [x0; x1; x2] [y0; y1; y2] eq_refl
           (Nat.le_refl 3)).
  - intros j Hj. apply in_seq in Hj. cbn in Hj. lia.
  - pose proof (poly1d_length [f_zero]) as H1. cbn [length] in H1. lia.
  - right. destruct H as [H|[H|H]].
    + exists 0%nat, 1%nat. cbn. repeat split; auto; lia.
    + exists 0%nat, 2%nat. cbn. repeat split; auto; lia.
    + exists 1%nat, 2%nat. cbn. repeat split; auto; lia.
Qed.

Lemma ends_nonfinite_row (coef : list F) :
  ends_nonfinite coef ->
  row_of_coef coef = Raise ValueError \/
  exists r, row_of_coef coef = Ok r /\ row_value r = NonFinite.
Proof.
  intros [(u & v & -> & Hu & Hv)|(t & u & v & -> & Hu & Hv)].
  - now left.
  - right. exists (t, u, v). split; [reflexivity|].
    unfold row_value. unfold nonfinite in Hu. rewrite Hu.
    now destruct (f_value t).
Qed.

End Degenerate.

(** ** poly1d in exact arithmetic: raw arithmetic, trimmed *)

Lemma exact_is_zero_0 : f_is_zero (Finite 0) = true.
Proof. cbn. destruct (Req_dec_T 0 0) as [_|N]; [reflexivity|now elim N]. Qed.

Lemma exact_is_zero_nz c : c <> 0 -> f_is_zero (Finite c) = false.
Proof. intros H. cbn. destruct (Req_dec_T c 0); [contradiction|easy]. Qed.

Lemma exact_div_nz (a b : R) :
  b <> 0 -> f_div (Finite a) (Finite b) = Finite (a / b).
Proof. intros H. cbn. destruct (Req_dec_T b 0); [contradiction|easy]. Qed.

Lemma exact_poly1d_0 (l : list (f64 R)) : poly1d (Finite 0 :: l) = poly1d l.
Proof. unfold poly1d. cbn [trim_zeros_f]. now rewrite exact_is_zero_0. Qed.

Lemma exact_poly1d_nz c (l : list (f64 R)) :
  c <> 0 -> poly1d (Finite c :: l) = Finite c :: l.
Proof.
  intros H. unfold poly1d. cbn [trim_zeros_f].
  now rewrite exact_is_zero_nz.
Qed.

Lemma exact_poly1d_single c : poly1d [Finite c] = [Finite c].
Proof.
  destruct (Req_dec_T c 0) as [->|H].
  - rewrite exact_poly1d_0. reflexivity.
  - now apply exact_poly1d_nz.
Qed.

Lemma exact_poly1d_zeros (l : list (f64 R)) :
  Forall (fun c => c = Finite 0) l -> poly1d l = [Finite 0].
Proof.
  induction 1 as [|c l Hc _ IH]; [reflexivity|].
  subst c. now rewrite exact_poly1d_0.
Qed.

(** An operation blind to one leading zero is blind to trimming. *)
Lemma exact_poly1d_insensitive (op : list (f64 R) -> list (f64 R)) :
  (forall p, Forall is_finite p ->
     poly1d (op (Finite 0 :: p)) = poly1d (op p)) ->
  forall p, Forall is_finite p -> poly1d (op (poly1d p)) = poly1d (op p).
Proof.
  intros H p Hp; induction Hp as [|v p [c ->] Hp IH].
  - apply (H [] (Forall_nil _)).
  - destruct (Req_dec_T c 0) as [->|Hc].
    + now rewrite exact_poly1d_0, IH, H.
    + now rewrite exact_poly1d_nz.
Qed.

Lemma Forall_finite_trim (l : list (f64 R)) :
  Forall is_finite l -> Forall is_finite (trim_zeros_f l).
Proof.
  induction 1 as [|c l Hc Hl IH]; [constructor|].
  cbn [trim_zeros_f]. destruct (f_is_zero c); [exact IH|now constructor].
Qed.

Lemma Forall_finite_poly1d (l : list (f64 R)) :
  Forall is_finite l -> Forall is_finite (poly1d l).
Proof.
  intros H. apply Forall_finite_trim in H. unfold poly1d.
  destruct (trim_zeros_f l); [|exact H].
  repeat constructor. now exists 0.
Qed.

Lemma Forall_finite_zipadd (a b : list (f64 R)) :
  Forall is_finite a -> Forall is_finite b -> Forall is_finite (zipadd a b).
Proof.
  intros Ha. revert b. induction Ha as [|x a [u ->] _ IH];
    intros b Hb; [constructor|].
  destruct Hb as [|y b [v ->] Hb]; [constructor|].
  rewrite zipadd_cons. constructor; [now eexists|now apply IH].
Qed.

Lemma Forall_finite_zeros n :
  Forall is_finite (repeat (Finite 0 : f64 R) n).
Proof. induction n; cbn; constructor; auto. now exists 0. Qed.

Lemma Forall_finite_polyadd_raw (p q : list (f64 R)) :
  Forall is_finite p -> Forall is_finite q ->
  Forall is_finite (polyadd_raw p q).
Proof.
  intros Hp Hq. unfold polyadd_raw.
  destruct (Nat.eqb _ _); [now apply Forall_finite_zipadd|].
  destruct (Nat.ltb _ _); apply Forall_finite_zipadd; try assumption;
    apply Forall_app; split; try assumption; apply Forall_finite_zeros.
Qed.

Lemma Forall_finite_map_mul c (q : list (f64 R)) :
  Forall is_finite q -> Forall is_finite (map (f_mul (Finite c)) q).
Proof.
  induction 1 as [|y q [v ->] _ IH]; cbn [map]; constructor;
    [now eexists|exact IH].
Qed.

Lemma Forall_finite_convolve (p q : list (f64 R)) :
  Forall is_finite p -> Forall is_finite q ->
  Forall is_finite (convolve p q).
Proof.
  intros Hp Hq. induction Hp as [|x p [c ->] Hp IH]; [constructor|].
  destruct p as [|a1 p].
  - cbn [convolve]. now apply Forall_finite_map_mul.
  - rewrite convolve_cons2. apply Forall_finite_zipadd.
    + apply Forall_app. split;
        [now apply Forall_finite_map_mul|apply Forall_finite_zeros].
    + constructor; [now exists 0|exact IH].
Qed.

Lemma exact_zipadd_zeros_l (zs l : list (f64 R)) :
  Forall (fun c => c = Finite 0) zs -> (length l <= length zs)%nat ->
  zipadd zs l = l.
Proof.
  intros Hz; revert l; induction Hz as [|z zs Hz0 _ IH]; intros [|y l] H;
    cbn [length] in H; try reflexivity; try lia.
  rewrite zipadd_cons, IH by lia. subst z. f_equal.
  destruct y as [y|]; cbn; [f_equal; ring|reflexivity].
Qed.

Lemma Forall_zero_repeat n :
  Forall (fun c : f64 R => c = Finite 0) (repeat (Finite 0) n).
Proof. induction n; simpl; constructor; auto. Qed.

Lemma Forall_zero_map_mul0 (q : list (f64 R)) :
  Forall is_finite q ->
  Forall (fun c => c = Finite 0) (map (f_mul (Finite 0)) q).
Proof.
  induction 1 as [|y q [v ->] _ IH]; cbn [map]; constructor; [|exact IH].
  cbn. f_equal. ring.
Qed.

Lemma repeat_snoc_cons {B} (z : B) (n : nat) (l : list B) :
  repeat z (S n) ++ l = repeat z n ++ z :: l.
Proof.
  induction n as [|n IH]; [reflexivity|].
  change (repeat z (S (S n)) ++ l) with (z :: (repeat z (S n) ++ l)).
  rewrite IH. reflexivity.
Qed.

Lemma exact_add_0_0 : f_add (Finite 0) (Finite 0) = Finite 0.
Proof. cbn. f_equal. ring. Qed.

Lemma exact_polyadd_raw_0_l (p q : list (f64 R)) :
  polyadd_raw (Finite 0 :: p) q = polyadd_raw p q \/
  polyadd_raw (Finite 0 :: p) q = Finite 0 :: polyadd_raw p q.
Proof.
  unfold polyadd_raw. cbn [length].
  change (@f_zero (f64 R) exact) with (Finite 0 : f64 R).
  destruct (Nat.eqb_spec (S (length p)) (length q)) as [E|NE].
  - left.
    destruct (Nat.eqb_spec (length p) (length q)); [lia|].
    destruct (Nat.ltb_spec (length p) (length q)); [|lia].
    replace (length q - length p)%nat with 1%nat by lia. reflexivity.
  - destruct (Nat.ltb_spec (S (length p)) (length q)) as [L|G].
    + left.
      destruct (Nat.eqb_spec (length p) (length q)); [lia|].
      destruct (Nat.ltb_spec (length p) (length q)); [|lia].
      replace (length q - length p)%nat
        with (S (length q - S (length p))) by lia.
      now rewrite repeat_snoc_cons.
    + right.
      replace (S (length p) - length q)%nat
        with (S (length p - length q)) by lia.
      cbn [repeat app]. rewrite zipadd_cons, exact_add_0_0. f_equal.
      destruct (Nat.eqb_spec (length p) (length q)) as [E|NE'].
      * replace (length p - length q)%nat with 0%nat by lia. reflexivity.
      * destruct (Nat.ltb_spec (length p) (length q)); [lia|reflexivity].
Qed.

Lemma exact_polyadd_raw_0_r (p q : list (f64 R)) :
  polyadd_raw p (Finite 0 :: q) = polyadd_raw p q \/
  polyadd_raw p (Finite 0 :: q) = Finite 0 :: polyadd_raw p q.
Proof.
  unfold polyadd_raw. cbn [length].
  change (@f_zero (f64 R) exact) with (Finite 0 : f64 R).
  destruct (Nat.eqb_spec (length p) (S (length q))) as [E|NE].
  - left.
    destruct (Nat.eqb_spec (length p) (length q)); [lia|].
    destruct (Nat.ltb_spec (length p) (length q)); [lia|].
    replace (length p - length q)%nat with 1%nat by lia. reflexivity.
  - destruct (Nat.ltb_spec (length p) (S (length q))) as [L|G].
    + right.
      replace (S (length q) - length p)%nat
        with (S (length q - length p)) by lia.
      cbn [repeat app]. rewrite zipadd_cons, exact_add_0_0. f_equal.
      destruct (Nat.eqb_spec (length p) (length q)) as [E|NE'].
      * replace (length q - length p)%nat with 0%nat by lia. reflexivity.
      * destruct (Nat.ltb_spec (length p) (length q)); [reflexivity|lia].
    + left.
      destruct (Nat.eqb_spec (length p) (length q)); [lia|].
      destruct (Nat.ltb_spec (length p) (length q)); [lia|].
      replace (length p - length q)%nat
        with (S (length p - S (length q))) by lia.
      now rewrite repeat_snoc_cons.
Qed.

(** [poly1d.__add__] of two trimmed polynomials. *)
Lemma exact_polyadd_poly1d (p q : list (f64 R)) :
  Forall is_finite p -> Forall is_finite q ->
  polyadd (poly1d p) (poly1d q) = poly1d (polyadd_raw p q).
Proof.
  intros Hp Hq. unfold polyadd.
  rewrite (exact_poly1d_insensitive (fun a => polyadd_raw a (poly1d q)))
    by first [ exact Hp
             | intros a _;
               destruct (exact_polyadd_raw_0_l a (poly1d q)) as [-> | ->];
               [reflexivity | apply exact_poly1d_0] ].
  apply (exact_poly1d_insensitive (fun a => polyadd_raw p a));
    [|exact Hq].
  intros a _. destruct (exact_polyadd_raw_0_r p a) as [-> | ->];
    [reflexivity | apply exact_poly1d_0].
Qed.

Lemma exact_convolve_0_r (p q : list (f64 R)) :
  p <> [] -> Forall is_finite p ->
  convolve p (Finite 0 :: q) = Finite 0 :: convolve p q.
Proof.
  intros Hne Hp. induction Hp as [|x p [c ->] Hp IH]; [congruence|].
  destruct p as [|a1 p].
  - cbn. f_equal. f_equal. ring.
  - rewrite !convolve_cons2, IH by discriminate.
    cbn [map app]. rewrite zipadd_cons. f_equal. cbn. f_equal. ring.
Qed.

Lemma exact_convolve_0_l (p q : list (f64 R)) :
  p <> [] -> q <> [] -> Forall is_finite q ->
  convolve (Finite 0 :: p) q = Finite 0 :: convolve p q.
Proof.
  intros Hp Hq Hfq.
  destruct p as [|a1 p]; [congruence|].
  destruct Hfq as [|q0 q [v ->] Hfq]; [congruence|].
  rewrite convolve_cons2. cbn [map app]. rewrite zipadd_cons.
  f_equal; [cbn; f_equal; ring|].
  apply exact_zipadd_zeros_l.
  - apply Forall_app; split;
      [now apply Forall_zero_map_mul0 | apply Forall_zero_repeat].
  - rewrite convolve_length by discriminate.
    rewrite length_app, length_map, repeat_length. cbn [length]. lia.
Qed.

(** [poly1d.__mul__] of two trimmed polynomials. *)
Lemma exact_polymul_poly1d (p q : list (f64 R)) :
  Forall is_finite p -> Forall is_finite q -> q <> [] ->
  polymul (poly1d p) (poly1d q) = poly1d (convolve p q).
Proof.
  intros Hp Hq Hne. unfold polymul. rewrite !poly1d_idem.
  rewrite (exact_poly1d_insensitive (fun a => convolve a (poly1d q)));
    [|
     |exact Hp].
  - apply (exact_poly1d_insensitive (fun a => convolve p a)); [|exact Hq].
    intros a _. destruct Hp as [|p0 p Hp0 Hp]; [reflexivity|].
    rewrite exact_convolve_0_r by (try discriminate; now constructor).
    apply exact_poly1d_0.
  - intros a _. destruct a as [|a0 a].
    + cbn [convolve]. apply exact_poly1d_zeros, Forall_zero_map_mul0.
      now apply Forall_finite_poly1d.
    + rewrite exact_convolve_0_l;
        [apply exact_poly1d_0 | discriminate | apply poly1d_not_nil
        | now apply Forall_finite_poly1d].
Qed.

(** Division of a trimmed polynomial by a scalar that is not zero. *)
Lemma exact_polydiv_scalar_poly1d (p : list (f64 R)) fac :
  fac <> 0 -> Forall is_finite p ->
  polydiv_scalar (poly1d p) (Finite fac)
  = poly1d (map (fun c => f_div c (Finite fac)) p).
Proof.
  intros Hf Hp. unfold polydiv_scalar.
  apply (exact_poly1d_insensitive
           (fun a => map (fun c => f_div c (Finite fac)) a)); [|exact Hp].
  intros a _. cbn [map]. rewrite exact_div_nz by exact Hf.
  replace (0 / fac) with 0 by (unfold Rdiv; ring).
  apply exact_poly1d_0.
Qed.

(** ** lagrange on three nodes, in exact arithmetic *)

Lemma lagrange3_exact x0 x1 x2 y0 y1 y2 :
  x0 <> x1 -> x0 <> x2 -> x1 <> x2 ->
  lagrange [Finite x0; Finite x1; Finite x2]
           [Finite y0; Finite y1; Finite y2]
  = Ok (poly1d [Finite (La x0 x1 x2 y0 y1 y2);
                Finite (Lb x0 x1 x2 y0 y1 y2);
                Finite (Lc x0 x1 x2 y0 y1 y2)]).
Proof.
  intros H01 H02 H12.
  unfold lagrange. cbn [length seq lagrange_outer getitem nth_error bind
                         lagrange_inner Nat.eqb].
  change (@f_sub (f64 R) exact) with Exact.sub.
  change (@f_opp (f64 R) exact) with Exact.opp.
  change (@f_one (f64 R) exact) with (Finite 1 : f64 R).
  change (@f_zero (f64 R) exact) with (Finite 0 : f64 R).
  cbn [Exact.sub Exact.opp].
  assert (Hfin2 : forall a b : R, Forall is_finite [Finite a; Finite b])
    by (intros; repeat constructor; now eexists).
  assert (Hfin1 : forall a : R, Forall is_finite [Finite a])
    by (intros; repeat constructor; now eexists).
  rewrite !exact_polydiv_scalar_poly1d by (auto; lra).
  cbn [map]. rewrite !exact_div_nz by lra.
  rewrite !exact_polymul_poly1d
    by first [ discriminate | apply Hfin2 | apply Hfin1
             | apply Forall_finite_convolve; auto ].
  cbn [bind].
  rewrite !exact_polyadd_poly1d
    by (repeat first [ apply Hfin1 | apply Hfin2
                     | apply Forall_finite_convolve
                     | apply Forall_finite_polyadd_raw ]).
  f_equal. f_equal. cbn.
  unfold La, Lb, Lc.
  f_equal; [f_equal; field; repeat split; lra|].
  f_equal; [f_equal; field; repeat split; lra|].
  f_equal. f_equal. field; repeat split; lra.
Qed.



(** ** Rows read as real numbers *)

Section RowValues.
Context {F : Type} {A : Float64 F}.

Lemma row_value_cases (r : frow F) :
  (exists r', row_value r = Ok r') \/ row_value r = NonFinite.
Proof.
  destruct r as [[a b] c]. unfold row_value.
  destruct (f_value a); [|now right].
  destruct (f_value b); [|now right].
  destruct (f_value c); [|now right].
  left. now eexists.
Qed.

Lemma rows_values_cases (l : list (frow F)) :
  (exists rows, rows_values l = Ok rows) \/ rows_values l = NonFinite.
Proof.
  induction l as [|r l IH]; [left; now eexists|].
  cbn [rows_values].
  destruct (row_value_cases r) as [[r' ->]| ->]; [|now right].
  cbn [bind]. destruct IH as [[rows ->]| ->]; [|now right].
  left. now eexists.
Qed.

Lemma rows_values_inv (l : list (frow F)) :
  forall rows,
    rows_values l = Ok rows ->
    length rows = length l /\
    forall k r, nth_error l k = Some r ->
      exists r', row_value r = Ok r' /\ nth_error rows k = Some r'.
Proof.
  induction l as [|r0 l IH]; intros rows H.
  - cbn in H. inversion H; subst. split; [reflexivity|].
    intros [|k] r Hk; discriminate.
  - cbn [rows_values] in H.
    destruct (row_value r0) as [r0'| |] eqn:E0; try discriminate.
    cbn [bind] in H.
    destruct (rows_values l) as [rs| |] eqn:El; try discriminate.
    cbn [bind] in H. inversion H; subst.
    destruct (IH rs eq_refl) as [Hlen Hrows].
    split; [cbn [length]; now rewrite Hlen|].
    intros [|k] r Hk; cbn [nth_error] in *.
    + inversion Hk; subst. now exists r0'.
    + now apply Hrows.
Qed.

Lemma rows_values_nonfinite (l : list (frow F)) k r :
  nth_error l k = Some r -> row_value r = NonFinite ->
  rows_values l = NonFinite.
Proof.
  intros Hk Hr.
  destruct (rows_values_cases l) as [[rows H]|H]; [|exact H].
  destruct (rows_values_inv l rows H) as [_ Hv].
  destruct (Hv k r Hk) as (r' & E & _). congruence.
Qed.

(** A series of three samples: one pass of the loop. *)
Lemma LagrangeInterpol_three (x0 x1 x2 y0 y1 y2 : F) :
  LagrangeInterpol (zeros_rows (3 / 2)) [x0; x1; x2] [y0; y1; y2]
  = (coef <- lagrange [x0; x1; x2] [y0; y1; y2] ;;
     r <- row_of_coef coef ;; Ok [r]).
Proof.
  rewrite LagrangeInterpol_rows; [|reflexivity|vm_compute; lia].
  change (nseg [x0; x1; x2]) with 1%nat.
  cbn [seq rows_loop]. unfold seg_row, seg_coef. cbn [Nat.mul Nat.add nth].
  destruct (lagrange [x0; x1; x2] [y0; y1; y2]) as [coef| |];
    reflexivity.
Qed.

End RowValues.

(** ** Segments in exact arithmetic *)

Lemma seg_coef_exact (Time Signal : list R) q :
  seg_coef (map Finite Time) (map Finite Signal) q
  = lagrange
      [Finite (nth (2 * q) Time 0); Finite (nth (2 * q + 1) Time 0);
       Finite (nth (2 * q + 2) Time 0)]
      [Finite (nth (2 * q) Signal 0); Finite (nth (2 * q + 1) Signal 0);
       Finite (nth (2 * q + 2) Signal 0)].
Proof.
  unfold seg_coef.
  change (@f_zero (f64 R) exact) with (Finite 0 : f64 R).
  now rewrite !(map_nth Finite).
Qed.


Lemma exact_row_value_inv (r : frow (f64 R)) r' :
  row_value r = Ok r' -> r = exact_row r'.
Proof.
  destruct r as [[a b] c]. unfold row_value. cbn.
  destruct a, b, c; try discriminate. intros H; now inversion H.
Qed.

(** A finite row of segment [q] in exact arithmetic: the nodes are
    pairwise distinct and the row is the stored [poly1d] of the Lagrange
    coefficients. *)
Lemma seg_row_exact_inv (Time Signal : list R) q r r' :
  seg_row (map Finite Time) (map Finite Signal) q = Ok r ->
  row_value r = Ok r' ->
  let x0 := nth (2 * q) Time 0 in
  let x1 := nth (2 * q + 1) Time 0 in
  let x2 := nth (2 * q + 2) Time 0 in
  let y0 := nth (2 * q) Signal 0 in
  let y1 := nth (2 * q + 1) Signal 0 in
  let y2 := nth (2 * q + 2) Signal 0 in
  x0 <> x1 /\ x0 <> x2 /\ x1 <> x2 /\
  row_of_coef (poly1d [Finite (La x0 x1 x2 y0 y1 y2);
                       Finite (Lb x0 x1 x2 y0 y1 y2);
                       Finite (Lc x0 x1 x2 y0 y1 y2)]) = Ok r.
Proof.
  intros Hr Hv. cbv zeta. unfold seg_row in Hr.
  rewrite seg_coef_exact in Hr.
  assert (Hd : ~ (nth (2 * q) Time 0 = nth (2 * q + 1) Time 0 \/
                  nth (2 * q) Time 0 = nth (2 * q + 2) Time 0 \/
                  nth (2 * q + 1) Time 0 = nth (2 * q + 2) Time 0)).
  { intros Hdeg.
    destruct (lagrange_degenerate
                (Finite (nth (2 * q) Time 0))
                (Finite (nth (2 * q + 1) Time 0))
                (Finite (nth (2 * q + 2) Time 0))
                (Finite (nth (2 * q) Signal 0))
                (Finite (nth (2 * q + 1) Signal 0))
                (Finite (nth (2 * q + 2) Signal 0)))
      as (coef & Hc & He).
    { destruct Hdeg as [E|[E|E]]; rewrite E; auto. }
    rewrite Hc in Hr. cbn [bind] in Hr.
    destruct (ends_nonfinite_row coef He) as [E|(r0 & E & E0)];
      congruence. }
  assert (H01 : nth (2 * q) Time 0 <> nth (2 * q + 1) Time 0) by tauto.
  assert (H02 : nth (2 * q) Time 0 <> nth (2 * q + 2) Time 0) by tauto.
  assert (H12 : nth (2 * q + 1) Time 0 <> nth (2 * q + 2) Time 0) by tauto.
  repeat split; try assumption.
  rewrite lagrange3_exact in Hr by assumption. exact Hr.
Qed.

Lemma row_of_coef_lead a b c :
  a <> 0 ->
  row_of_coef (poly1d [Finite a; Finite b; Finite c])
  = Ok (exact_row (a, b, c)).
Proof. intros H. now rewrite exact_poly1d_nz. Qed.






(** The real number of the float64 1.0. *)
Lemma binary64_value_one : f_value 1%float = Finite 1.
Proof.
  unfold f_value, binary64.
  change (Prim2SF 1%float) with (S754_finite false 4503599627370496 (-52)).
  cbn [SF_value]. f_equal. unfold powerRZ.
  change (Pos.to_nat 52) with 52%nat. simpl pow. lra.
Qed.

(** C6.  The code breaks the round trip on samples that lie on a line, in
    float64 and in exact arithmetic alike.  With times 0, 1, 2 and the
    constant signal 1, 1, 1 the interpolant is the constant 1, [p.coef]
    has one element and the store broadcasts it: the row is (1, 1, 1), the
    quadratic t^2 + t + 1, which is 3 at t = 1.  With the signal 0, 1, 2
    [p.coef] has two elements and the store raises ValueError. *)
Theorem LagrangeInterpol_collinear_samples :
  (LagrangeInterpol (zeros_rows (3 / 2)) [0; 1; 2]%float [1; 1; 1]%float
     = Ok [(1, 1, 1)%float] /\
   rows_values [(1, 1, 1)%float] = Ok [(1, 1, 1)] /\
   LagrangeInterpol (zeros_rows (3 / 2)) [0; 1; 2]%float [0; 1; 2]%float
     = Raise ValueError) /\
  (LagrangeInterpol (zeros_rows (3 / 2))
     [Finite 0; Finite 1; Finite 2] [Finite 1; Finite 1; Finite 1]
     = Ok [exact_row (1, 1, 1)] /\
   LagrangeInterpol (zeros_rows (3 / 2))
     [Finite 0; Finite 1; Finite 2] [Finite 0; Finite 1; Finite 2]
     = Raise ValueError) /\
  ~ passes_through (1, 1, 1) 1 1.
Proof.
  split; [|split].
  - split; [vm_compute; reflexivity|]. split; [|vm_compute; reflexivity].
    cbn [rows_values row_value]. rewrite binary64_value_one. reflexivity.
  - split.
    + rewrite LagrangeInterpol_three, lagrange3_exact by lra.
      assert (Ea : La 0 1 2 1 1 1 = 0) by (unfold La; field).
      assert (Eb : Lb 0 1 2 1 1 1 = 0) by (unfold Lb; field).
      assert (Ec : Lc 0 1 2 1 1 1 = 1) by (unfold Lc; field).
      rewrite Ea, Eb, Ec, !exact_poly1d_0, exact_poly1d_single.
      reflexivity.
    + rewrite LagrangeInterpol_three, lagrange3_exact by lra.
      assert (Ea : La 0 1 2 0 1 2 = 0) by (unfold La; field).
      assert (Eb : Lb 0 1 2 0 1 2 = 1) by (unfold Lb; field).
      rewrite Ea, Eb, exact_poly1d_0, exact_poly1d_nz by lra.
      reflexivity.
  - unfold passes_through. lra.
Qed.

(** C7, as the code has it.  There is no check for coinciding time values.
    Whatever the arithmetic, when two of the three times of segment [i]
    coincide, [lagrange] divides by the zero difference and returns a
    [p.coef] of two or three entries whose last two are inf or NaN; then
    [LagrangeInterpol] either raises ValueError (some [p.coef] of two
    entries cannot be stored in a row) or returns, with inf or NaN in row
    [i].  No other error is raised. *)
Theorem LagrangeInterpol_degenerate (F : Type) (A : Float64 F)
    (L : Float64Laws F) (Time Signal : list F) (i : nat) :
  length Signal = length Time ->
  (i < (length Time - 1) / 2)%nat ->
  degenerate_segment Time f_zero i ->
  (exists coef, seg_coef Time Signal i = Ok coef /\ ends_nonfinite coef) /\
  (LagrangeInterpol (zeros_rows (length Time / 2)) Time Signal
     = Raise ValueError \/
   exists Coeffs r,
     LagrangeInterpol (zeros_rows (length Time / 2)) Time Signal = Ok Coeffs /\
     nth_error Coeffs i = Some r /\ row_value r = NonFinite /\
     rows_values Coeffs = NonFinite).
Proof.
  intros HS Hi Hdeg. fold (nseg Time) in Hi.
  destruct (lagrange_degenerate
              (nth (2 * i) Time f_zero) (nth (2 * i + 1) Time f_zero)
              (nth (2 * i + 2) Time f_zero)
              (nth (2 * i) Signal f_zero) (nth (2 * i + 1) Signal f_zero)
              (nth (2 * i + 2) Signal f_zero) Hdeg) as (coef & Hc & He).
  fold (seg_coef Time Signal i) in Hc.
  split; [now exists coef|].
  pose proof (nseg_le_half Time) as Hhalf.
  rewrite LagrangeInterpol_rows;
    [| exact HS | rewrite length_zeros_rows; exact Hhalf].
  destruct (rows_loop_cases Time Signal (seq 0 (nseg Time)) 0
              (zeros_rows (length Time / 2)))
    as [[[res Hres] _]|[Herr _]]; [|now left].
  right.
  destruct (rows_loop_inv Time Signal _ _ _ _ Hres) as (_ & Hval & _).
  { rewrite length_seq, length_zeros_rows; lia. }
  destruct (Hval i i) as (r & Hr & Hnth).
  { rewrite nth_error_seq. now rewrite (proj2 (Nat.ltb_lt _ _) Hi). }
  unfold seg_row in Hr. rewrite Hc in Hr. cbn [bind] in Hr.
  destruct (ends_nonfinite_row coef He) as [E|(r0 & E & E0)];
    [congruence|].
  assert (r0 = r) by congruence. subst r0.
  exists res, r. split; [exact Hres|]. split; [exact Hnth|].
  split; [exact E0|]. exact (rows_values_nonfinite res i r Hnth E0).
Qed.

Lemma LagrangeInterpol_degenerate_witness :
  (exists coef,
     seg_coef [0; 1; 2; 2; 3]%float [0; 1; 4; 5; 6]%float 1 = Ok coef /\
     ends_nonfinite coef) /\
  (LagrangeInterpol (zeros_rows (5 / 2))
     [0; 1; 2; 2; 3]%float [0; 1; 4; 5; 6]%float = Raise ValueError \/
   exists Coeffs r,
     LagrangeInterpol (zeros_rows (5 / 2))
       [0; 1; 2; 2; 3]%float [0; 1; 4; 5; 6]%float = Ok Coeffs /\
     nth_error Coeffs 1 = Some r /\ row_value r = NonFinite /\
     rows_values Coeffs = NonFinite).
Proof.
  apply (LagrangeInterpol_degenerate float binary64 binary64_laws
           [0; 1; 2; 2; 3]%float [0; 1; 4; 5; 6]%float 1).
  - reflexivity.
  - vm_compute; lia.
  - left; reflexivity.
Defined.

(** C7 as stated fails: in float64, on times 0, 0, 1 no error is raised
    and the row holds -inf and NaN; on times 0, 1, 1 with a zero signal
    the error is the ValueError of the store. *)
Lemma LagrangeInterpol_no_degenerate_error :
  LagrangeInterpol (zeros_rows (3 / 2)) [0; 0; 1]%float [1; 2; 3]%float
    = Ok [(neg_infinity, nan, nan)] /\
  LagrangeInterpol (zeros_rows (3 / 2)) [0; 1; 1]%float [0; 0; 0]%float
    = Raise ValueError.
Proof. split; vm_compute; reflexivity. Qed.


(** C8, as the code has it.  [Imp = 1/Adm] is an elementwise numpy
    division: at every index [k] where the admittance is zero it raises
    nothing and leaves inf/NaN in the impedance array, which keeps the
    length of the admittance array. *)
Theorem Imp_singular (Adm : list C) (k : nat) :
  nth_error Adm k = Some C0 ->
  nth_error (Imp Adm) k = Some InfNaN /\ length (Imp Adm) = length Adm.
Proof.
  intros H. unfold Imp. split.
  - rewrite nth_error_map, H. cbn. now rewrite recip_zero.
  - apply length_map.
Qed.

Lemma Imp_singular_witness :
  nth_error (Imp [C0]) 0 = Some InfNaN /\ length (Imp [C0]) = 1%nat.
Proof. apply (Imp_singular [C0] 0). reflexivity. Defined.

(** C8 as stated fails: a zero transform and a zero QACF[0] give a zero
    admittance, and the impedance is inf/NaN, not an error. *)
Lemma Imp_no_singular_error :
  adm_of_DFT beta [C0] [1] [0] = Ok [C0] /\ Imp [C0] = [InfNaN].
Proof.
  split.
  - unfold adm_of_DFT. cbn.
    do 2 f_equal. unfold adm_value. apply C_eq; simpl; ring.
  - unfold Imp. cbn. now rewrite recip_zero.
Qed.


Lemma short_series_ranges {B} (Time : list B) :
  (length Time < 3)%nat ->
  range2 1 (length Time - 1) = [] /\ range2 0 (length Time - 2) = [].
Proof.
  destruct Time as [|a [|b [|c t]]]; cbn [length]; intros H;
    try lia; split; reflexivity.
Qed.

Lemma filon_outer_no_segment Time coeffs :
  range2 0 (length Time - 2) = [] ->
  forall freq ifreq DFT, filon_outer freq ifreq Time coeffs DFT = Ok DFT.
Proof.
  intros E freq; induction freq as [|ff freq IH]; intros ifreq DFT;
    [reflexivity|].
  cbn [filon_outer]. rewrite E. cbn [filon_inner bind]. apply IH.
Qed.

Section ShortSeries.
Context {F : Type} {A : Float64 F} {L : Float64Laws F}.

Lemma rows_values_zeros n :
  rows_values (zeros_rows (F := F) n) = Ok (repeat (0, 0, 0) n).
Proof.
  induction n as [|n IH]; [reflexivity|].
  unfold zeros_rows in *. cbn [repeat rows_values row_value].
  rewrite f_value_zero. cbn [bind]. now rewrite IH.
Qed.

(** Fewer than three samples: no segment, the transform stays zero. *)
Lemma raw_transform_short (store : R -> F) (Time QACF freq : list R) :
  (length Time < 3)%nat ->
  raw_transform store Time QACF freq = Ok (zeros_c (length freq)).
Proof.
  intros Hlen.
  destruct (short_series_ranges Time Hlen) as [E1 E2].
  unfold raw_transform, LagrangeInterpol, FilonLagrange.
  rewrite length_map, E1. cbn [interpol_loop bind].
  rewrite rows_values_zeros. cbn [bind].
  now rewrite (filon_outer_no_segment Time _ E2).
Qed.

End ShortSeries.




(** ** Scaling the signal *)


























(** * Further properties of the code *)

(** ** Buffers keep their length and their other slots *)

Lemma setitem_inv {A} (l l' : list A) i v :
  setitem l i v = Ok l' -> (i < length l)%nat /\ l' = upd l i v.
Proof.
  unfold setitem. destruct (Nat.ltb_spec i (length l)) as [Hlt|Hge];
    [|discriminate].
  intros E; inversion E; split; [assumption|reflexivity].
Qed.

Lemma filon_body_frame ff ifreq Time coeffs DFT it ip D :
  filon_body ff ifreq Time coeffs DFT it ip = Ok D ->
  length D = length DFT /\
  forall k, k <> ifreq -> nth_error D k = nth_error DFT k.
Proof.
  unfold filon_body.
  destruct (getitem Time it) as [t1| |]; try discriminate.
  destruct (getitem Time (it + 2)) as [t2| |]; try discriminate.
  destruct (getitem coeffs ip) as [[[a b] c]| |]; try discriminate.
  cbn [bind].
  destruct (getitem DFT ifreq) as [d| |]; try discriminate.
  cbn [bind].
  destruct (Req_dec_T (ff ^ 3) 0); [discriminate|].
  intros H. apply setitem_inv in H. destruct H as [_ ->]. split.
  - apply length_upd.
  - intros k Hk. apply nth_error_upd_neq. congruence.
Qed.

Lemma filon_inner_frame ff ifreq Time coeffs :
  forall its ip DFT D,
    filon_inner ff ifreq Time coeffs its ip DFT = Ok D ->
    length D = length DFT /\
    forall k, k <> ifreq -> nth_error D k = nth_error DFT k.
Proof.
  induction its as [|it its IH]; intros ip DFT D H.
  - cbn in H. inversion H. split; auto.
  - cbn [filon_inner] in H.
    destruct (filon_body ff ifreq Time coeffs DFT it ip) as [D1| |] eqn:E;
      try discriminate.
    cbn [bind] in H. apply filon_body_frame in E. destruct E as [L1 F1].
    apply IH in H. destruct H as [L2 F2]. split.
    + congruence.
    + intros k Hk. rewrite F2, F1 by assumption. reflexivity.
Qed.

Lemma filon_outer_frame Time coeffs :
  forall fs ifreq DFT F,
    filon_outer fs ifreq Time coeffs DFT = Ok F ->
    length F = length DFT /\
    forall k, (k < ifreq \/ ifreq + length fs <= k)%nat ->
      nth_error F k = nth_error DFT k.
Proof.
  induction fs as [|ff fs IH]; intros ifreq DFT F H.
  - cbn in H. inversion H. split; auto.
  - cbn [filon_outer] in H.
    destruct (filon_inner ff ifreq Time coeffs _ 0 DFT) as [D1| |] eqn:E;
      try discriminate.
    cbn [bind] in H. apply filon_inner_frame in E. destruct E as [L1 F1].
    apply IH in H. destruct H as [L2 F2]. split.
    + congruence.
    + intros k Hk. cbn [length] in Hk.
      rewrite F2 by lia. apply F1. lia.
Qed.

Lemma Csum_from_shift (d : C) (l : list C) :
  Csum_from d l = (d + Csum_from C0 l)%C.
Proof.
  unfold Csum_from. revert d; induction l as [|z l IH]; intros d.
  - cbn. apply C_eq; simpl; ring.
  - cbn [fold_left]. rewrite IH, (IH (C0 + z)%C).
    apply C_eq; simpl; ring.
Qed.

(** X1.  [FilonLagrange] adds to the buffer it is given: on a grid of
    non-zero frequencies, with a row for every segment and a buffer at
    least as long as the grid, slot [k] of the result is the old content
    plus the sum over the segments, the slots past the grid are unchanged
    and the buffer keeps its length. *)
Theorem FilonLagrange_accumulates (DFT : list C) (fs Time : list R)
    (coeffs : list row) :
  (forall w, In w fs -> w <> 0) ->
  (nseg Time <= length coeffs)%nat ->
  (length fs <= length DFT)%nat ->
  exists F,
    FilonLagrange DFT fs Time coeffs = Ok F /\
    length F = length DFT /\
    (forall k w d, nth_error fs k = Some w -> nth_error DFT k = Some d ->
       nth_error F k = Some (d + filon_sum w Time coeffs)%C) /\
    (forall k, (length fs <= k)%nat -> nth_error F k = nth_error DFT k).
Proof.
  intros Hnz Hrows Hlen. unfold FilonLagrange.
  destruct (filon_outer_Ok Time coeffs Hrows fs 0%nat DFT)
    as (F & HF & HlenF & _ & Hval).
  - intros w Hw; apply pow3_nonzero, Hnz, Hw.
  - lia.
  - exists F. split; [exact HF|]. split; [exact HlenF|]. split.
    + intros k w d Hk Hd. specialize (Hval k w Hk).
      change (0 + k)%nat with k in Hval.
      rewrite Hval, (nth_error_nth _ _ _ Hd), Csum_from_shift.
      reflexivity.
    + intros k Hk. apply (filon_outer_frame _ _ _ _ _ _ HF). lia.
Qed.

Lemma FilonLagrange_accumulates_witness :
  exists F,
    FilonLagrange [RtoC 5; RtoC 7] [1] [0; 1; 2] [(1, 0, 0)] = Ok F /\
    nth_error F 1 = Some (RtoC 7).
Proof.
  destruct (FilonLagrange_accumulates [RtoC 5; RtoC 7] [1] [0; 1; 2]
              [(1, 0, 0)]) as (F & HF & _ & _ & Hrest).
  - intros w [<-|[]]; lra.
  - vm_compute; lia.
  - simpl; lia.
  - exists F. split; [exact HF|]. apply (Hrest 1%nat). simpl; lia.
Defined.


(** ** Rows that are one quadratic *)

Lemma La_quadratic a b c x0 x1 x2 :
  x0 <> x1 -> x0 <> x2 -> x1 <> x2 ->
  La x0 x1 x2 (a * x0 ^ 2 + b * x0 + c) (a * x1 ^ 2 + b * x1 + c)
     (a * x2 ^ 2 + b * x2 + c) = a.
Proof. intros; unfold La; field; repeat split; lra. Qed.

Lemma Lb_quadratic a b c x0 x1 x2 :
  x0 <> x1 -> x0 <> x2 -> x1 <> x2 ->
  Lb x0 x1 x2 (a * x0 ^ 2 + b * x0 + c) (a * x1 ^ 2 + b * x1 + c)
     (a * x2 ^ 2 + b * x2 + c) = b.
Proof. intros; unfold Lb; field; repeat split; lra. Qed.

Lemma Lc_quadratic a b c x0 x1 x2 :
  x0 <> x1 -> x0 <> x2 -> x1 <> x2 ->
  Lc x0 x1 x2 (a * x0 ^ 2 + b * x0 + c) (a * x1 ^ 2 + b * x1 + c)
     (a * x2 ^ 2 + b * x2 + c) = c.
Proof. intros; unfold Lc; field; repeat split; lra. Qed.

(** Adjacent segments with one quadratic: the sum telescopes. *)
Lemma filon_term_chain w a b c (T : nat -> R) m :
  Csum_from C0
    (map (fun i => filon_term w (T (2 * i)%nat) (T (2 * i + 2)%nat) a b c)
         (seq 0 m))
  = filon_term w (T 0%nat) (T (2 * m)%nat) a b c.
Proof.
  induction m as [|m IH].
  - cbn. rewrite filon_term_primitive.
    destruct (FL_primitive w a b c (T 0%nat)) as [u v].
    apply C_eq; simpl; ring.
  - rewrite seq_S, map_app. unfold Csum_from in *.
    rewrite fold_left_app, IH. cbn [map fold_left Nat.add].
    replace (2 * S m)%nat with (2 * m + 2)%nat by lia.
    rewrite !filon_term_primitive.
    destruct (FL_primitive w a b c (T 0%nat)) as [u0 v0].
    destruct (FL_primitive w a b c (T (2 * m)%nat)) as [u1 v1].
    destruct (FL_primitive w a b c (T (2 * m + 2)%nat)) as [u2 v2].
    apply C_eq; simpl; ring.
Qed.

(** Finite rows returned in exact arithmetic: every segment has pairwise
    distinct nodes and its row is the stored [poly1d] of the Lagrange
    coefficients. *)
Lemma LagrangeInterpol_exact_inv (Time Signal : list R) Coeffs rows :
  length Signal = length Time ->
  LagrangeInterpol (zeros_rows (length Time / 2))
    (map Finite Time) (map Finite Signal) = Ok Coeffs ->
  rows_values Coeffs = Ok rows ->
  length rows = (length Time / 2)%nat /\
  forall q, (q < nseg Time)%nat ->
    let x0 := nth (2 * q) Time 0 in
    let x1 := nth (2 * q + 1) Time 0 in
    let x2 := nth (2 * q + 2) Time 0 in
    let y0 := nth (2 * q) Signal 0 in
    let y1 := nth (2 * q + 1) Signal 0 in
    let y2 := nth (2 * q + 2) Signal 0 in
    exists r,
      nth_error rows q = Some r /\
      x0 <> x1 /\ x0 <> x2 /\ x1 <> x2 /\
      row_of_coef (poly1d [Finite (La x0 x1 x2 y0 y1 y2);
                           Finite (Lb x0 x1 x2 y0 y1 y2);
                           Finite (Lc x0 x1 x2 y0 y1 y2)])
      = Ok (exact_row r).
Proof.
  intros HS H Hv.
  assert (Hns : nseg (map (@Finite R) Time) = nseg Time)
    by (unfold nseg; now rewrite length_map).
  rewrite LagrangeInterpol_rows in H;
    [| now rewrite !length_map
     | rewrite length_zeros_rows, Hns; apply nseg_le_half].
  destruct (rows_loop_inv _ _ _ _ _ _ H) as (Hlen & Hval & _).
  { rewrite length_seq, length_zeros_rows, Hns. cbn [Nat.add].
    apply nseg_le_half. }
  destruct (rows_values_inv _ _ Hv) as [Hlr Hfin].
  rewrite length_zeros_rows in Hlen. split; [now rewrite Hlr|].
  intros q Hq. cbv zeta.
  destruct (Hval q q) as (r & Hr & Hnth).
  { rewrite nth_error_seq.
    destruct (Nat.ltb_spec q (nseg (map (@Finite R) Time)));
      [reflexivity | lia]. }
  destruct (Hfin q r Hnth) as (r' & Hr' & Hq').
  pose proof (seg_row_exact_inv Time Signal q r r' Hr Hr') as Hinv.
  cbv zeta in Hinv. destruct Hinv as (H01 & H02 & H12 & Hcoef).
  exists r'. rewrite <- (exact_row_value_inv _ _ Hr').
  repeat split; assumption.
Qed.

(** [FilonLagrange] on rows that all hold one quadratic. *)
Lemma FilonLagrange_common_row (fs Time : list R) (rows : list row)
    (a b c : R) (F : list C) :
  (forall q, (q < nseg Time)%nat -> nth_error rows q = Some (a, b, c)) ->
  (forall w, In w fs -> 0 < w) ->
  FilonLagrange (zeros_c (length fs)) fs Time rows = Ok F ->
  length F = length fs /\
  forall k w, nth_error fs k = Some w ->
    nth_error F k
    = Some (filon_term w (nth 0 Time 0) (nth (2 * nseg Time) Time 0) a b c).
Proof.
  intros Hrows Hpos HF.
  assert (Hlen : (nseg Time <= length rows)%nat).
  { destruct (nseg Time) as [|n] eqn:E; [lia|].
    assert (Hn : nth_error rows n = Some (a, b, c)) by (apply Hrows; lia).
    assert (n < length rows)%nat
      by (apply nth_error_Some; congruence).
    lia. }
  destruct (FilonLagrange_sum fs Time rows) as (F' & HF' & HlenF & HvalF);
    [intros w Hw; specialize (Hpos w Hw); lra | exact Hlen |].
  assert (F' = F) by congruence. subst F'.
  split; [exact HlenF|].
  intros k w Hk. rewrite (HvalF k w Hk). f_equal. unfold filon_sum.
  rewrite <- (filon_term_chain w a b c (fun i => nth i Time 0)).
  f_equal. apply map_ext_in. intros i Hi; apply in_seq in Hi.
  unfold seg_term.
  now rewrite (nth_error_nth _ _ _ (Hrows i ltac:(lia))).
Qed.

(** X2.  The quadrature is exact on a quadratic.  When every segment's
    coefficient row is the same (a, b, c), [FilonLagrange] returns at every
    positive frequency [w] the closed form over the whole range
    [Time[0], Time[2 nseg]], the integral of
    (a t^2 + b t + c) exp(-i w t) over that range.  In exact arithmetic
    the rows are such when the signal samples a t^2 + b t + c with
    a <> 0: when the raw transform of such a signal returns, it returns
    that integral. *)
Theorem raw_transform_exact_on_quadratic :
  (forall (fs Time : list R) (rows : list row) (a b c : R) (F : list C),
     (forall q, (q < (length Time - 1) / 2)%nat ->
        nth_error rows q = Some (a, b, c)) ->
     (forall w, In w fs -> 0 < w) ->
     FilonLagrange (zeros_c (length fs)) fs Time rows = Ok F ->
     length F = length fs /\
     forall k w, nth_error fs k = Some w ->
       nth_error F k
       = Some (filon_term w (nth 0 Time 0)
                 (nth (2 * ((length Time - 1) / 2)) Time 0) a b c) /\
       forall
         (pr_re : Riemann_integrable (integrand_re w a b c) (nth 0 Time 0)
                    (nth (2 * ((length Time - 1) / 2)) Time 0))
         (pr_im : Riemann_integrable (integrand_im w a b c) (nth 0 Time 0)
                    (nth (2 * ((length Time - 1) / 2)) Time 0)),
         nth_error F k = Some (mkC (RiemannInt pr_re) (RiemannInt pr_im))) /\
  (forall (Time Signal fs : list R) (a b c : R) (F : list C),
     length Signal = length Time ->
     a <> 0 ->
     (forall i, (i < length Time)%nat ->
        nth i Signal 0 = a * nth i Time 0 ^ 2 + b * nth i Time 0 + c) ->
     (forall w, In w fs -> 0 < w) ->
     raw_transform Finite Time Signal fs = Ok F ->
     length F = length fs /\
     forall k w, nth_error fs k = Some w ->
       nth_error F k
       = Some (filon_term w (nth 0 Time 0)
                 (nth (2 * ((length Time - 1) / 2)) Time 0) a b c)).
Proof.
  split.
  - intros fs Time rows a b c F Hrows Hpos HF. fold (nseg Time) in *.
    destruct (FilonLagrange_common_row fs Time rows a b c F Hrows Hpos HF)
      as [Hlen Hval].
    split; [exact Hlen|]. intros k w Hk.
    split; [now apply Hval|].
    intros pr_re pr_im. rewrite (Hval k w Hk). f_equal.
    apply filon_term_integral.
    apply nth_error_In in Hk. specialize (Hpos w Hk). lra.
  - intros Time Signal fs a b c F HS Ha Hq Hpos H. fold (nseg Time).
    unfold raw_transform in H.
    destruct (LagrangeInterpol _ (map Finite Time) (map Finite Signal))
      as [Coeffs| |] eqn:E; try discriminate.
    cbn [bind] in H.
    destruct (rows_values Coeffs) as [rows| |] eqn:Ev; try discriminate.
    cbn [bind] in H.
    destruct (LagrangeInterpol_exact_inv Time Signal Coeffs rows HS E Ev)
      as [_ Hrows].
    apply (FilonLagrange_common_row fs Time rows a b c F); try assumption.
    intros q Hlt. pose proof (nseg_bound Time q Hlt) as Hb.
    destruct (Hrows q Hlt) as (r & Hr & H01 & H02 & H12 & Hcoef).
    rewrite !Hq in Hcoef by lia.
    rewrite La_quadratic, Lb_quadratic, Lc_quadratic in Hcoef
      by assumption.
    rewrite row_of_coef_lead in Hcoef by exact Ha.
    rewrite Hr. f_equal.
    destruct r as [[ra rb] rc]. cbn in Hcoef. now inversion Hcoef.
Qed.

Lemma raw_transform_exact_on_quadratic_witness :
  exists F,
    FilonLagrange (zeros_c 2) [1; 2] [0; 1; 2; 3; 4] [(1, 0, 1); (1, 0, 1)]
      = Ok F /\
    length F = 2%nat /\
    nth_error F 0 = Some (filon_term 1 0 4 1 0 1).
Proof.
  destruct (FilonLagrange_sum [1; 2] [0; 1; 2; 3; 4]
              [(1, 0, 1); (1, 0, 1)]) as (F & HF & _).
  { intros w [<-|[<-|[]]]; lra. }
  { vm_compute; lia. }
  exists F. split; [exact HF|].
  destruct (proj1 raw_transform_exact_on_quadratic [1; 2] [0; 1; 2; 3; 4]
              [(1, 0, 1); (1, 0, 1)] 1 0 1 F) as [Hlen Hval].
  - intros q Hq. vm_compute in Hq.
    destruct q as [|[|q]]; [reflexivity | reflexivity | lia].
  - intros w [<-|[<-|[]]]; lra.
  - exact HF.
  - split; [exact Hlen|]. now destruct (Hval 0%nat 1 eq_refl) as [E _].
Defined.

(** ** Arrays that are too short *)

Lemma seq_split_at i n :
  (i < n)%nat -> seq 0 n = seq 0 i ++ i :: seq (S i) (n - i - 1).
Proof.
  intros H. replace n with (i + S (n - i - 1))%nat at 1 by lia.
  rewrite seq_app. reflexivity.
Qed.

Lemma seq_nseg_head {B} (Time : list B) :
  (3 <= length Time)%nat ->
  seq 0 (nseg Time) = [] ++ 0%nat :: seq 1 (nseg Time - 0 - 1).
Proof.
  intros H. apply (seq_split_at 0 (nseg Time)).
  unfold nseg.
  assert (E : (1 * 2 <= length Time - 1)%nat) by lia.
  apply (Nat.div_le_lower_bound _ 2 1) in E; lia.
Qed.

Section ShortArrays.
Context {F : Type} {A : Float64 F}.

Lemma interpol_loop_app (Time Signal : list F) :
  forall l1 l2 ipp coeffs,
    interpol_loop Time Signal (l1 ++ l2) ipp coeffs
    = bind (interpol_loop Time Signal l1 ipp coeffs)
        (fun c' => interpol_loop Time Signal l2 (ipp + length l1) c').
Proof.
  induction l1 as [|ip l1 IH]; intros l2 ipp coeffs.
  - cbn. now rewrite Nat.add_0_r.
  - cbn [app interpol_loop length].
    destruct (lagrange _ _) as [coef| |]; cbn [bind]; try reflexivity.
    destruct (assign_row coeffs ipp coef) as [c1| |]; cbn [bind];
      try reflexivity.
    rewrite IH.
    replace (ipp + S (length l1))%nat with (S ipp + length l1)%nat by lia.
    reflexivity.
Qed.

Lemma lagrange_slice_Ok (Time Signal : list F) q :
  (2 * q + 2 < length Time)%nat ->
  (2 * q + 2 < length Signal)%nat ->
  exists coef,
    lagrange (slice Time (1 + 2 * q - 1) (1 + 2 * q + 2))
      (slice Signal (1 + 2 * q - 1) (1 + 2 * q + 2)) = Ok coef.
Proof.
  intros HT HS.
  replace (1 + 2 * q - 1)%nat with (2 * q)%nat by lia.
  replace (1 + 2 * q + 2)%nat with (2 * q + 3)%nat by lia.
  rewrite (slice3 Time (2 * q) f_zero), (slice3 Signal (2 * q) f_zero)
    by lia.
  destruct (lagrange_Ok
              [nth (2 * q) Time f_zero; nth (2 * q + 1) Time f_zero;
               nth (2 * q + 2) Time f_zero]
              [nth (2 * q) Signal f_zero; nth (2 * q + 1) Signal f_zero;
               nth (2 * q + 2) Signal f_zero]) as (coef & Hc & _);
    [cbn; lia|].
  now exists coef.
Qed.

End ShortArrays.

(** X5.  A coefficient buffer with fewer rows than there are segments
    never lets [LagrangeInterpol] return, whatever the arithmetic: it
    raises IndexError at the first segment that has no row, unless the
    [p.coef] of an earlier segment has two entries, and then it raises
    ValueError there. *)
Theorem LagrangeInterpol_short_buffer (F : Type) (A : Float64 F)
    (coeffs : list (frow F)) (Time Signal : list F) :
  length Signal = length Time ->
  (length coeffs < (length Time - 1) / 2)%nat ->
  (LagrangeInterpol coeffs Time Signal = Raise IndexError /\
   forall q, (q < length coeffs)%nat ->
     forall a b, seg_coef Time Signal q <> Ok [a; b]) \/
  (LagrangeInterpol coeffs Time Signal = Raise ValueError /\
   exists q a b, (q < length coeffs)%nat /\
                 seg_coef Time Signal q = Ok [a; b]).
Proof.
  intros HS Hshort. fold (nseg Time) in Hshort.
  unfold LagrangeInterpol.
  rewrite range2_1_nseg, (seq_split_at _ _ Hshort), map_app.
  rewrite interpol_loop_app.
  rewrite interpol_loop_rows.
  2: { intros q Hq; apply in_seq in Hq. rewrite HS.
       pose proof (nseg_bound Time q). lia. }
  2: { rewrite length_seq; lia. }
  destruct (rows_loop_cases Time Signal (seq 0 (length coeffs)) 0 coeffs)
    as [[[res Hres] Hno]|[Herr (q & a & b & Hq & Hc)]].
  - left. split.
    + destruct (rows_loop_inv _ _ _ _ _ _ Hres) as (Hlen & _);
        [rewrite length_seq; lia|].
      rewrite Hres. cbn [bind map interpol_loop].
      pose proof (nseg_bound Time (length coeffs) Hshort) as Hb.
      destruct (lagrange_slice_Ok Time Signal (length coeffs))
        as (coef & E); [lia | lia |].
      rewrite E. cbn [bind]. unfold assign_row.
      rewrite length_map, length_seq, Hlen. cbn [Nat.add].
      rewrite Nat.ltb_irrefl. reflexivity.
    + intros q Hq. apply Hno, in_seq. lia.
  - right. split.
    + rewrite Herr. reflexivity.
    + exists q, a, b. apply in_seq in Hq. split; [lia | exact Hc].
Qed.

Lemma LagrangeInterpol_short_buffer_witness :
  LagrangeInterpol [] [0; 1; 2]%float [0; 1; 4]%float = Raise IndexError.
Proof.
  destruct (LagrangeInterpol_short_buffer float binary64 []
              [0; 1; 2]%float [0; 1; 4]%float) as [[H _]|[_ H]].
  - reflexivity.
  - vm_compute; lia.
  - exact H.
  - destruct H as (q & a & b & Hq & _). simpl in Hq. lia.
Defined.

(** X6.  A signal of fewer than three values on a time axis of at least
    three points makes [LagrangeInterpol] raise IndexError in the first
    segment, whatever the buffer and the arithmetic. *)
Theorem LagrangeInterpol_short_signal (F : Type) (A : Float64 F)
    (coeffs : list (frow F)) (Time Signal : list F) :
  (length Signal < 3)%nat ->
  (3 <= length Time)%nat ->
  LagrangeInterpol coeffs Time Signal = Raise IndexError.
Proof.
  intros HS HT. unfold LagrangeInterpol.
  rewrite range2_1_nseg, (seq_nseg_head Time HT).
  cbn [app map interpol_loop Nat.mul Nat.add Nat.sub].
  change (slice Time 0 3) with (slice Time 0 (0 + 3)).
  rewrite (slice3 Time 0 f_zero) by lia. cbn [Nat.add].
  assert (ES : slice Signal 0 3 = Signal).
  { unfold slice. cbn [Nat.sub skipn]. apply firstn_all2. lia. }
  rewrite ES, lagrange_short by (cbn [length]; lia). reflexivity.
Qed.

Lemma LagrangeInterpol_short_signal_witness :
  LagrangeInterpol (zeros_rows 1) [0; 1; 2]%float [5; 6]%float
  = Raise IndexError.
Proof.
  apply (LagrangeInterpol_short_signal float binary64); simpl; lia.
Defined.

(** ** The window *)

Lemma window_loop_short ep tau ACF :
  forall time i acc,
    (i <= length ACF < i + length time)%nat ->
    window_loop ep tau ACF time i acc = Raise IndexError.
Proof.
  induction time as [|t time IH]; intros i acc H; cbn [length] in H;
    [lia|].
  cbn [window_loop].
  destruct (Nat.eq_dec i (length ACF)) as [->|Hne].
  - rewrite getitem_out by lia. reflexivity.
  - rewrite (getitem_nth ACF i 0) by lia. cbn [bind]. apply IH. lia.
Qed.

(** X7.  [Window] raises IndexError when the ACF array is shorter than the
    time array. *)
Theorem Window_short_ACF (ep tau : R) (ACF time : list R) :
  (length ACF < length time)%nat ->
  Window ep tau ACF time = Raise IndexError.
Proof.
  intros H. unfold Window. apply window_loop_short. lia.
Qed.

Lemma Window_short_ACF_witness :
  Window ep tau [1] [0; 1] = Raise IndexError.
Proof. apply Window_short_ACF. simpl; lia. Defined.

Lemma W_pos ep tau t : 0 < W ep tau t.
Proof.
  unfold W. apply Rdiv_lt_0_compat.
  - pose proof (exp_pos (-1 * ep * tau)); lra.
  - pose proof (exp_pos (ep * (t - tau))); lra.
Qed.

Lemma exp_le_compat x y : x <= y -> exp x <= exp y.
Proof.
  intros [H | ->]; [left; now apply exp_increasing | right; reflexivity].
Qed.

Lemma W_range ep tau t : 0 <= ep -> 0 <= t -> 0 < W ep tau t <= 1.
Proof.
  intros He Ht. split; [apply W_pos|].
  unfold W.
  assert (Hd : 0 < exp (ep * (t - tau)) + 1)
    by (pose proof (exp_pos (ep * (t - tau))); lra).
  apply (Rmult_le_reg_r (exp (ep * (t - tau)) + 1)); [exact Hd|].
  unfold Rdiv. rewrite Rmult_assoc, Rinv_l, Rmult_1_r, Rmult_1_l by lra.
  apply Rplus_le_compat_r, exp_le_compat. nra.
Qed.

(** X8.  The window multiplier is a decay: for a decay rate [ep >= 0] it
    lies in (0, 1] at every time t >= 0, and for [ep > 0] it falls
    strictly as the time grows. *)
Theorem W_decays (ep tau : R) :
  (0 <= ep -> forall t, 0 <= t -> 0 < W ep tau t <= 1) /\
  (0 < ep -> forall t1 t2, t1 < t2 -> W ep tau t2 < W ep tau t1).
Proof.
  split.
  - intros He t Ht. now apply W_range.
  - intros He t1 t2 Ht. unfold W, Rdiv.
    assert (Hn : 0 < exp (-1 * ep * tau) + 1)
      by (pose proof (exp_pos (-1 * ep * tau)); lra).
    apply Rmult_lt_compat_l; [exact Hn|].
    apply Rinv_lt_contravar.
    + apply Rmult_lt_0_compat;
        [pose proof (exp_pos (ep * (t1 - tau)))
        |pose proof (exp_pos (ep * (t2 - tau)))]; lra.
    + apply Rplus_lt_compat_r, exp_increasing. nra.
Qed.

Lemma W_decays_witness :
  0 < W 2 1 3 <= 1 /\ W 2 1 4 < W 2 1 3.
Proof.
  destruct (W_decays 2 1) as [H1 H2]. split.
  - apply H1; lra.
  - apply H2; lra.
Defined.

Lemma nth_error_window_values ep tau ACF :
  forall time i k t,
    nth_error time k = Some t ->
    nth_error
      (map (fun p => nth (fst p) ACF 0 * W ep tau (snd p))
           (combine (seq i (length time)) time)) k
    = Some (nth (i + k) ACF 0 * W ep tau t).
Proof.
  induction time as [|t0 time IH]; intros i [|k] t H; try discriminate.
  - cbn in H. inversion H; subst. cbn. now rewrite Nat.add_0_r.
  - cbn in H. cbn [length seq combine map nth_error].
    rewrite (IH (S i) k t H). do 2 f_equal. f_equal. lia.
Qed.

(** X9.  The window never amplifies: for [ep >= 0], times that are not
    negative and an ACF array at least as long as the time array, [Window]
    returns one value per time point, and each is the ACF sample times a
    factor in (0, 1]; its magnitude is at most that of the sample and its
    sign is the sample's. *)
Theorem Window_never_amplifies (ep tau : R) (ACF time : list R) :
  0 <= ep ->
  (forall t, In t time -> 0 <= t) ->
  (length time <= length ACF)%nat ->
  exists ACF_window,
    Window ep tau ACF time = Ok ACF_window /\
    length ACF_window = length time /\
    forall i a v,
      nth_error ACF i = Some a -> nth_error ACF_window i = Some v ->
      (exists m, 0 < m <= 1 /\ v = a * m) /\
      Rabs v <= Rabs a /\
      (0 <= a -> 0 <= v) /\ (a <= 0 -> v <= 0).
Proof.
  intros He Ht Hlen. unfold Window.
  rewrite window_loop_Ok by lia. cbn [app].
  eexists; split; [reflexivity|]. split.
  - rewrite length_map, length_combine, length_seq. apply Nat.min_id.
  - intros i a v Ha Hv.
    assert (Hi : (i < length time)%nat).
    { pose proof (proj1 (nth_error_Some _ i)
                    ltac:(rewrite Hv; discriminate)) as Hl.
      rewrite length_map, length_combine, length_seq, Nat.min_id in Hl.
      exact Hl. }
    destruct (nth_error time i) as [t|] eqn:Et;
      [|apply nth_error_None in Et; lia].
    rewrite (nth_error_window_values ep tau ACF time 0 i t Et) in Hv.
    cbn [Nat.add] in Hv. rewrite (nth_error_nth _ _ _ Ha) in Hv.
    inversion Hv; subst v.
    pose proof (W_range ep tau t He (Ht t (nth_error_In _ _ Et)))
      as Hrange.
    set (m := W ep tau t) in *.
    split; [exists m; split; [exact Hrange|reflexivity]|].
    split.
    + rewrite Rabs_mult, (Rabs_pos_eq m) by lra.
      pose proof (Rabs_pos a). nra.
    + split; intros; nra.
Qed.

Lemma Window_never_amplifies_witness :
  exists ACF_window,
    Window 2 1 [5; -3] [0; 1] = Ok ACF_window /\
    length ACF_window = 2%nat.
Proof.
  destruct (Window_never_amplifies 2 1 [5; -3] [0; 1])
    as (l & H & Hlen & _).
  - lra.
  - intros t [<-|[<-|[]]]; lra.
  - simpl; lia.
  - exists l; split; assumption.
Defined.

(** ** The frequency grid, beyond the rising case *)

(** X10.  A reduced time array of fewer than two points makes the grid
    construction raise IndexError (at [redTime[1]]). *)
Theorem freq_short_axis (redTime : list R) :
  (length redTime < 2)%nat -> freq redTime = Raise IndexError.
Proof.
  destruct redTime as [|t0 [|t1 l]]; cbn [length]; intros H; try lia;
    reflexivity.
Qed.

Lemma freq_short_axis_witness : freq [0] = Raise IndexError.
Proof. apply freq_short_axis. simpl; lia. Defined.

Lemma freq_inv (redTime grid : list R) :
  freq redTime = Ok grid -> exists ll lh, grid = logspace ll lh nfreq.
Proof.
  unfold freq.
  destruct (hif redTime) as [h| |]; try discriminate.
  destruct (lof redTime) as [l| |]; try discriminate. cbn [bind].
  destruct (np_log10 l) as [ll| |]; try discriminate.
  destruct (np_log10 h) as [lh| |]; try discriminate. cbn [bind].
  intros H; inversion H. now exists ll, lh.
Qed.

(** X11.  Whatever the time array is, a grid that is produced has [nfreq]
    = 100 entries and all of them are strictly positive: [FilonLagrange]
    is never handed a zero frequency by the script. *)
Theorem freq_grid_positive (redTime grid : list R) :
  freq redTime = Ok grid ->
  length grid = 100%nat /\ (forall w, In w grid -> 0 < w) /\ ~ In 0 grid.
Proof.
  intros H. apply freq_inv in H. destruct H as (ll & lh & ->).
  split; [|split].
  - apply logspace_length.
  - intros w Hw. eapply logspace_positive; exact Hw.
  - intros H0. apply logspace_positive in H0. lra.
Qed.

Lemma freq_grid_positive_witness :
  exists grid, freq [0; 1; 2] = Ok grid /\ length grid = 100%nat.
Proof.
  destruct (freq_Ok [0; 1; 2] 1 2 eq_refl eq_refl) as (_ & _ & Hf);
    try lra.
  eexists. split; [exact Hf|].
  apply (freq_grid_positive [0; 1; 2] _ Hf).
Defined.

Lemma Rpower10_split (lo hi x : R) :
  0 < lo -> 0 < hi ->
  Rpower 10 (x * (ln hi / ln 10 - ln lo / ln 10) + ln lo / ln 10)
  = lo * Rpower (hi / lo) x.
Proof.
  intros Hlo Hhi. unfold Rpower.
  pose proof ln10_pos as H10.
  assert (Hq : ln (hi / lo) = ln hi - ln lo).
  { unfold Rdiv. rewrite ln_mult, ln_Rinv;
      [ring | exact Hlo | exact Hhi | now apply Rinv_0_lt_compat]. }
  rewrite Hq.
  replace ((x * (ln hi / ln 10 - ln lo / ln 10) + ln lo / ln 10) * ln 10)
    with (ln lo + x * (ln hi - ln lo)) by (field; lra).
  rewrite exp_plus, (exp_ln lo Hlo). reflexivity.
Qed.

(** X12.  The grid is geometric: entry [i] is
    lo (hi / lo)^(i / 99), with lo = 2 pi / t_max and hi = 2 pi / (3 dt),
    for every time array with dt = redTime[1] > 0 and
    t_max = redTime[-1] > 0. *)
Theorem freq_grid_geometric (redTime : list R) (dt tmax : R) :
  nth_error redTime 1 = Some dt ->
  last redTime 0 = tmax ->
  0 < dt -> 0 < tmax ->
  exists grid,
    freq redTime = Ok grid /\
    forall i, (i < 100)%nat ->
      nth i grid 0
      = 2 * PI / tmax
        * Rpower ((2 * PI / (3 * dt)) / (2 * PI / tmax)) (INR i / 99).
Proof.
  intros H1 Hl Hdt Htm.
  destruct (freq_Ok redTime dt tmax H1 Hl Hdt Htm) as (_ & _ & Hf).
  eexists; split; [exact Hf|].
  pose proof PI_RGT_0 as Hpi.
  assert (Hlo : 0 < 2 * PI / tmax) by (apply Rdiv_lt_0_compat; lra).
  assert (Hhi : 0 < 2 * PI / (3 * dt)) by (apply Rdiv_lt_0_compat; lra).
  intros i Hi. rewrite logspace_nth by (unfold nfreq; lia).
  rewrite <- (Rpower10_split _ _ _ Hlo Hhi).
  destruct (Nat.eq_dec i 99) as [->|Hne].
  - change 99%nat with (nfreq - 1)%nat. rewrite linspace_last
      by (unfold nfreq; lia).
    f_equal. unfold nfreq. replace (INR (100 - 1)) with 99
      by (simpl; lra).
    field. pose proof ln10_pos; lra.
  - rewrite linspace_nth by (unfold nfreq; lia).
    f_equal. unfold nfreq. replace (INR (100 - 1)) with 99
      by (simpl; lra).
    field. pose proof ln10_pos; lra.
Qed.

Lemma freq_grid_geometric_witness :
  exists grid, freq [0; 1; 2; 3; 4] = Ok grid /\
    nth 0 grid 0
    = 2 * PI / 4 * Rpower ((2 * PI / (3 * 1)) / (2 * PI / 4)) (INR 0 / 99).
Proof.
  destruct (freq_grid_geometric [0; 1; 2; 3; 4] 1 4 eq_refl eq_refl)
    as (grid & Hf & Hv); try lra.
  exists grid. split; [exact Hf|]. apply Hv. lia.
Defined.

Lemma linspace_decreasing s e num i j :
  e < s -> (i < j < num)%nat ->
  nth j (linspace s e num) 0 < nth i (linspace s e num) 0.
Proof.
  intros Hes [Hij Hj].
  assert (Hn : 0 < INR (num - 1)) by (apply lt_0_INR; lia).
  assert (Hstep : 0 < (s - e) / INR (num - 1)).
  { apply Rdiv_lt_0_compat; lra. }
  assert (Hneg : (e - s) / INR (num - 1) = - ((s - e) / INR (num - 1))).
  { field. lra. }
  rewrite (linspace_nth s e num i) by lia. rewrite Hneg.
  destruct (Nat.eq_dec j (num - 1)) as [->|Hne].
  - rewrite linspace_last by lia.
    assert (Hi : INR i < INR (num - 1)) by (apply lt_INR; lia).
    assert (H : INR i * ((s - e) / INR (num - 1))
                < INR (num - 1) * ((s - e) / INR (num - 1))).
    { apply Rmult_lt_compat_r; assumption. }
    replace (INR (num - 1) * ((s - e) / INR (num - 1))) with (s - e) in H
      by (field; lra).
    lra.
  - rewrite (linspace_nth s e num j) by lia. rewrite Hneg.
    assert (Hi : INR i < INR j) by (apply lt_INR; lia).
    assert (H : INR i * ((s - e) / INR (num - 1))
                < INR j * ((s - e) / INR (num - 1))).
    { apply Rmult_lt_compat_r; assumption. }
    lra.
Qed.

Lemma linspace_constant s num i :
  (i < num)%nat -> nth i (linspace s s num) 0 = s.
Proof.
  intros Hi. destruct (Nat.eq_dec i (num - 1)) as [->|Hne].
  - destruct (Nat.eq_dec num 1) as [->|H1].
    + cbn. ring.
    + apply linspace_last. lia.
  - rewrite linspace_nth by lia. unfold Rdiv. ring.
Qed.

(** X13.  When the time array is too short for its spacing the grid does
    not rise: for 0 < t_max < 3 dt it falls strictly from 2 pi / t_max to
    2 pi / (3 dt), and for t_max = 3 dt all 100 frequencies are the one
    value 2 pi / t_max. *)
Theorem freq_grid_not_rising (redTime : list R) (dt tmax : R) :
  nth_error redTime 1 = Some dt ->
  last redTime 0 = tmax ->
  0 < dt -> 0 < tmax ->
  exists grid,
    freq redTime = Ok grid /\
    (tmax < 3 * dt ->
       forall i j, (i < j < 100)%nat -> nth j grid 0 < nth i grid 0) /\
    (tmax = 3 * dt ->
       forall i, (i < 100)%nat -> nth i grid 0 = 2 * PI / tmax).
Proof.
  intros H1 Hl Hdt Htm.
  destruct (freq_Ok redTime dt tmax H1 Hl Hdt Htm) as (_ & _ & Hf).
  eexists; split; [exact Hf|].
  pose proof PI_RGT_0 as Hpi.
  assert (Hlo : 0 < 2 * PI / tmax) by (apply Rdiv_lt_0_compat; lra).
  assert (Hhi : 0 < 2 * PI / (3 * dt)) by (apply Rdiv_lt_0_compat; lra).
  split.
  - intros Hlt i j Hij.
    rewrite !logspace_nth by (unfold nfreq; lia).
    apply Rpower_lt; [lra|].
    apply linspace_decreasing; [|unfold nfreq; lia].
    apply log10_increasing; [exact Hhi|].
    unfold Rdiv. apply Rmult_lt_compat_l; [lra|].
    apply Rinv_lt_contravar; [|lra].
    apply Rmult_lt_0_compat; lra.
  - intros Heq i Hi. rewrite logspace_nth by (unfold nfreq; lia).
    rewrite <- Heq. rewrite linspace_constant by (unfold nfreq; lia).
    now apply Rpower10_log10.
Qed.

Lemma freq_grid_not_rising_witness :
  exists grid, freq [0; 1; 2; 3] = Ok grid /\ nth 5 grid 0 = 2 * PI / 3.
Proof.
  destruct (freq_grid_not_rising [0; 1; 2; 3] 1 3 eq_refl eq_refl)
    as (grid & Hf & _ & Hc); try lra.
  exists grid. split; [exact Hf|]. apply Hc; [lra|lia].
Defined.


(** ** AdmFromQ and the script: outcomes, lengths, empty input *)

Lemma window_loop_length ep tau ACF :
  forall time i acc r,
    window_loop ep tau ACF time i acc = Ok r ->
    length r = (length acc + length time)%nat.
Proof.
  induction time as [|t time IH]; intros i acc r H.
  - cbn in H. inversion H. cbn. lia.
  - cbn [window_loop] in H.
    destruct (getitem ACF i) as [a| |]; try discriminate.
    cbn [bind] in H. apply IH in H. rewrite H, length_app. cbn. lia.
Qed.

Lemma adm_loop_length beta DFT QACF :
  forall fs i Adm A,
    adm_loop beta fs i DFT QACF Adm = Ok A -> length A = length Adm.
Proof.
  induction fs as [|ff fs IH]; intros i Adm A H.
  - cbn in H. now inversion H.
  - cbn [adm_loop] in H.
    destruct (getitem DFT i) as [F| |]; try discriminate.
    destruct (getitem QACF 0) as [q0| |]; try discriminate.
    cbn [bind] in H.
    destruct (setitem Adm i (adm_value beta ff F q0)) as [A1| |] eqn:E;
      try discriminate.
    cbn [bind] in H. apply IH in H. apply setitem_inv in E.
    destruct E as [_ ->]. now rewrite H, length_upd.
Qed.


Section Pipeline.
Context {F : Type} {A : Float64 F}.
Variable store : R -> F.

Lemma raw_transform_inv (Time Signal fs : list R) (DFT : list C) :
  raw_transform store Time Signal fs = Ok DFT ->
  exists Coeffs rows,
    LagrangeInterpol (zeros_rows (length Time / 2))
      (map store Time) (map store Signal) = Ok Coeffs /\
    rows_values Coeffs = Ok rows /\
    FilonLagrange (zeros_c (length fs)) fs Time rows = Ok DFT.
Proof.
  unfold raw_transform.
  destruct (LagrangeInterpol _ _ _) as [Coeffs| |]; try discriminate.
  cbn [bind].
  destruct (rows_values Coeffs) as [rows| |] eqn:Ev; try discriminate.
  cbn [bind]. intros H. now exists Coeffs, rows.
Qed.

Lemma AdmFromQ_length beta Time QACF fs Adm :
  AdmFromQ beta store Time QACF fs = Ok Adm -> length Adm = length fs.
Proof.
  unfold AdmFromQ.
  destruct (raw_transform store Time QACF fs) as [DFT| |] eqn:E;
    try discriminate.
  cbn [bind]. unfold adm_of_DFT. intros H.
  apply adm_loop_length in H.
  destruct (raw_transform_inv _ _ _ _ E) as (Coeffs & rows & _ & _ & EF).
  unfold FilonLagrange in EF.
  apply filon_outer_frame in EF. destruct EF as [EF _].
  now rewrite H, !length_zeros_c, EF, length_zeros_c.
Qed.

Lemma main_inv QACF redTime qw fs Adm Z :
  main store QACF redTime = Ok (qw, fs, Adm, Z) ->
  Window ep tau QACF redTime = Ok qw /\
  freq redTime = Ok fs /\
  AdmFromQ beta store redTime qw fs = Ok Adm /\
  Z = Imp Adm.
Proof.
  unfold main.
  destruct (Window ep tau QACF redTime) as [qw'| |]; try discriminate.
  cbn [bind].
  destruct (freq redTime) as [g| |]; try discriminate.
  cbn [bind].
  destruct (AdmFromQ beta store redTime qw' g) as [Ad| |] eqn:EA;
    try discriminate.
  cbn [bind]. intros H.
  assert (qw' = qw) by congruence. assert (g = fs) by congruence.
  assert (Ad = Adm) by congruence. assert (Imp Ad = Z) by congruence.
  subst. repeat split. exact EA.
Qed.

(** The outcomes of [AdmFromQ] on aligned arrays and a grid without a
    zero frequency. *)
Lemma AdmFromQ_cases beta (Time QACF fs : list R) :
  length QACF = length Time ->
  (1 <= length Time)%nat ->
  (forall w, In w fs -> w <> 0) ->
  (AdmFromQ beta store Time QACF fs = Raise ValueError /\
   exists q a b,
     (q < nseg Time)%nat /\
     seg_coef (map store Time) (map store QACF) q = Ok [a; b]) \/
  ((forall q, (q < nseg Time)%nat ->
      forall a b,
        seg_coef (map store Time) (map store QACF) q <> Ok [a; b]) /\
   exists Coeffs,
     LagrangeInterpol (zeros_rows (length Time / 2))
       (map store Time) (map store QACF) = Ok Coeffs /\
     ((rows_values Coeffs = NonFinite /\
       AdmFromQ beta store Time QACF fs = NonFinite) \/
      (exists rows Adm,
         rows_values Coeffs = Ok rows /\
         AdmFromQ beta store Time QACF fs = Ok Adm /\
         length Adm = length fs))).
Proof.
  intros HS HT Hnz.
  pose proof (nseg_le_half Time) as Hhalf.
  assert (Hns : nseg (map store Time) = nseg Time)
    by (unfold nseg; now rewrite length_map).
  unfold AdmFromQ, raw_transform.
  rewrite LagrangeInterpol_rows;
    [| now rewrite !length_map
     | rewrite length_zeros_rows, Hns; exact Hhalf].
  rewrite Hns.
  destruct (rows_loop_cases (map store Time) (map store QACF)
              (seq 0 (nseg Time)) 0%nat (zeros_rows (length Time / 2)))
    as [[(Coeffs & Hrows) Hall]|[Hrows (q & a & b & Hin & Hc)]].
  - right. split.
    + intros q Hq. apply Hall, in_seq. lia.
    + exists Coeffs. split; [exact Hrows|].
      rewrite Hrows. cbn [bind].
      destruct (rows_values_cases Coeffs) as [[rows Hv]|Hv].
      * right.
        destruct (rows_loop_inv _ _ _ _ _ _ Hrows) as (Hl & _);
          [rewrite length_seq, length_zeros_rows; lia|].
        rewrite length_zeros_rows in Hl.
        destruct (rows_values_inv _ _ Hv) as [Hlr _].
        rewrite Hv. cbn [bind].
        destruct (FilonLagrange_sum fs Time rows Hnz)
          as (DFT & HF & HlF & _); [lia|].
        rewrite HF. cbn [bind]. unfold adm_of_DFT.
        destruct (adm_loop_Ok beta DFT QACF (nth 0 QACF 0)) with
          (freq := fs) (i := 0%nat) (Adm := zeros_c (length DFT))
          as (Adm & HA & HlA & _).
        { apply nth_error_nth'. lia. }
        { lia. }
        { rewrite length_zeros_c. lia. }
        exists rows, Adm. split; [reflexivity|]. split; [exact HA|].
        now rewrite HlA, length_zeros_c.
      * left. rewrite Hv. split; reflexivity.
  - left. split.
    + now rewrite Hrows.
    + exists q, a, b. apply in_seq in Hin. split; [lia|exact Hc].
Qed.

End Pipeline.

(** X15.  With fewer than three time points there is no segment, and the
    only thing [AdmFromQ] reads from the QACF is [QACF[0]]: on an empty
    QACF it raises IndexError as soon as there is a frequency, and on an
    empty frequency grid it returns an empty array. *)
Theorem AdmFromQ_empty (F : Type) (A : Float64 F) (L : Float64Laws F)
    (store : R -> F) (beta : R) (Time QACF fs : list R) :
  (length Time < 3)%nat ->
  (QACF = [] -> fs <> [] ->
   AdmFromQ beta store Time QACF fs = Raise IndexError)
  /\ (fs = [] -> AdmFromQ beta store Time QACF fs = Ok []).
Proof.
  intros Hlen.
  unfold AdmFromQ. rewrite raw_transform_short by exact Hlen.
  cbn [bind]. unfold adm_of_DFT. split.
  - intros -> Hfs. destruct fs as [|ff fs']; [congruence|].
    cbn [adm_loop length zeros_c repeat getitem nth_error bind].
    reflexivity.
  - intros ->. reflexivity.
Qed.

Lemma AdmFromQ_empty_witness :
  AdmFromQ beta Finite [] [] [1] = Raise IndexError.
Proof.
  destruct (AdmFromQ_empty (f64 R) exact exact_laws Finite beta [] [] [1])
    as [H _].
  - simpl; lia.
  - apply H; [reflexivity|discriminate].
Defined.

(** X16.  Whenever the script's lines 194-207 run through, the four
    arrays it goes on to write have matching lengths: the windowed ACF has
    one value per reduced time point, and the grid, the admittance and the
    impedance have 100 entries each, the frequencies all positive. *)
Theorem main_lengths (F : Type) (A : Float64 F) (store : R -> F)
    (QACF redTime QACF_window fs : list R)
    (Adm : list C) (Z : list (f64 C)) :
  main store QACF redTime = Ok (QACF_window, fs, Adm, Z) ->
  length QACF_window = length redTime /\
  length fs = 100%nat /\ length Adm = 100%nat /\ length Z = 100%nat /\
  (forall w, In w fs -> 0 < w).
Proof.
  intros H.
  destruct (main_inv store _ _ _ _ _ _ H) as (EW & EF & EA & ->).
  unfold Window in EW. apply window_loop_length in EW.
  apply freq_inv in EF. destruct EF as (ll & lh & ->).
  apply AdmFromQ_length in EA. rewrite logspace_length in EA.
  split; [exact EW|].
  split; [apply logspace_length|].
  split; [exact EA|].
  split; [unfold Imp; now rewrite length_map|].
  intros w Hw. eapply logspace_positive; exact Hw.
Qed.

(** ** A zero autocorrelation function, in exact arithmetic *)

Lemma filon_term_zero w t1 t2 : filon_term w t1 t2 0 0 0 = C0.
Proof.
  unfold filon_term. rewrite !Cexp_mj. apply C_eq; simpl; ring.
Qed.

Lemma Csum_from_zeros (l : list C) :
  (forall z, In z l -> z = C0) -> Csum_from C0 l = C0.
Proof.
  unfold Csum_from. induction l as [|z l IH]; intros H; [reflexivity|].
  cbn [fold_left]. rewrite (H z (or_introl eq_refl)).
  replace (C0 + C0)%C with C0 by (apply C_eq; simpl; ring).
  apply IH. intros z' Hz'; apply H; now right.
Qed.

Lemma strictly_increasing_nodes (Time : list R) q :
  strictly_increasing Time -> (q < nseg Time)%nat ->
  nth (2 * q) Time 0 <> nth (2 * q + 1) Time 0 /\
  nth (2 * q) Time 0 <> nth (2 * q + 2) Time 0 /\
  nth (2 * q + 1) Time 0 <> nth (2 * q + 2) Time 0.
Proof.
  intros Hinc Hq. pose proof (nseg_bound Time q Hq) as Hb.
  pose proof (Hinc (2 * q) (2 * q + 1))%nat as A.
  pose proof (Hinc (2 * q) (2 * q + 2))%nat as B.
  pose proof (Hinc (2 * q + 1) (2 * q + 2))%nat as D.
  specialize (A ltac:(lia)). specialize (B ltac:(lia)).
  specialize (D ltac:(lia)). repeat split; lra.
Qed.


Lemma upd_repeat {B} (z : B) n i : upd (repeat z n) i z = repeat z n.
Proof.
  revert i; induction n as [|n IH]; intros [|i]; cbn; try reflexivity.
  now rewrite IH.
Qed.

Lemma rows_loop_fixed {F : Type} {A : Float64 F} (Time Signal : list F)
    (z : frow F) n :
  forall qs ipp,
    (forall q, In q qs -> seg_row Time Signal q = Ok z) ->
    rows_loop Time Signal qs ipp (repeat z n) = Ok (repeat z n).
Proof.
  induction qs as [|q qs IH]; intros ipp H; [reflexivity|].
  cbn [rows_loop]. rewrite (H q (or_introl eq_refl)). cbn [bind].
  rewrite upd_repeat. apply IH. intros q' Hq'. apply H. now right.
Qed.

Lemma seg_row_exact_zero (Time Signal : list R) q :
  nth (2 * q) Time 0 <> nth (2 * q + 1) Time 0 ->
  nth (2 * q) Time 0 <> nth (2 * q + 2) Time 0 ->
  nth (2 * q + 1) Time 0 <> nth (2 * q + 2) Time 0 ->
  nth (2 * q) Signal 0 = 0 -> nth (2 * q + 1) Signal 0 = 0 ->
  nth (2 * q + 2) Signal 0 = 0 ->
  seg_row (map Finite Time) (map Finite Signal) q
  = Ok (f_zero, f_zero, f_zero).
Proof.
  intros H01 H02 H12 E0 E1 E2.
  unfold seg_row. rewrite seg_coef_exact, E0, E1, E2.
  rewrite lagrange3_exact by assumption. cbn [bind].
  assert (Ea : forall x0 x1 x2, La x0 x1 x2 0 0 0 = 0)
    by (intros; unfold La, Rdiv; ring).
  assert (Eb : forall x0 x1 x2, Lb x0 x1 x2 0 0 0 = 0)
    by (intros; unfold Lb, Rdiv; ring).
  assert (Ec : forall x0 x1 x2, Lc x0 x1 x2 0 0 0 = 0)
    by (intros; unfold Lc, Rdiv; ring).
  rewrite Ea, Eb, Ec, !exact_poly1d_0. reflexivity.
Qed.

(** The zero signal has the zero transform. *)
Lemma raw_transform_zero_signal Time Signal fs :
  length Signal = length Time ->
  strictly_increasing Time ->
  (forall i, (i < length Time)%nat -> nth i Signal 0 = 0) ->
  (forall w, In w fs -> w <> 0) ->
  exists DFT,
    raw_transform Finite Time Signal fs = Ok DFT /\
    length DFT = length fs /\
    forall k, (k < length fs)%nat -> nth_error DFT k = Some C0.
Proof.
  intros HS Hinc Hz Hnz.
  assert (Hns : nseg (map (@Finite R) Time) = nseg Time)
    by (unfold nseg; now rewrite length_map).
  pose proof (nseg_le_half Time) as Hhalf.
  assert (HL : LagrangeInterpol (zeros_rows (length Time / 2))
                 (map Finite Time) (map Finite Signal)
               = Ok (zeros_rows (length Time / 2))).
  { rewrite LagrangeInterpol_rows;
      [| now rewrite !length_map
       | rewrite length_zeros_rows, Hns; exact Hhalf].
    apply rows_loop_fixed. intros q Hin; apply in_seq in Hin.
    assert (Hlt : (q < nseg Time)%nat) by lia.
    pose proof (nseg_bound Time q Hlt) as Hb.
    destruct (strictly_increasing_nodes Time q Hinc Hlt) as (H1 & H2 & H3).
    apply seg_row_exact_zero; try assumption; apply Hz; lia. }
  destruct (FilonLagrange_sum fs Time (repeat (0, 0, 0) (length Time / 2))
              Hnz) as (DFT & HF & HlenF & HvalF).
  { rewrite repeat_length. exact Hhalf. }
  exists DFT. split.
  { unfold raw_transform. rewrite HL. cbn [bind].
    rewrite rows_values_zeros. exact HF. }
  split; [exact HlenF|].
  intros k Hk.
  destruct (nth_error fs k) as [w|] eqn:Ew;
    [|apply nth_error_None in Ew; lia].
  rewrite (HvalF k w Ew). f_equal. unfold filon_sum.
  apply Csum_from_zeros. intros z Hin.
  apply in_map_iff in Hin. destruct Hin as (i & <- & Hi).
  apply in_seq in Hi. unfold seg_term.
  rewrite nth_repeat_lt by lia. apply filon_term_zero.
Qed.

Lemma last_nth_length (l : list R) :
  l <> [] -> last l 0 = nth (length l - 1) l 0.
Proof.
  induction l as [|a l IH]; [congruence|]. intros _.
  destruct l as [|b l]; [reflexivity|].
  change (last (a :: b :: l) 0) with (last (b :: l) 0).
  rewrite IH by discriminate. cbn [length Nat.sub].
  now rewrite Nat.sub_0_r.
Qed.

(** A rising time axis that starts at a non-negative time has a positive
    second and a positive last entry. *)
Lemma rising_axis_bounds (redTime : list R) :
  (2 <= length redTime)%nat ->
  strictly_increasing redTime ->
  0 <= nth 0 redTime 0 ->
  nth_error redTime 1 = Some (nth 1 redTime 0) /\
  0 < nth 1 redTime 0 /\ 0 < last redTime 0.
Proof.
  intros HM Hinc H0.
  assert (H1 : nth 0 redTime 0 < nth 1 redTime 0) by (apply Hinc; lia).
  split; [apply nth_error_nth'; lia|]. split; [lra|].
  rewrite last_nth_length by (destruct redTime; [cbn in HM; lia|easy]).
  destruct (Nat.eq_dec (length redTime - 1) 1) as [->|Hne]; [lra|].
  assert (H2 : nth 1 redTime 0 < nth (length redTime - 1) redTime 0)
    by (apply Hinc; lia).
  lra.
Qed.

Lemma window_zero_values ep tau (QACF : list R) :
  (forall i, nth i QACF 0 = 0) ->
  forall time i k,
    nth k (map (fun p => nth (fst p) QACF 0 * W ep tau (snd p))
             (combine (seq i (length time)) time)) 0 = 0.
Proof.
  intros Hz. induction time as [|t time IH]; intros i [|k];
    try reflexivity.
  - cbn. rewrite Hz. ring.
  - cbn [length seq combine map nth]. apply IH.
Qed.

(** The script on a zero ACF, in exact arithmetic: the admittance is zero
    and every impedance is inf/NaN. *)
Lemma main_zero_ACF (QACF redTime : list R) :
  length QACF = length redTime ->
  (2 <= length redTime)%nat ->
  strictly_increasing redTime ->
  0 <= nth 0 redTime 0 ->
  (forall i, nth i QACF 0 = 0) ->
  exists QACF_window grid Adm,
    main Finite QACF redTime = Ok (QACF_window, grid, Adm, Imp Adm) /\
    (forall i, nth i QACF_window 0 = 0) /\
    forall k, (k < 100)%nat ->
      nth_error Adm k = Some C0 /\ nth_error (Imp Adm) k = Some InfNaN.
Proof.
  intros HL HM Hinc H0 Hz.
  destruct (rising_axis_bounds redTime HM Hinc H0) as (E1 & Hdt & Hlast).
  destruct (freq_Ok redTime _ _ E1 eq_refl Hdt Hlast) as (_ & _ & Hf).
  set (grid := logspace _ _ nfreq) in Hf.
  set (qw := map (fun p => nth (fst p) QACF 0 * W ep tau (snd p))
               (combine (seq 0 (length redTime)) redTime)).
  assert (HW : Window ep tau QACF redTime = Ok qw).
  { unfold Window. rewrite window_loop_Ok by lia. reflexivity. }
  assert (Hqw : forall i, nth i qw 0 = 0).
  { intros i. apply window_zero_values, Hz. }
  assert (Hlq : length qw = length redTime).
  { unfold qw. rewrite length_map, length_combine, length_seq.
    apply Nat.min_id. }
  destruct (raw_transform_zero_signal redTime qw grid Hlq Hinc)
    as (DFT & HF & HlenF & HvalF).
  { intros i _. apply Hqw. }
  { intros w Hw. apply logspace_positive in Hw. lra. }
  assert (Hq0 : nth_error qw 0 = Some 0).
  { rewrite (nth_error_nth' qw 0) by lia. now rewrite Hqw. }
  destruct (adm_loop_Ok beta DFT qw 0 Hq0 grid 0%nat (zeros_c (length DFT)))
    as (Adm & HA & HlenA & _ & Hval).
  { lia. }
  { rewrite length_zeros_c; lia. }
  exists qw, grid, Adm. split.
  { unfold main. rewrite HW. cbn [bind]. rewrite Hf. cbn [bind].
    unfold AdmFromQ. rewrite HF. cbn [bind]. unfold adm_of_DFT.
    rewrite HA. reflexivity. }
  split; [exact Hqw|].
  intros k Hk.
  assert (Hg : length grid = 100%nat) by apply logspace_length.
  destruct (nth_error grid k) as [w|] eqn:Ew;
    [|apply nth_error_None in Ew; lia].
  assert (HAk : nth_error Adm k = Some C0).
  { specialize (Hval k w Ew). change (0 + k)%nat with k in Hval.
    rewrite Hval. f_equal.
    rewrite (nth_error_nth _ _ _ (HvalF k ltac:(lia))).
    unfold adm_value. apply C_eq; simpl; ring. }
  split; [exact HAk|].
  unfold Imp. rewrite nth_error_map, HAk. cbn. now rewrite recip_zero.
Qed.

Lemma main_lengths_witness :
  exists qw grid Adm,
    main Finite [0; 0] [0; 1] = Ok (qw, grid, Adm, Imp Adm) /\
    length qw = 2%nat /\ length grid = 100%nat /\ length Adm = 100%nat.
Proof.
  destruct (main_zero_ACF [0; 0] [0; 1]) as (qw & grid & Adm & Hm & _).
  - reflexivity.
  - cbn; lia.
  - intros i j Hij. cbn in Hij.
    assert (i = 0%nat /\ j = 1%nat) as [-> ->] by lia. cbn; lra.
  - cbn; lra.
  - intros [|[|[|i]]]; reflexivity.
  - exists qw, grid, Adm. split; [exact Hm|].
    destruct (main_lengths (f64 R) exact Finite [0; 0] [0; 1] qw grid Adm
                (Imp Adm) Hm) as (H1 & H2 & H3 & _).
    split; [exact H1|]. split; [exact H2|exact H3].
Defined.

(** ** Finite sums of complex numbers *)

Lemma Csum_app l1 l2 : Csum (l1 ++ l2) = (Csum l1 + Csum l2)%C.
Proof.
  unfold Csum. induction l1 as [|z l IH]; cbn [app fold_right].
  - apply C_eq; simpl; ring.
  - rewrite IH. apply C_eq; simpl; ring.
Qed.

Lemma Csum_n_S N f : Csum_n (S N) f = (Csum_n N f + f N)%C.
Proof.
  unfold Csum_n. rewrite seq_S, map_app, Csum_app. cbn.
  apply C_eq; simpl; ring.
Qed.

Lemma Csum_n_0 f : Csum_n 0 f = C0.
Proof. reflexivity. Qed.

Lemma Csum_n_ext N f g :
  (forall k, (k < N)%nat -> f k = g k) -> Csum_n N f = Csum_n N g.
Proof.
  induction N as [|N IH]; intros H; [reflexivity|].
  rewrite !Csum_n_S, IH, H by (intros; try apply H; lia). reflexivity.
Qed.

Lemma Csum_n_mul_l N c f :
  Csum_n N (fun k => c * f k)%C = (c * Csum_n N f)%C.
Proof.
  induction N as [|N IH].
  - rewrite !Csum_n_0. apply C_eq; simpl; ring.
  - rewrite !Csum_n_S, IH. apply C_eq; simpl; ring.
Qed.

Lemma Csum_n_mul_r N c f :
  Csum_n N (fun k => f k * c)%C = (Csum_n N f * c)%C.
Proof.
  induction N as [|N IH].
  - rewrite !Csum_n_0. apply C_eq; simpl; ring.
  - rewrite !Csum_n_S, IH. apply C_eq; simpl; ring.
Qed.

Lemma Csum_n_add N f g :
  Csum_n N (fun k => f k + g k)%C = (Csum_n N f + Csum_n N g)%C.
Proof.
  induction N as [|N IH].
  - rewrite !Csum_n_0. apply C_eq; simpl; ring.
  - rewrite !Csum_n_S, IH. apply C_eq; simpl; ring.
Qed.

Lemma Csum_n_zero N f :
  (forall k, (k < N)%nat -> f k = C0) -> Csum_n N f = C0.
Proof.
  induction N as [|N IH]; intros H; [reflexivity|].
  rewrite Csum_n_S, IH, H by (intros; try apply H; lia).
  apply C_eq; simpl; ring.
Qed.

Lemma Csum_n_swap N M (f : nat -> nat -> C) :
  Csum_n N (fun k => Csum_n M (fun n => f k n))
  = Csum_n M (fun n => Csum_n N (fun k => f k n)).
Proof.
  induction N as [|N IH].
  - rewrite Csum_n_0. symmetry. apply Csum_n_zero. reflexivity.
  - rewrite Csum_n_S, IH, <- Csum_n_add.
    apply Csum_n_ext. intros n _. now rewrite Csum_n_S.
Qed.

Lemma Csum_n_delta N j (f : nat -> C) :
  (j < N)%nat ->
  Csum_n N (fun n => if Nat.eqb n j then f n else C0) = f j.
Proof.
  induction N as [|N IH]; intros Hj; [lia|].
  rewrite Csum_n_S.
  destruct (Nat.eq_dec j N) as [->|Hne].
  - rewrite Nat.eqb_refl, Csum_n_zero.
    + apply C_eq; simpl; ring.
    + intros k Hk. now rewrite (proj2 (Nat.eqb_neq k N)) by lia.
  - rewrite IH by lia. rewrite (proj2 (Nat.eqb_neq N j)) by lia.
    apply C_eq; simpl; ring.
Qed.

Lemma Cconj_Csum_n N f :
  Cconj (Csum_n N f) = Csum_n N (fun k => Cconj (f k)).
Proof.
  induction N as [|N IH].
  - rewrite !Csum_n_0. apply C_eq; simpl; ring.
  - rewrite !Csum_n_S, <- IH. apply C_eq; simpl; ring.
Qed.

Lemma Csum_n_RtoC N (g : nat -> R) :
  Csum_n N (fun n => RtoC (g n)) = RtoC (Rsum_n N g).
Proof.
  induction N as [|N IH]; [reflexivity|].
  rewrite Csum_n_S, IH. unfold Rsum_n.
  rewrite seq_S, map_app, fold_right_app. cbn.
  apply C_eq; simpl.
  - generalize (seq 0 N). intros l. induction l as [|a l IHl]; cbn; [ring|].
    rewrite <- IHl. ring.
  - ring.
Qed.

(** ** Roots of unity *)

Lemma Cexp_phase_add (a b : R) :
  (Cexp (mkC 0 a) * Cexp (mkC 0 b))%C = Cexp (mkC 0 (a + b)).
Proof.
  unfold Cexp; cbn [Re Im]. rewrite exp_0, cos_plus, sin_plus.
  apply C_eq; simpl; ring.
Qed.

Lemma Cexp_phase_0 : Cexp (mkC 0 0) = RtoC 1.
Proof.
  unfold Cexp; cbn [Re Im]. rewrite exp_0, cos_0, sin_0.
  apply C_eq; simpl; ring.
Qed.

Lemma Cexp_phase_period (a : R) (n : nat) :
  Cexp (mkC 0 (a + 2 * INR n * PI)) = Cexp (mkC 0 a).
Proof.
  unfold Cexp; cbn [Re Im]. now rewrite cos_period, sin_period.
Qed.

Lemma Cconj_Cexp_phase (a : R) :
  Cconj (Cexp (mkC 0 a)) = Cexp (mkC 0 (- a)).
Proof.
  unfold Cexp, Cconj; cbn [Re Im]. rewrite cos_neg, sin_neg.
  apply C_eq; simpl; ring.
Qed.

Lemma Csum_n_const N (c : C) :
  Csum_n N (fun _ => c) = (RtoC (INR N) * c)%C.
Proof.
  induction N as [|N IH].
  - rewrite Csum_n_0. apply C_eq; simpl; ring.
  - rewrite Csum_n_S, IH, S_INR. apply C_eq; simpl; ring.
Qed.

Lemma Cmul_integral (a s : C) :
  (a * s)%C = C0 -> Re a <> 0 -> s = C0.
Proof.
  intros H Ha.
  assert (Hr : Re a * Re s - Im a * Im s = 0)
    by exact (f_equal Re H).
  assert (Hi : Re a * Im s + Im a * Re s = 0)
    by exact (f_equal Im H).
  assert (Hn : Re a * Re a + Im a * Im a <> 0) by nra.
  assert (E1 : (Re a * Re a + Im a * Im a) * Re s = 0).
  { replace ((Re a * Re a + Im a * Im a) * Re s)
      with (Re a * (Re a * Re s - Im a * Im s)
            + Im a * (Re a * Im s + Im a * Re s)) by ring.
    rewrite Hr, Hi. ring. }
  assert (E2 : (Re a * Re a + Im a * Im a) * Im s = 0).
  { replace ((Re a * Re a + Im a * Im a) * Im s)
      with (Re a * (Re a * Im s + Im a * Re s)
            - Im a * (Re a * Re s - Im a * Im s)) by ring.
    rewrite Hr, Hi. ring. }
  apply Rmult_integral in E1. apply Rmult_integral in E2.
  apply C_eq; simpl; tauto.
Qed.

(** The geometric sum of the phases [exp(i k phi)]. *)
Lemma geometric_phase_sum (phi : R) (n : nat) :
  ((RtoC 1 - Cexp (mkC 0 phi))
   * Csum_n n (fun k => Cexp (mkC 0 (INR k * phi))))%C
  = (RtoC 1 - Cexp (mkC 0 (INR n * phi)))%C.
Proof.
  induction n as [|n IH].
  - rewrite Csum_n_0. cbn [INR]. rewrite Rmult_0_l, Cexp_phase_0.
    apply C_eq; simpl; ring.
  - rewrite Csum_n_S.
    assert (E : (Cexp (mkC 0 phi) * Cexp (mkC 0 (INR n * phi)))%C
                = Cexp (mkC 0 (INR (S n) * phi))).
    { rewrite Cexp_phase_add, S_INR. f_equal. f_equal. ring. }
    rewrite <- E.
    set (z := Cexp (mkC 0 phi)) in *.
    set (zn := Cexp (mkC 0 (INR n * phi))) in *.
    set (S0 := Csum_n n _) in *.
    apply (f_equal Re) in IH as Hr. apply (f_equal Im) in IH as Hi.
    cbn [Re Im Cmul Csub Cadd RtoC] in Hr, Hi.
    apply C_eq; cbn [Re Im Cmul Csub Cadd RtoC]; lra.
Qed.

Lemma cos_root_lt_1 (N r : nat) :
  (0 < r < N)%nat -> cos (2 * PI * INR r / INR N) < 1.
Proof.
  intros [Hr HN].
  assert (HNr : 0 < INR N) by (apply lt_0_INR; lia).
  assert (Hrr : 0 < INR r) by (apply lt_0_INR; lia).
  assert (Hlt : INR r < INR N) by (apply lt_INR; lia).
  pose proof PI_RGT_0 as Hpi.
  replace (2 * PI * INR r / INR N) with (2 * (PI * INR r / INR N))
    by (field; lra).
  rewrite cos_2a_sin.
  assert (Hs : 0 < sin (PI * INR r / INR N)).
  { apply sin_gt_0.
    - apply Rdiv_lt_0_compat; nra.
    - apply (Rmult_lt_reg_r (INR N)); [exact HNr|].
      replace (PI * INR r / INR N * INR N) with (PI * INR r)
        by (field; lra).
      nra. }
  nra.
Qed.

(** The sum over [k] of [exp(2 pi i k d / N)] is [N] when [N] divides
    [d] and zero otherwise. *)
Lemma root_of_unity_sum (N d : nat) :
  (0 < N)%nat ->
  Csum_n N (fun k => Cexp (mkC 0 (2 * PI * INR k * INR d / INR N)))
  = if Nat.eqb (d mod N) 0 then RtoC (INR N) else C0.
Proof.
  intros HN.
  assert (HNr : 0 < INR N) by (apply lt_0_INR; lia).
  pose proof (Nat.div_mod_eq d N) as Hd.
  pose proof (Nat.mod_upper_bound d N ltac:(lia)) as Hr.
  set (q := (d / N)%nat) in *. set (r := (d mod N)%nat) in *.
  assert (HdR : INR d = INR N * INR q + INR r).
  { rewrite Hd, plus_INR, mult_INR. reflexivity. }
  destruct (Nat.eqb_spec r 0) as [E|E].
  - rewrite (Csum_n_ext _ _ (fun _ => RtoC 1)).
    + rewrite Csum_n_const. apply C_eq; simpl; ring.
    + intros k _. rewrite HdR, E. cbn [INR].
      replace (2 * PI * INR k * (INR N * INR q + 0) / INR N)
        with (0 + 2 * INR (k * q) * PI)
        by (rewrite mult_INR; field; lra).
      rewrite Cexp_phase_period. apply Cexp_phase_0.
  - set (phi := 2 * PI * INR d / INR N).
    rewrite (Csum_n_ext _ _ (fun k => Cexp (mkC 0 (INR k * phi)))).
    2: { intros k _. f_equal. f_equal. unfold phi. field. lra. }
    apply (Cmul_integral (RtoC 1 - Cexp (mkC 0 phi))%C).
    + rewrite geometric_phase_sum.
      replace (INR N * phi) with (0 + 2 * INR d * PI)
        by (unfold phi; field; lra).
      rewrite Cexp_phase_period, Cexp_phase_0.
      apply C_eq; simpl; ring.
    + cbn [Re Csub RtoC Cexp Im]. rewrite exp_0.
      assert (Hc : cos phi = cos (2 * PI * INR r / INR N)).
      { unfold phi. rewrite HdR.
        replace (2 * PI * (INR N * INR q + INR r) / INR N)
          with (2 * PI * INR r / INR N + 2 * INR q * PI)
          by (field; lra).
        apply cos_period. }
      rewrite Hc.
      pose proof (cos_root_lt_1 N r ltac:(lia)). lra.
Qed.

(** ** The Wiener-Khinchin identity *)

Lemma lag_index (N m n n' : nat) :
  (n < N)%nat ->
  Nat.eqb ((m + n' + (N - n)) mod N) 0 = Nat.eqb n ((n' + m) mod N).
Proof.
  intros Hn.
  pose proof (Nat.div_mod_eq (n' + m) N) as Hs.
  pose proof (Nat.mod_upper_bound (n' + m) N ltac:(lia)) as Hr.
  set (q := ((n' + m) / N)%nat) in *.
  set (r := ((n' + m) mod N)%nat) in *.
  destruct (Nat.eqb_spec n r) as [E|E].
  - apply Nat.eqb_eq. symmetry.
    apply (Nat.mod_unique _ N (S q)); nia.
  - apply Nat.eqb_neq. intros H0.
    destruct (Nat.lt_ge_cases (r + N - n) N) as [Hlt|Hge].
    + assert (H1 : (r + N - n)%nat = ((m + n' + (N - n)) mod N)%nat)
        by (apply (Nat.mod_unique _ N q); nia).
      lia.
    + assert (H1 : (r - n)%nat = ((m + n' + (N - n)) mod N)%nat)
        by (apply (Nat.mod_unique _ N (S q)); nia).
      lia.
Qed.

Lemma Rsum_n_S N g : Rsum_n (S N) g = Rsum_n N g + g N.
Proof.
  unfold Rsum_n. rewrite seq_S, map_app, fold_right_app. cbn.
  generalize (seq 0 N). intros l. induction l as [|a l IHl]; cbn; [ring|].
  rewrite IHl. ring.
Qed.

Lemma Rsum_n_ext N f g :
  (forall k, (k < N)%nat -> f k = g k) -> Rsum_n N f = Rsum_n N g.
Proof.
  induction N as [|N IH]; intros H; [reflexivity|].
  rewrite !Rsum_n_S, IH, H by (intros; try apply H; lia). reflexivity.
Qed.

Lemma Rsum_n_mul_l N c g :
  Rsum_n N (fun n => c * g n) = c * Rsum_n N g.
Proof.
  induction N as [|N IH]; [cbn; ring|].
  rewrite !Rsum_n_S, IH. ring.
Qed.

Lemma twiddle_product (N m k n n' : nat) (u v : R) :
  (0 < N)%nat -> (n < N)%nat ->
  (RtoC u * twiddle (-1) N k n * Cconj (RtoC v * twiddle (-1) N k n')
   * twiddle 1 N m k)%C
  = (RtoC (u * v)
     * Cexp (mkC 0 (2 * PI * INR k * INR (m + n' + (N - n)) / INR N)))%C.
Proof.
  intros HN Hn.
  assert (HNr : 0 < INR N) by (apply lt_0_INR; lia).
  unfold twiddle.
  set (al := -1 * (2 * PI * INR k * INR n / INR N)).
  set (be := -1 * (2 * PI * INR k * INR n' / INR N)).
  set (ga := 1 * (2 * PI * INR m * INR k / INR N)).
  assert (E : Cexp (mkC 0 (2 * PI * INR k * INR (m + n' + (N - n)) / INR N))
              = (Cexp (mkC 0 al) * Cexp (mkC 0 (- be)) * Cexp (mkC 0 ga))%C).
  { rewrite !Cexp_phase_add.
    rewrite <- (Cexp_phase_period (al + - be + ga) k).
    f_equal. f_equal. unfold al, be, ga.
    rewrite !plus_INR, minus_INR by lia. field. lra. }
  rewrite E, <- Cconj_Cexp_phase.
  apply C_eq; simpl; ring.
Qed.

Lemma Csum_n_product N M (f g : nat -> C) (c : C) :
  (Csum_n N f * Csum_n M g * c)%C
  = Csum_n M (fun n' => Csum_n N (fun n => f n * g n' * c))%C.
Proof.
  transitivity (Csum_n M (fun n' => Csum_n N f * (g n' * c))%C).
  - rewrite Csum_n_mul_l, Csum_n_mul_r. apply C_eq; simpl; ring.
  - apply Csum_n_ext. intros n' _.
    rewrite <- Csum_n_mul_r.
    apply Csum_n_ext. intros n _. apply C_eq; simpl; ring.
Qed.

(** The inverse transform of the power spectrum is the circular
    autocorrelation sum. *)
Lemma power_spectrum_inverse (N m : nat) (y : nat -> R) :
  (0 < N)%nat ->
  Csum_n N (fun k =>
    Csum_n N (fun n => RtoC (y n) * twiddle (-1) N k n)
    * Cconj (Csum_n N (fun n => RtoC (y n) * twiddle (-1) N k n))
    * twiddle 1 N m k)%C
  = RtoC (INR N * Rsum_n N (fun n => y n * y ((n + m) mod N))).
Proof.
  intros HN.
  rewrite (Csum_n_ext N _
    (fun k => Csum_n N (fun n' => Csum_n N (fun n =>
       RtoC (y n * y n')
       * Cexp (mkC 0 (2 * PI * INR k * INR (m + n' + (N - n)) / INR N)))))%C).
  2: { intros k _. rewrite Cconj_Csum_n, Csum_n_product.
       apply Csum_n_ext. intros n' _. apply Csum_n_ext. intros n Hn.
       now apply twiddle_product. }
  rewrite Csum_n_swap.
  rewrite (Csum_n_ext N _
    (fun n' => RtoC (INR N * (y n' * y ((n' + m) mod N))))).
  - rewrite Csum_n_RtoC, Rsum_n_mul_l. reflexivity.
  - intros n' _. rewrite Csum_n_swap.
    rewrite (Csum_n_ext N _
      (fun n => if Nat.eqb n ((n' + m) mod N)
                then RtoC (INR N * (y n * y n')) else C0)).
    + rewrite Csum_n_delta by (apply Nat.mod_upper_bound; lia).
      f_equal. ring.
    + intros n Hn. rewrite Csum_n_mul_l, root_of_unity_sum by exact HN.
      rewrite (lag_index N m n n' Hn).
      destruct (Nat.eqb n ((n' + m) mod N)); apply C_eq; simpl; ring.
Qed.

(** ** WKACF *)

Lemma nth_map_seq {A} (F : nat -> A) N k d :
  (k < N)%nat -> nth k (map F (seq 0 N)) d = F k.
Proof.
  intros Hk. rewrite (nth_indep _ d (F 0%nat))
    by (now rewrite length_map, length_seq).
  rewrite map_nth, seq_nth by exact Hk. reflexivity.
Qed.

Lemma nth_map_lt {A B} (g : A -> B) l k d d' :
  (k < length l)%nat -> nth k (map g l) d' = g (nth k l d).
Proof.
  intros Hk. rewrite (nth_indep _ d' (g d)) by (now rewrite length_map).
  apply map_nth.
Qed.

Lemma length_dft sgn a : length (dft sgn a) = length a.
Proof. unfold dft. now rewrite length_map, length_seq. Qed.

Lemma length_ifftn a : length (ifftn a) = length a.
Proof. unfold ifftn. now rewrite length_map, length_dft. Qed.

Lemma nth_dft sgn a k :
  (k < length a)%nat ->
  nth k (dft sgn a) C0
  = Csum_n (length a) (fun n => nth n a C0 * twiddle sgn (length a) k n)%C.
Proof. intros Hk. unfold dft. now rewrite nth_map_seq. Qed.

Lemma WKACF_eq (x time : list R) :
  x <> [] ->
  WKACF x time
  = Ok (map (fun z => Re z / INR (length x))
          (firstn (length x / 2)
             (ifftn (map (fun z => (z * Cconj z)%C)
                       (fftn (map (fun v => RtoC (v - np_mean x)) x))))),
        firstn (length time / 2) time).
Proof.
  intros Hx. destruct x as [|x0 xs]; [congruence|].
  unfold WKACF. cbv zeta. unfold fftn.
  now rewrite length_ifftn, length_map, length_dft, length_map.
Qed.

(** What [WKACF] returns, entry by entry. *)
Lemma WKACF_inv (x time ACF redTime : list R) :
  WKACF x time = Ok (ACF, redTime) ->
  x <> [] /\
  redTime = firstn (length time / 2) time /\
  length ACF = (length x / 2)%nat /\
  forall m, (m < length x / 2)%nat ->
    nth m ACF 0 = circular_autocovariance x m.
Proof.
  intros H.
  assert (Hx : x <> []) by (intros ->; discriminate).
  rewrite (WKACF_eq x time Hx) in H.
  match type of H with
  | Ok (?A, ?B) = _ =>
      assert (HA : ACF = A) by congruence;
      assert (HT : redTime = B) by congruence
  end.
  clear H. subst ACF redTime.
  set (N := length x) in *.
  assert (HN : (0 < N)%nat)
    by (unfold N; destruct x; [congruence|cbn; lia]).
  assert (HNr : 0 < INR N) by (apply lt_0_INR; lia).
  assert (Hhalf : (N / 2 <= N)%nat)
    by (apply Nat.Div0.div_le_upper_bound; lia).
  set (a := map (fun v => RtoC (v - np_mean x)) x) in *.
  assert (Ha : length a = N) by (unfold a; now rewrite length_map).
  set (CC := map (fun z => (z * Cconj z)%C) (fftn a)) in *.
  assert (HCC : length CC = N)
    by (unfold CC, fftn; now rewrite length_map, length_dft).
  split; [exact Hx|]. split; [reflexivity|]. split.
  { rewrite length_map, length_firstn, length_ifftn, HCC. lia. }
  intros m Hm.
  rewrite (nth_map_lt _ _ _ C0)
    by (rewrite length_firstn, length_ifftn, HCC; lia).
  rewrite nth_firstn, (proj2 (Nat.ltb_lt _ _) Hm).
  unfold ifftn. rewrite (nth_map_lt _ _ _ C0), nth_dft, HCC
    by (rewrite ?length_dft, HCC; lia).
  rewrite (Csum_n_ext N _ (fun k =>
    Csum_n N (fun n => RtoC (deviation x n) * twiddle (-1) N k n)
    * Cconj (Csum_n N (fun n => RtoC (deviation x n) * twiddle (-1) N k n))
    * twiddle 1 N m k)%C).
  2: { intros k Hk. f_equal. unfold CC, fftn.
       rewrite (nth_map_lt _ _ _ C0) by (rewrite length_dft, Ha; lia).
       rewrite nth_dft, Ha by lia.
       assert (E : Csum_n N (fun n => nth n a C0 * twiddle (-1) N k n)%C
             = Csum_n N (fun n => RtoC (deviation x n)
                                  * twiddle (-1) N k n)%C).
       { apply Csum_n_ext. intros n Hn. f_equal. unfold a.
         now rewrite (nth_map_lt _ _ _ 0) by exact Hn. }
       now rewrite E. }
  rewrite power_spectrum_inverse by exact HN.
  unfold circular_autocovariance. fold N.
  cbn [Re Cmul RtoC Im]. field. lra.
Qed.

Lemma WKACF_Ok (x time : list R) :
  x <> [] ->
  exists ACF, WKACF x time = Ok (ACF, firstn (length time / 2) time).
Proof. intros Hx. rewrite (WKACF_eq x time Hx). now eexists. Qed.

(** ** The circular autocovariance *)

Lemma Rsum_n_add N f g :
  Rsum_n N (fun n => f n + g n) = Rsum_n N f + Rsum_n N g.
Proof.
  induction N as [|N IH]; [cbn; ring|].
  rewrite !Rsum_n_S, IH. ring.
Qed.

Lemma Rsum_n_le N f g :
  (forall n, (n < N)%nat -> f n <= g n) -> Rsum_n N f <= Rsum_n N g.
Proof.
  induction N as [|N IH]; intros H; [cbn; lra|].
  rewrite !Rsum_n_S.
  pose proof (IH (fun n Hn => H n (Nat.lt_lt_succ_r _ _ Hn))).
  pose proof (H N (Nat.lt_succ_diag_r N)). lra.
Qed.

Lemma Rsum_n_nonneg N f :
  (forall n, (n < N)%nat -> 0 <= f n) -> 0 <= Rsum_n N f.
Proof.
  induction N as [|N IH]; intros H; [cbn; lra|].
  rewrite Rsum_n_S.
  pose proof (IH (fun n Hn => H n (Nat.lt_lt_succ_r _ _ Hn))).
  pose proof (H N (Nat.lt_succ_diag_r N)). lra.
Qed.

Lemma Rsum_n_shift N g :
  Rsum_n (S N) g = g 0%nat + Rsum_n N (fun n => g (S n)).
Proof.
  unfold Rsum_n. cbn [seq map fold_right].
  now rewrite <- seq_shift, map_map.
Qed.

(** A sum over all indices does not change when they are rotated. *)
Lemma Rsum_n_rotate N g m :
  (0 < N)%nat -> Rsum_n N (fun n => g ((n + m) mod N)%nat) = Rsum_n N g.
Proof.
  intros HN. revert g. induction m as [|m IH]; intros g.
  - apply Rsum_n_ext. intros n Hn.
    now rewrite Nat.add_0_r, Nat.mod_small.
  - transitivity (Rsum_n N (fun j => g ((j + 1) mod N)%nat)).
    { rewrite <- (IH (fun j => g ((j + 1) mod N)%nat)).
      apply Rsum_n_ext. intros n _.
      rewrite Nat.Div0.add_mod_idemp_l. f_equal. f_equal. lia. }
    clear IH. destruct N as [|N]; [lia|].
    rewrite Rsum_n_S, Rsum_n_shift.
    replace ((N + 1) mod S N)%nat with 0%nat
      by (replace (N + 1)%nat with (S N) by lia;
          now rewrite Nat.Div0.mod_same).
    rewrite (Rsum_n_ext N _ (fun n => g (S n))).
    + ring.
    + intros n Hn. rewrite Nat.mod_small by lia. f_equal. lia.
Qed.

Lemma autocovariance_zero_lag (x : list R) :
  circular_autocovariance x 0
  = Rsum_n (length x) (fun n => deviation x n * deviation x n)
    / INR (length x).
Proof.
  unfold circular_autocovariance. f_equal.
  apply Rsum_n_ext. intros n Hn.
  now rewrite Nat.add_0_r, Nat.mod_small.
Qed.

(** Cauchy-Schwarz for a rotated copy: the autocovariance is largest at
    lag zero. *)
Lemma autocovariance_bound (x : list R) (m : nat) :
  x <> [] ->
  0 <= circular_autocovariance x 0 /\
  Rabs (circular_autocovariance x m) <= circular_autocovariance x 0.
Proof.
  intros Hx.
  assert (HN : (0 < length x)%nat) by (destruct x; [congruence|cbn; lia]).
  assert (HNr : 0 < INR (length x)) by (apply lt_0_INR; lia).
  rewrite autocovariance_zero_lag. unfold circular_autocovariance.
  set (N := length x) in *. set (y := deviation x).
  set (S0 := Rsum_n N (fun n => y n * y n)).
  set (Sm := Rsum_n N (fun n => y n * y ((n + m) mod N)%nat)).
  assert (Hrot : Rsum_n N (fun n => y ((n + m) mod N)%nat
                                    * y ((n + m) mod N)%nat) = S0).
  { apply (Rsum_n_rotate N (fun j => y j * y j) m HN). }
  assert (Hup : 2 * Sm <= S0 + S0).
  { rewrite <- Hrot at 2. unfold Sm, S0.
    rewrite <- Rsum_n_add, <- Rsum_n_mul_l.
    apply Rsum_n_le. intros n _.
    pose proof (Rle_0_sqr (y n - y ((n + m) mod N)%nat)) as Hs.
    unfold Rsqr in Hs. lra. }
  assert (Hlo : - (S0 + S0) <= 2 * Sm).
  { rewrite <- Hrot at 2. unfold Sm, S0.
    rewrite <- Rsum_n_add, <- Rsum_n_mul_l.
    replace (- Rsum_n N (fun n => y n * y n + y ((n + m) mod N)%nat
                                              * y ((n + m) mod N)%nat))
      with (Rsum_n N (fun n => -1 * (y n * y n + y ((n + m) mod N)%nat
                                              * y ((n + m) mod N)%nat)))
      by (rewrite Rsum_n_mul_l; ring).
    apply Rsum_n_le. intros n _.
    pose proof (Rle_0_sqr (y n + y ((n + m) mod N)%nat)) as Hs.
    unfold Rsqr in Hs. lra. }
  assert (H0 : 0 <= S0).
  { unfold S0. apply Rsum_n_nonneg. intros n _.
    pose proof (Rle_0_sqr (y n)) as Hs. unfold Rsqr in Hs. lra. }
  split.
  - apply Rmult_le_pos; [exact H0|]. left. now apply Rinv_0_lt_compat.
  - unfold Rdiv. rewrite Rabs_mult, (Rabs_pos_eq (/ INR N))
      by (left; now apply Rinv_0_lt_compat).
    apply Rmult_le_compat_r; [left; now apply Rinv_0_lt_compat|].
    apply Rabs_le. lra.
Qed.

(** ** Affine changes of the signal *)

Lemma fold_sum_affine k c (x : list R) :
  fold_right Rplus 0 (map (fun v => k * v + c) x)
  = k * fold_right Rplus 0 x + INR (length x) * c.
Proof.
  induction x as [|v x IH]; [cbn; ring|].
  cbn [map fold_right]. rewrite IH.
  change (length (v :: x)) with (S (length x)). rewrite S_INR. ring.
Qed.

Lemma np_mean_affine k c (x : list R) :
  x <> [] -> np_mean (map (fun v => k * v + c) x) = k * np_mean x + c.
Proof.
  intros Hx. unfold np_mean. rewrite fold_sum_affine, length_map.
  assert (0 < INR (length x))
    by (apply lt_0_INR; destruct x; [congruence|cbn; lia]).
  field. lra.
Qed.

Lemma deviation_affine k c (x : list R) n :
  (n < length x)%nat ->
  deviation (map (fun v => k * v + c) x) n = k * deviation x n.
Proof.
  intros Hn. unfold deviation.
  rewrite (nth_map_lt _ _ _ 0) by exact Hn.
  rewrite np_mean_affine by (destruct x; [cbn in Hn; lia|discriminate]).
  ring.
Qed.

Lemma autocovariance_affine k c (x : list R) m :
  x <> [] ->
  circular_autocovariance (map (fun v => k * v + c) x) m
  = k * k * circular_autocovariance x m.
Proof.
  intros Hx.
  assert (HN : (0 < length x)%nat) by (destruct x; [congruence|cbn; lia]).
  unfold circular_autocovariance. rewrite length_map.
  rewrite (Rsum_n_ext _ _
    (fun n => k * k * (deviation x n
                       * deviation x ((n + m) mod length x)%nat))).
  - rewrite Rsum_n_mul_l. unfold Rdiv. ring.
  - intros n Hn. rewrite !deviation_affine;
      [ring|apply Nat.mod_upper_bound; lia|exact Hn].
Qed.

Lemma WKACF_affine k c (x time ACF redTime : list R) :
  WKACF x time = Ok (ACF, redTime) ->
  WKACF (map (fun v => k * v + c) x) time
  = Ok (map (Rmult (k * k)) ACF, redTime).
Proof.
  intros H. destruct (WKACF_inv _ _ _ _ H) as (Hx & -> & HL & Hval).
  assert (Hx' : map (fun v => k * v + c) x <> [])
    by (destruct x; [congruence|discriminate]).
  destruct (WKACF_Ok _ time Hx') as (ACF' & H').
  rewrite H'. f_equal. f_equal.
  destruct (WKACF_inv _ _ _ _ H') as (_ & _ & HL' & Hval').
  rewrite length_map in HL', Hval'.
  apply (nth_ext _ _ 0 0).
  - now rewrite length_map, HL, HL'.
  - intros m Hm. rewrite HL' in Hm.
    rewrite (nth_map_lt _ _ _ 0) by (rewrite HL; exact Hm).
    rewrite Hval', Hval by exact Hm.
    now apply autocovariance_affine.
Qed.

(** ** A constant signal *)

Lemma fold_sum_constant c (x : list R) :
  (forall v, In v x -> v = c) ->
  fold_right Rplus 0 x = INR (length x) * c.
Proof.
  induction x as [|v x IH]; intros H; [cbn; ring|].
  cbn [fold_right]. rewrite IH by (intros; apply H; now right).
  rewrite (H v (or_introl eq_refl)).
  change (length (c :: x)) with (S (length x)). rewrite S_INR. ring.
Qed.

Lemma WKACF_constant c (x time : list R) :
  x <> [] ->
  (forall v, In v x -> v = c) ->
  exists ACF,
    WKACF x time = Ok (ACF, firstn (length time / 2) time) /\
    length ACF = (length x / 2)%nat /\
    forall i, nth i ACF 0 = 0.
Proof.
  intros Hx Hc.
  assert (HN : (0 < length x)%nat) by (destruct x; [congruence|cbn; lia]).
  assert (HNr : 0 < INR (length x)) by (apply lt_0_INR; lia).
  destruct (WKACF_Ok x time Hx) as (ACF & H).
  destruct (WKACF_inv _ _ _ _ H) as (_ & _ & HL & Hval).
  exists ACF. split; [exact H|]. split; [exact HL|].
  intros i. destruct (Nat.lt_ge_cases i (length x / 2)) as [Hi|Hi].
  - rewrite Hval by exact Hi. unfold circular_autocovariance.
    rewrite (Rsum_n_ext _ _ (fun n => 0 * 0)).
    + rewrite Rsum_n_mul_l. unfold Rdiv. ring.
    + intros n Hn. unfold deviation, np_mean.
      rewrite (fold_sum_constant c x Hc).
      rewrite (Hc (nth n x 0)) by (now apply nth_In).
      field. lra.
  - apply nth_overflow. lia.
Qed.

(** ** The script's time axis *)

Lemma firstn_seq n : forall s len,
  firstn n (seq s len) = seq s (Nat.min n len).
Proof.
  induction n as [|n IH]; intros s [|len]; try reflexivity.
  cbn [seq firstn Nat.min]. now rewrite IH.
Qed.

Lemma timeperstep_pos : 0 < timeperstep.
Proof. unfold timeperstep. lra. Qed.

Lemma length_time_axis N : length (time_axis N) = N.
Proof. unfold time_axis. now rewrite length_map, length_seq. Qed.

Lemma nth_time_axis N i :
  (i < N)%nat -> nth i (time_axis N) 0 = INR i * timeperstep.
Proof. intros Hi. unfold time_axis. now rewrite nth_map_seq. Qed.

Lemma firstn_time_axis N :
  firstn (N / 2) (time_axis N) = time_axis (N / 2).
Proof.
  unfold time_axis. rewrite firstn_map, firstn_seq.
  rewrite Nat.min_l by (apply Nat.Div0.div_le_upper_bound; lia).
  reflexivity.
Qed.

Lemma time_axis_increasing N : strictly_increasing (time_axis N).
Proof.
  intros i j Hij. rewrite length_time_axis in Hij.
  rewrite !nth_time_axis by lia.
  apply Rmult_lt_compat_r; [apply timeperstep_pos|].
  apply lt_INR; lia.
Qed.

Lemma last_time_axis N :
  (0 < N)%nat -> last (time_axis N) 0 = INR (N - 1) * timeperstep.
Proof.
  intros HN. rewrite last_nth_length
    by (intros E; apply (f_equal (@length R)) in E;
        rewrite length_time_axis in E; cbn in E; lia).
  rewrite length_time_axis. apply nth_time_axis. lia.
Qed.

(** X17.  [WKACF] computes the circular autocovariance.  Whenever it
    returns, the ACF has len(x)//2 entries, the time array is the first
    half of [time], and entry [m] is
    (1/N) sum_n (x[n] - mean) (x[(n+m) mod N] - mean) with N = len(x):
    the transform, the product with the conjugate and the inverse
    transform of lines 133-136 amount to this sum. *)
Theorem WKACF_circular_autocovariance (x time ACF redTime : list R) :
  WKACF x time = Ok (ACF, redTime) ->
  length ACF = (length x / 2)%nat /\
  redTime = firstn (length time / 2) time /\
  forall m, (m < length x / 2)%nat ->
    nth m ACF 0
    = Rsum_n (length x)
        (fun n => (nth n x 0 - np_mean x)
                  * (nth ((n + m) mod length x) x 0 - np_mean x))
      / INR (length x).
Proof.
  intros H. destruct (WKACF_inv _ _ _ _ H) as (_ & HT & HL & Hval).
  split; [exact HL|]. split; [exact HT|].
  intros m Hm. rewrite (Hval m Hm). reflexivity.
Qed.

Lemma WKACF_circular_autocovariance_witness :
  exists ACF,
    WKACF [1; 2; 3; 5] [0; 1; 2; 3] = Ok (ACF, [0; 1]) /\
    length ACF = 2%nat.
Proof.
  destruct (WKACF_Ok [1; 2; 3; 5] [0; 1; 2; 3]) as (ACF & H);
    [discriminate|].
  exists ACF. split; [exact H|].
  apply (WKACF_circular_autocovariance _ _ _ _ H).
Defined.

(** X18.  The zero-lag value dominates.  For a signal of at least two
    samples ACF[0] is the variance of [x] (the mean of the squared
    deviations), it is not negative, and no entry of the ACF exceeds it in
    absolute value. *)
Theorem WKACF_zero_lag_dominates (x time ACF redTime : list R) :
  (2 <= length x)%nat ->
  WKACF x time = Ok (ACF, redTime) ->
  0 <= nth 0 ACF 0 /\
  nth 0 ACF 0
  = Rsum_n (length x) (fun n => (nth n x 0 - np_mean x) ^ 2)
    / INR (length x) /\
  forall m, Rabs (nth m ACF 0) <= nth 0 ACF 0.
Proof.
  intros HN H. destruct (WKACF_inv _ _ _ _ H) as (Hx & _ & HL & Hval).
  assert (H0 : (0 < length x / 2)%nat)
    by (apply Nat.div_le_lower_bound; lia).
  destruct (autocovariance_bound x 0 Hx) as [Hpos _].
  rewrite (Hval 0%nat H0).
  split; [exact Hpos|]. split.
  - rewrite autocovariance_zero_lag. f_equal.
    apply Rsum_n_ext. intros n _. unfold deviation. ring.
  - intros m. destruct (Nat.lt_ge_cases m (length x / 2)) as [Hm|Hm].
    + rewrite (Hval m Hm). apply autocovariance_bound, Hx.
    + rewrite nth_overflow by lia. now rewrite Rabs_R0.
Qed.

Lemma WKACF_zero_lag_dominates_witness :
  exists ACF,
    WKACF [1; 2; 3; 5] [0; 1; 2; 3] = Ok (ACF, [0; 1]) /\
    Rabs (nth 1 ACF 0) <= nth 0 ACF 0.
Proof.
  destruct (WKACF_Ok [1; 2; 3; 5] [0; 1; 2; 3]) as (ACF & H);
    [discriminate|].
  exists ACF. split; [exact H|].
  apply (WKACF_zero_lag_dominates [1; 2; 3; 5] _ _ _ ltac:(cbn; lia) H).
Defined.

(** X19.  [WKACF] sees the fluctuations only: the signal [k x + c] gives
    [k^2] times the ACF of [x] on the same reduced time array, and adding
    a constant to the signal changes nothing. *)
Theorem WKACF_shift_and_scale (k c : R) (x time ACF redTime : list R) :
  WKACF x time = Ok (ACF, redTime) ->
  WKACF (map (fun v => k * v + c) x) time
    = Ok (map (Rmult (k * k)) ACF, redTime) /\
  WKACF (map (fun v => v + c) x) time = Ok (ACF, redTime).
Proof.
  intros H. split; [now apply WKACF_affine|].
  rewrite (map_ext (fun v => v + c) (fun v => 1 * v + c))
    by (intros; ring).
  rewrite (WKACF_affine 1 c _ _ _ _ H). f_equal. f_equal.
  rewrite <- (map_id ACF) at 2. apply map_ext. intros; ring.
Qed.

Lemma WKACF_shift_and_scale_witness :
  exists ACF,
    WKACF [1; 2; 3; 5] [0; 1; 2; 3] = Ok (ACF, [0; 1]) /\
    WKACF (map (fun v => v + 7) [1; 2; 3; 5]) [0; 1; 2; 3]
    = Ok (ACF, [0; 1]).
Proof.
  destruct (WKACF_Ok [1; 2; 3; 5] [0; 1; 2; 3]) as (ACF & H);
    [discriminate|].
  exists ACF. split; [exact H|].
  apply (WKACF_shift_and_scale 1 7 _ _ _ _ H).
Defined.

(** ** The script, stage by stage *)

Lemma freq_time_axis M :
  (2 <= M)%nat ->
  freq (time_axis M)
  = Ok (logspace (ln (2 * PI / (INR (M - 1) * timeperstep)) / ln 10)
          (ln (2 * PI / (3 * timeperstep)) / ln 10) nfreq).
Proof.
  intros HM. pose proof timeperstep_pos as Hdt.
  apply (freq_Ok (time_axis M) timeperstep (INR (M - 1) * timeperstep)).
  - rewrite (nth_error_nth' _ 0) by (rewrite length_time_axis; lia).
    rewrite nth_time_axis by lia. f_equal. cbn [INR]. ring.
  - apply last_time_axis. lia.
  - exact Hdt.
  - apply Rmult_lt_0_compat; [apply lt_0_INR; lia|exact Hdt].
Qed.


Section ScriptStages.
Context {F : Type} {A : Float64 F}.
Variable store : R -> F.

Lemma script_stages (charges : list R) :
  (4 <= length charges)%nat ->
  exists ACF qw grid,
    WKACF (map (fun q => q * e) charges) (time_axis (length charges))
    = Ok (ACF, time_axis (length charges / 2)) /\
    length ACF = (length charges / 2)%nat /\
    Window ep tau ACF (time_axis (length charges / 2)) = Ok qw /\
    length qw = (length charges / 2)%nat /\
    freq (time_axis (length charges / 2)) = Ok grid /\
    script store charges
    = bind (AdmFromQ beta store (time_axis (length charges / 2)) qw grid)
        (fun Adm => Ok (qw, grid, Adm, Imp Adm)).
Proof.
  intros HN.
  set (N := length charges) in *.
  assert (HM : (2 <= N / 2)%nat)
    by (apply Nat.div_le_lower_bound; lia).
  assert (Hx : map (fun q => q * e) charges <> [])
    by (destruct charges; [cbn in HN; lia|discriminate]).
  destruct (WKACF_Ok _ (time_axis N) Hx) as (ACF & HW).
  rewrite length_time_axis, firstn_time_axis in HW.
  destruct (WKACF_inv _ _ _ _ HW) as (_ & _ & HL & _).
  rewrite length_map in HL. fold N in HL.
  assert (HWin : Window ep tau ACF (time_axis (N / 2))
                 = Ok ([] ++ map (fun p => nth (fst p) ACF 0
                                           * W ep tau (snd p))
                         (combine (seq 0 (length (time_axis (N / 2))))
                            (time_axis (N / 2))))).
  { unfold Window. apply window_loop_Ok.
    rewrite length_time_axis, HL. lia. }
  set (qw := [] ++ _) in HWin.
  assert (Hqw : length qw = (N / 2)%nat).
  { unfold Window in HWin. apply window_loop_length in HWin.
    rewrite HWin, length_time_axis. reflexivity. }
  exists ACF, qw. eexists. split; [exact HW|]. split; [exact HL|].
  split; [exact HWin|]. split; [exact Hqw|].
  split; [apply (freq_time_axis _ HM)|].
  unfold script. cbv zeta. fold N. fold (time_axis N).
  rewrite HW. cbn [bind fst snd]. unfold main.
  rewrite HWin. cbn [bind]. rewrite (freq_time_axis _ HM). reflexivity.
Qed.

Lemma script_inv charges r :
  script store charges = Ok r ->
  exists ACF redTime,
    WKACF (map (fun q => q * e) charges) (time_axis (length charges))
    = Ok (ACF, redTime) /\
    main store ACF redTime = Ok r.
Proof.
  unfold script. cbv zeta. fold (time_axis (length charges)).
  destruct (WKACF _ _) as [[ACF redTime]| |]; try discriminate.
  cbn [bind fst snd]. intros H. now exists ACF, redTime.
Qed.

End ScriptStages.

(** A column of zero charges, in exact arithmetic: the script runs
    through with a zero windowed ACF. *)
Lemma script_zero_run (charges : list R) :
  (4 <= length charges)%nat ->
  (forall q, In q charges -> q = 0) ->
  exists qw grid Adm,
    script Finite charges = Ok (qw, grid, Adm, Imp Adm) /\
    length qw = (length charges / 2)%nat /\
    (forall i, nth i qw 0 = 0) /\
    forall k, (k < 100)%nat ->
      nth_error Adm k = Some C0 /\ nth_error (Imp Adm) k = Some InfNaN.
Proof.
  intros HN Hc.
  set (N := length charges) in *.
  assert (HM : (2 <= N / 2)%nat)
    by (apply Nat.div_le_lower_bound; lia).
  destruct (WKACF_constant (0 * e) (map (fun q => q * e) charges)
              (time_axis N)) as (ACF & HW & HL & Hz).
  { destruct charges; [cbn in HN; lia|discriminate]. }
  { intros v Hv. apply in_map_iff in Hv. destruct Hv as (q & <- & Hq).
    now rewrite (Hc q Hq). }
  rewrite length_time_axis, firstn_time_axis in HW.
  rewrite length_map in HL. fold N in HL.
  destruct (main_zero_ACF ACF (time_axis (N / 2)))
    as (qw & grid & Adm & Hm & Hqw & HA).
  { now rewrite length_time_axis. }
  { now rewrite length_time_axis. }
  { apply time_axis_increasing. }
  { rewrite nth_time_axis by lia. cbn [INR]. lra. }
  { exact Hz. }
  exists qw, grid, Adm. split.
  { unfold script. cbv zeta. fold N. fold (time_axis N).
    rewrite HW. cbn [bind fst snd]. exact Hm. }
  split; [|split; [exact Hqw|exact HA]].
  destruct (main_inv Finite _ _ _ _ _ _ Hm) as (HWin & _).
  unfold Window in HWin. apply window_loop_length in HWin.
  now rewrite HWin, length_time_axis.
Qed.

(** X20.  The outcomes of [AdmFromQ], whatever the arithmetic.  On a QACF
    aligned with the time axis and a grid without a zero frequency it
    raises ValueError exactly when the [p.coef] of some segment has two
    entries; otherwise [LagrangeInterpol] returns, and [AdmFromQ] returns
    one admittance per frequency when all stored coefficients are finite
    and inf/NaN values without an exception when they are not.  It
    raises no IndexError and no ZeroDivisionError. *)
Theorem AdmFromQ_outcomes (F : Type) (A : Float64 F) (store : R -> F)
    (beta : R) (Time QACF fs : list R) :
  length QACF = length Time ->
  (1 <= length Time)%nat ->
  (forall w, In w fs -> w <> 0) ->
  (AdmFromQ beta store Time QACF fs = Raise ValueError /\
   exists q a b,
     (q < (length Time - 1) / 2)%nat /\
     seg_coef (map store Time) (map store QACF) q = Ok [a; b]) \/
  ((forall q, (q < (length Time - 1) / 2)%nat ->
      forall a b,
        seg_coef (map store Time) (map store QACF) q <> Ok [a; b]) /\
   exists Coeffs,
     LagrangeInterpol (zeros_rows (length Time / 2))
       (map store Time) (map store QACF) = Ok Coeffs /\
     ((rows_values Coeffs = NonFinite /\
       AdmFromQ beta store Time QACF fs = NonFinite) \/
      (exists rows Adm,
         rows_values Coeffs = Ok rows /\
         AdmFromQ beta store Time QACF fs = Ok Adm /\
         length Adm = length fs))).
Proof.
  intros HS HT Hnz. fold (nseg Time).
  destruct (AdmFromQ_cases store beta Time QACF fs HS HT Hnz)
    as [HErr|HOk].
  - left. exact HErr.
  - right. exact HOk.
Qed.

Lemma AdmFromQ_outcomes_witness :
  AdmFromQ beta Finite [0; 1; 2] [0; 1; 2] [2] = Raise ValueError.
Proof.
  destruct (AdmFromQ_outcomes (f64 R) exact Finite beta
              [0; 1; 2] [0; 1; 2] [2])
    as [[HErr _]|[Hno _]].
  - reflexivity.
  - cbn; lia.
  - intros w [<-|[]]. lra.
  - exact HErr.
  - exfalso. apply (Hno 0%nat ltac:(vm_compute; lia) (Finite 1) (Finite 0)).
    rewrite seg_coef_exact. cbn [Nat.mul Nat.add nth].
    rewrite lagrange3_exact by lra.
    assert (Ea : La 0 1 2 0 1 2 = 0) by (unfold La; field).
    assert (Eb : Lb 0 1 2 0 1 2 = 1) by (unfold Lb; field).
    assert (Ec : Lc 0 1 2 0 1 2 = 0) by (unfold Lc; field).
    rewrite Ea, Eb, Ec, exact_poly1d_0, exact_poly1d_nz by lra.
    reflexivity.
Defined.

(** X21.  A charge column of two or three rows leaves a reduced time
    array of one point, and the script stops with IndexError at
    [redTime[1]] (line 201), whatever the arithmetic. *)
Theorem script_short_input (F : Type) (A : Float64 F) (store : R -> F)
    (charges : list R) :
  (2 <= length charges < 4)%nat ->
  script store charges = Raise IndexError.
Proof.
  intros HN.
  destruct charges as [|a [|b [|c [|d l]]]]; cbn in HN; try lia;
    reflexivity.
Qed.

Lemma script_short_input_witness :
  script Finite [1; 2; 3] = Raise IndexError.
Proof.
  apply (script_short_input (f64 R) exact Finite [1; 2; 3]). cbn; lia.
Defined.

(** X22.  From four rows on, whatever the arithmetic: [WKACF] returns an
    ACF on the first half of the time axis, [Window] its windowed copy,
    and the grid is built.  Then the script raises ValueError exactly
    when the [p.coef] of some segment of the windowed ACF has two
    entries; otherwise it runs through to the impedance when all stored
    coefficients are finite, and gives inf/NaN values without an
    exception when they are not.  No IndexError and no ZeroDivisionError
    is raised. *)
Theorem script_outcomes (F : Type) (A : Float64 F) (store : R -> F)
    (charges : list R) :
  (4 <= length charges)%nat ->
  exists ACF qw grid,
    WKACF (map (fun q => q * e) charges) (time_axis (length charges))
    = Ok (ACF, time_axis (length charges / 2)) /\
    Window ep tau ACF (time_axis (length charges / 2)) = Ok qw /\
    freq (time_axis (length charges / 2)) = Ok grid /\
    ((script store charges = Raise ValueError /\
      exists q a b,
        (q < nseg (time_axis (length charges / 2)))%nat /\
        seg_coef (map store (time_axis (length charges / 2)))
          (map store qw) q = Ok [a; b]) \/
     ((forall q, (q < nseg (time_axis (length charges / 2)))%nat ->
         forall a b,
           seg_coef (map store (time_axis (length charges / 2)))
             (map store qw) q <> Ok [a; b]) /\
      exists Coeffs,
        LagrangeInterpol (zeros_rows (length charges / 2 / 2))
          (map store (time_axis (length charges / 2))) (map store qw)
        = Ok Coeffs /\
        ((rows_values Coeffs = NonFinite /\
          script store charges = NonFinite) \/
         (exists rows Adm,
            rows_values Coeffs = Ok rows /\
            script store charges = Ok (qw, grid, Adm, Imp Adm))))).
Proof.
  intros HN.
  destruct (script_stages store charges HN)
    as (ACF & qw & grid & HW & HL & HWin & Hqw & Hf & Hs).
  assert (HM : (2 <= length charges / 2)%nat)
    by (apply Nat.div_le_lower_bound; lia).
  exists ACF, qw, grid. split; [exact HW|]. split; [exact HWin|].
  split; [exact Hf|].
  destruct (AdmFromQ_cases store beta (time_axis (length charges / 2))
              qw grid)
    as [[HErr Hsl]|[Hno (Coeffs & HC & Hrest)]].
  - now rewrite length_time_axis.
  - rewrite length_time_axis. lia.
  - intros w Hw. apply freq_inv in Hf. destruct Hf as (ll & lh & ->).
    apply logspace_positive in Hw. lra.
  - left. split; [|exact Hsl]. rewrite Hs, HErr. reflexivity.
  - right. split; [exact Hno|].
    rewrite length_time_axis in HC.
    exists Coeffs. split; [exact HC|].
    destruct Hrest as [[Hv HNF]|(rows & Adm & Hv & HA & _)].
    + left. split; [exact Hv|]. rewrite Hs, HNF. reflexivity.
    + right. exists rows, Adm. split; [exact Hv|].
      rewrite Hs, HA. reflexivity.
Qed.

Lemma script_outcomes_witness :
  exists ACF qw,
    WKACF (map (fun q => q * e) [1; 2; 3; 5]) (time_axis 4)
    = Ok (ACF, time_axis 2) /\
    Window ep tau ACF (time_axis 2) = Ok qw.
Proof.
  destruct (script_outcomes (f64 R) exact Finite [1; 2; 3; 5])
    as (ACF & qw & grid & HW & HWin & _).
  - cbn; lia.
  - exists ACF, qw. split; [exact HW|exact HWin].
Defined.

(** X23.  The frequency grid of a run depends on the number of rows N
    alone: it starts at 2 pi / ((N//2 - 1) timeperstep), ends at
    2 pi / (3 timeperstep), and it is strictly increasing exactly when the
    column has at least 10 rows. *)
Theorem script_grid (F : Type) (A : Float64 F) (store : R -> F)
    (charges qw fs : list R) (Adm : list C) (Z : list (f64 C)) :
  (4 <= length charges)%nat ->
  script store charges = Ok (qw, fs, Adm, Z) ->
  nth 0 fs 0 = 2 * PI / (INR (length charges / 2 - 1) * timeperstep) /\
  nth 99 fs 0 = 2 * PI / (3 * timeperstep) /\
  (strictly_increasing fs <-> (10 <= length charges)%nat).
Proof.
  intros HN H.
  assert (HM : (2 <= length charges / 2)%nat)
    by (apply Nat.div_le_lower_bound; lia).
  destruct (script_inv store _ _ H) as (ACF & redTime & HW & Hm).
  destruct (WKACF_inv _ _ _ _ HW) as (_ & HT & _).
  rewrite length_time_axis, firstn_time_axis in HT. subst redTime.
  destruct (main_inv store _ _ _ _ _ _ Hm) as (_ & Hf & _).
  rewrite (freq_time_axis _ HM) in Hf.
  assert (Hfs : fs = logspace
            (ln (2 * PI / (INR (length charges / 2 - 1) * timeperstep))
             / ln 10)
            (ln (2 * PI / (3 * timeperstep)) / ln 10) nfreq)
    by congruence.
  clear Hf. set (M := (length charges / 2)%nat) in *.
  pose proof timeperstep_pos as Hdt. pose proof PI_RGT_0 as Hpi.
  assert (HMr : 0 < INR (M - 1)) by (apply lt_0_INR; lia).
  assert (Hlo : 0 < 2 * PI / (INR (M - 1) * timeperstep)).
  { apply Rdiv_lt_0_compat; [lra|]. now apply Rmult_lt_0_compat. }
  assert (Hhi : 0 < 2 * PI / (3 * timeperstep))
    by (apply Rdiv_lt_0_compat; lra).
  assert (H0 : nth 0 fs 0 = 2 * PI / (INR (M - 1) * timeperstep)).
  { rewrite Hfs, logspace_first by (unfold nfreq; lia).
    now apply Rpower10_log10. }
  assert (H99 : nth 99 fs 0 = 2 * PI / (3 * timeperstep)).
  { rewrite Hfs. change 99%nat with (nfreq - 1)%nat.
    rewrite logspace_last by (unfold nfreq; lia).
    now apply Rpower10_log10. }
  split; [exact H0|]. split; [exact H99|]. split.
  - intros Hinc.
    assert (Hlt : nth 0 fs 0 < nth 99 fs 0).
    { apply Hinc. rewrite Hfs, logspace_length. unfold nfreq. lia. }
    rewrite H0, H99 in Hlt.
    destruct (Nat.lt_ge_cases (length charges) 10) as [Hsmall|]; [|assumption].
    exfalso.
    assert (HM4 : (M - 1 <= 3)%nat).
    { assert (M < 5)%nat
        by (apply Nat.Div0.div_lt_upper_bound; lia).
      lia. }
    apply le_INR in HM4. rewrite (INR_IZR_INZ 3) in HM4. cbn [Z.of_nat Pos.of_succ_nat Pos.succ] in HM4.
    assert (Hle : 2 * PI / (3 * timeperstep)
                  <= 2 * PI / (INR (M - 1) * timeperstep)).
    { unfold Rdiv. apply Rmult_le_compat_l; [lra|].
      apply Rinv_le_contravar; [now apply Rmult_lt_0_compat|].
      apply Rmult_le_compat_r; lra. }
    lra.
  - intros H10. rewrite Hfs. apply logspace_increasing.
    apply log10_increasing; [exact Hlo|].
    assert (HM5 : (4 <= M - 1)%nat).
    { assert (5 <= M)%nat by (apply Nat.div_le_lower_bound; lia). lia. }
    apply le_INR in HM5. rewrite (INR_IZR_INZ 4) in HM5. cbn [Z.of_nat Pos.of_succ_nat Pos.succ] in HM5.
    unfold Rdiv. apply Rmult_lt_compat_l; [lra|].
    apply Rinv_lt_contravar.
    + apply Rmult_lt_0_compat; [lra|now apply Rmult_lt_0_compat].
    + apply Rmult_lt_compat_r; lra.
Qed.


Lemma script_grid_witness :
  exists qw fs Adm,
    script Finite (repeat 0 10) = Ok (qw, fs, Adm, Imp Adm) /\
    strictly_increasing fs.
Proof.
  destruct (script_zero_run (repeat 0 10))
    as (qw & fs & Adm & H & _).
  - cbn; lia.
  - intros q Hq. now apply repeat_spec in Hq.
  - exists qw, fs, Adm. split; [exact H|].
    apply (script_grid (f64 R) exact Finite (repeat 0 10) qw fs Adm
             (Imp Adm) ltac:(cbn; lia) H).
    cbn; lia.
Defined.
